(** * Device comparison screen ([src/app/(tabs)/compare.jsx])

    A shallow embedding of the comparison engine of the [Compare]
    component: the regular-expression based specification extractor
    ([cleanHTMLContent], [extractSpecifications]), the comparison table
    builder ([renderComparisonTable]) and the selection state machine
    (debounced search, detail fetches, reconciliation with the navigation
    parameters), followed by the properties established about them. *)

From Stdlib Require Import NArith Ascii String.
From stdpp Require Import gmap list sorting lexico pretty.
From Equations Require Import Equations.

Set Default Proof Using "Type".
Set Warnings "-clear-no-such-hyp".

(** ** Strings

    A JavaScript string is a sequence of UTF-16 code units; a code unit is
    modelled by its number.  Literals are written with [str]. *)

Definition char := N.
Abbreviation jsstring := (list N).

Definition str (s : string) : jsstring :=
  map N_of_ascii (list_ascii_of_string s).

Definition chr (a : ascii) : char := N_of_ascii a.

(** The class [\s] of regular expressions, which is also the set of code
    units removed by [String.prototype.trim]: the WhiteSpace and
    LineTerminator productions of ECMAScript. *)
Definition isSpace (c : char) : bool :=
  ((9 <=? c) && (c <=? 13) || (c =? 32) || (c =? 160) || (c =? 5760)
   || (8192 <=? c) && (c <=? 8202) || (c =? 8232) || (c =? 8233)
   || (c =? 8239) || (c =? 8287) || (c =? 12288) || (c =? 65279))%N.

(** ** Regular expressions

    The three patterns of the source are sequences of literal characters,
    character classes, greedy and lazy repetitions of one class and capture
    parentheses.  [run] is the backtracking matcher of ECMAScript restricted
    to these forms: the tail of the pattern is the continuation, a greedy
    repetition tries the longest run first and a lazy one the shortest. *)

Inductive atom :=
| Lit (c : char)                 (* one literal character *)
| Cls (p : char → bool)          (* one character of a class *)
| Star (p : char → bool)         (* class*  (greedy) *)
| StarLazy (p : char → bool)     (* class*? (lazy) *)
| Mark.                          (* an opening or closing capture parenthesis *)

Abbreviation regex := (list atom).

(** [run r s] matches [r] at the start of [s].  The result holds the input
    that was left at each capture parenthesis, in pattern order, and the
    input left after the match. *)
Fixpoint run (r : regex) (s : jsstring) {struct r}
  : option (list jsstring * jsstring) :=
  match r with
  | [] => Some ([], s)
  | Lit c :: r' =>
      match s with
      | x :: s' => if (x =? c)%N then run r' s' else None
      | [] => None
      end
  | Cls p :: r' =>
      match s with
      | x :: s' => if p x then run r' s' else None
      | [] => None
      end
  | Star p :: r' =>
      (fix star (s : jsstring) : option (list jsstring * jsstring) :=
         match s with
         | x :: s' =>
             if p x then
               match star s' with
               | Some m => Some m
               | None => run r' s
               end
             else run r' s
         | [] => run r' s
         end) s
  | StarLazy p :: r' =>
      (fix lazy (s : jsstring) : option (list jsstring * jsstring) :=
         match run r' s with
         | Some m => Some m
         | None =>
             match s with
             | x :: s' => if p x then lazy s' else None
             | [] => None
             end
         end) s
  | Mark :: r' =>
      match run r' s with
      | Some (ms, rest) => Some (s :: ms, rest)
      | None => None
      end
  end.

(** The text between two positions of the input, each given by the input
    left at that position. *)
Definition between (from to : jsstring) : jsstring :=
  take (length from - length to) from.

(** Leftmost match at or after the current position. *)
Fixpoint search (r : regex) (s : jsstring) : option (list jsstring * jsstring) :=
  match run r s with
  | Some m => Some m
  | None =>
      match s with
      | [] => None
      | _ :: s' => search r s'
      end
  end.

(** [String.prototype.replace] with a global pattern and a constant
    replacement: every match, scanning from the left, is replaced; after an
    empty match the scan advances by one character. *)
Equations replaceAll (r : regex) (repl : jsstring) (s : jsstring) : jsstring
  by wf (length s) lt :=
  replaceAll r repl s with run r s => {
    | Some (_, rest) with lt_dec (length rest) (length s) => {
        | left _ => repl ++ replaceAll r repl rest
        | right _ with s => {
            | [] => repl
            | c :: s' => repl ++ c :: replaceAll r repl s' } }
    | None with s => {
        | [] => []
        | c :: s' => c :: replaceAll r repl s' } }.

Definition lits (s : string) : regex := Lit <$> str s.

Definition anyChar (c : char) : bool := true.                    (* [\s\S] *)
Definition notGt (c : char) : bool := negb (c =? chr ">")%N.     (* [^>] *)
Definition digit24 (c : char) : bool :=                          (* [2-4] *)
  ((chr "2" <=? c) && (c <=? chr "4"))%N.

(** [/<[^>]+>/g] *)
Definition tagRegex : regex := [Lit (chr "<"); Cls notGt; Star notGt; Lit (chr ">")].

(** [/\s+/g] *)
Definition spacesRegex : regex := [Cls isSpace; Star isSpace].

Fixpoint dropSpaces (s : jsstring) : jsstring :=
  match s with
  | c :: s' => if isSpace c then dropSpaces s' else s
  | [] => []
  end.

(** [String.prototype.trim] *)
Definition trim (s : jsstring) : jsstring :=
  reverse (dropSpaces (reverse (dropSpaces s))).

(** [cleanHTMLContent]; the argument is a string at every call site. *)
Definition cleanHTMLContent (content : jsstring) : jsstring :=
  trim (replaceAll spacesRegex (str " ") (replaceAll tagRegex [] content)).

(** The pattern of [extractSpecifications]:
    [<h[2-4][^>]*>([\s\S]*?)<\/h[2-4]>\s*<figure[^>]*>\s*<table[^>]*>([\s\S]+?)<\/table>\s*<\/figure>] *)
Definition specRegex : regex :=
  lits "<h" ++ [Cls digit24; Star notGt; Lit (chr ">")]
  ++ [Mark; StarLazy anyChar; Mark]
  ++ lits "</h" ++ [Cls digit24; Lit (chr ">"); Star isSpace]
  ++ lits "<figure" ++ [Star notGt; Lit (chr ">"); Star isSpace]
  ++ lits "<table" ++ [Star notGt; Lit (chr ">")]
  ++ [Mark; Cls anyChar; StarLazy anyChar; Mark]
  ++ lits "</table>" ++ [Star isSpace] ++ lits "</figure>".

(** One result of [regex.exec(content)]: the two captures, and the input
    left after the match, which stands for the pattern's [lastIndex]. *)
Record execResult := ExecResult {
  group1 : jsstring;
  group2 : jsstring;
  afterMatch : jsstring
}.

Definition exec (s : jsstring) : option execResult :=
  match search specRegex s with
  | Some (ms, rest) =>
      Some (ExecResult (between (ms !!! 0%nat) (ms !!! 1%nat))
                       (between (ms !!! 2%nat) (ms !!! 3%nat)) rest)
  | None => None
  end.

(** ** The parsed table

    [extractSpecifications] hands each matched table to the DOM parser of
    the react-native-html-parser package and reads the result through
    [getElementsByTagName], [item], [length] and [textContent].  A document
    is modelled by the part of the DOM these operations observe: a tree of
    elements and text nodes. *)

#[warnings="-register-all"]
Inductive node :=
| TextNode (data : jsstring)
| Element (tagName : jsstring) (childNodes : list node).

Definition isElementNamed (name : jsstring) (n : node) : bool :=
  match n with
  | Element t _ => bool_decide (t = name)
  | TextNode _ => false
  end.

(** All descendants of a node in document order, the node itself excluded. *)
Fixpoint descendants (n : node) : list node :=
  match n with
  | TextNode _ => []
  | Element _ cs =>
      (fix go (cs : list node) : list node :=
         match cs with
         | [] => []
         | c :: cs' => c :: descendants c ++ go cs'
         end) cs
  end.

Definition getElementsByTagName (name : jsstring) (n : node) : list node :=
  List.filter (isElementNamed name) (descendants n).

Fixpoint textContent (n : node) : jsstring :=
  match n with
  | TextNode d => d
  | Element _ cs =>
      (fix go (cs : list node) : jsstring :=
         match cs with
         | [] => []
         | c :: cs' => textContent c ++ go cs'
         end) cs
  end.

(** [new HTMLParser.DOMParser().parseFromString(source, 'text/html')]: the
    parser belongs to a package outside the repository, so the extractor is
    stated for any parser.  The document is the root of the tree. *)
Class DOMParser := parseFromString : jsstring → node.

(** ** The specification extractor *)

(** An entry of a category: [{specification, value}]. *)
Record spec := Spec {
  specification : jsstring;
  value : jsstring
}.

Global Instance spec_eq_dec : EqDecision spec.
Proof. solve_decision. Defined.

(** A specification object: its own properties, by name. *)
Abbreviation specMap := (gmap jsstring (list spec)).

(** [specifications[category] = categoryDetails] on an object made by [{}].
    The name [__proto__] is the prototype accessor of such an object:
    assigning an array to it replaces the prototype and creates no
    property, and the array answers none of the category names that
    [renderComparisonTable] looks up. *)
Definition setProperty (specifications : specMap) (category : jsstring)
    (categoryDetails : list spec) : specMap :=
  if decide (category = str "__proto__") then specifications
  else <[category := categoryDetails]> specifications.

Global Instance node_inhabited : Inhabited node := populate (TextNode []).

(** The body of the [for] loop over the rows: a row pushes one entry when it
    has exactly two [td] descendants; [cells !!! i] is [cells.item(i)]. *)
Definition rowDetails (row : node) : list spec :=
  let cells := getElementsByTagName (str "td") row in
  if decide (length cells = 2) then
    [Spec (cleanHTMLContent (textContent (cells !!! 0)))
          (cleanHTMLContent (textContent (cells !!! 1)))]
  else [].

(** A value together with the fact that it is the value of the expression,
    for definitions by cases on the result of a call. *)
Definition inspect {A} (a : A) : {b | a = b} := exist _ a eq_refl.

Section Extractor.
Context `{DOMParser}.

(** [categoryDetails] once the [for] loop has run over the rows of the
    table captured by the match. *)
Definition categoryDetailsOf (matches : execResult) : list spec :=
  let tableHTML := str "<table>" ++ group2 matches ++ str "</table>" in
  let doc := parseFromString tableHTML in
  let rows := getElementsByTagName (str "tr") doc in
  flat_map rowDetails rows.

(** The body of the [while] loop. *)
Definition processMatch (matches : execResult) (specifications : specMap)
  : specMap :=
  let rawHeading := group1 matches in
  let category := cleanHTMLContent rawHeading in
  let categoryDetails := categoryDetailsOf matches in
  if decide (0 < length categoryDetails) then
    setProperty specifications category categoryDetails
  else specifications.
End Extractor.

(** A match of the pattern is never empty, so [lastIndex] advances at each
    turn of the loop. *)
Lemma run_length r s ms rest :
  run r s = Some (ms, rest) → length rest ≤ length s.
Proof.
  revert s ms rest. induction r as [|a r IH]; intros s ms rest; simpl.
  - intros [= <- <-]. done.
  - destruct a as [c|p|p|p|].
    + destruct s as [|x s]; [done|]. case_match; [|done].
      intros ?%IH. simpl. lia.
    + destruct s as [|x s]; [done|]. case_match; [|done].
      intros ?%IH. simpl. lia.
    + revert ms rest. induction s as [|x s IHs]; intros ms rest; [by apply IH|].
      destruct (p x); [|by apply IH].
      match goal with |- context [match ?f s with _ => _ end] =>
        destruct (f s) as [[ms' rest']|] eqn:Hs end.
      * intros [= <- <-]. specialize (IHs _ _ eq_refl). simpl. lia.
      * by apply IH.
    + revert ms rest. induction s as [|x s IHs]; intros ms rest.
      * destruct (run r []) as [m|] eqn:Hr; [|done].
        intros [= ->]. by apply IH in Hr.
      * destruct (run r (x :: s)) as [m|] eqn:Hr.
        -- intros [= ->]. by apply IH in Hr.
        -- destruct (p x); [|done]. intros ?%IHs. simpl. lia.
    + destruct (run r s) as [[ms' rest']|] eqn:Hr; [|done].
      intros [= <- <-]. by apply IH in Hr.
Qed.

Lemma search_lit_length c r s ms rest :
  search (Lit c :: r) s = Some (ms, rest) → length rest < length s.
Proof.
  induction s as [|x s IH]; simpl; [done|].
  destruct (x =? c)%N.
  - destruct (run r s) eqn:Hr.
    + intros [= ->]. apply run_length in Hr. lia.
    + intros ?%IH. lia.
  - intros ?%IH. lia.
Qed.

Lemma exec_advances s matches :
  exec s = Some matches → length (afterMatch matches) < length s.
Proof.
  unfold exec. destruct (search specRegex s) as [[ms rest]|] eqn:Hs; [|done].
  intros [= <-]. simpl. by apply search_lit_length in Hs.
Qed.

Section ExtractSpecifications.
Context `{DOMParser}.

(** The [while ((matches = regex.exec(content)) !== null)] loop, from the
    input left at the pattern's [lastIndex]. *)
Equations? specLoop (s : jsstring) (specifications : specMap) : specMap
  by wf (length s) lt :=
  specLoop s specifications with inspect (exec s) => {
    | exist _ (Some matches) _ =>
        specLoop (afterMatch matches) (processMatch matches specifications)
    | exist _ None _ => specifications }.
Proof. by apply exec_advances. Qed.

(** [extractSpecifications]; the argument is a string at every call site. *)
Definition extractSpecifications (content : jsstring) : specMap :=
  specLoop content ∅.
End ExtractSpecifications.

(** *** A parser for well-nested markup

    What the package's parser builds for plain element markup: a tag
    [<name ...>] opens an element, [</name>] closes the element that is
    open, text between tags becomes a text node.  It instantiates
    [DOMParser] on concrete bodies. *)

Inductive token :=
| TOpen (name : jsstring)
| TClose (name : jsstring)
| TText (data : jsstring).

Fixpoint nameOf (body : jsstring) : jsstring :=
  match body with
  | c :: body' =>
      if isSpace c || (c =? chr "/")%N then [] else c :: nameOf body'
  | [] => []
  end.

Definition tagToken (body : jsstring) : token :=
  match body with
  | c :: body' => if (c =? chr "/")%N then TClose (nameOf body') else TOpen (nameOf body)
  | [] => TOpen []
  end.

Definition textToken (acc : jsstring) : list token :=
  match acc with
  | [] => []
  | _ => [TText (reverse acc)]
  end.

(** [acc] holds, reversed, the characters of the tag or of the text being
    read. *)
Fixpoint tokenize (s : jsstring) (inTag : bool) (acc : jsstring) : list token :=
  match s with
  | [] => if inTag then [] else textToken acc
  | c :: s' =>
      if inTag then
        if (c =? chr ">")%N then tagToken (reverse acc) :: tokenize s' false []
        else tokenize s' true (c :: acc)
      else
        if (c =? chr "<")%N then textToken acc ++ tokenize s' true []
        else tokenize s' false (c :: acc)
  end.

(** [cur] holds, reversed, the children read so far of the element that is
    open; [stack] holds the enclosing open elements with theirs. *)
Fixpoint buildTree (ts : list token) (cur : list node)
    (stack : list (jsstring * list node)) : list node :=
  match ts with
  | [] =>
      reverse (fold_left (λ inner '(name, outer), Element name (reverse inner) :: outer)
                         stack cur)
  | TText d :: ts' => buildTree ts' (TextNode d :: cur) stack
  | TOpen name :: ts' => buildTree ts' [] ((name, cur) :: stack)
  | TClose name :: ts' =>
      match stack with
      | (open, outer) :: stack' =>
          if decide (open = name)
          then buildTree ts' (Element open (reverse cur) :: outer) stack'
          else buildTree ts' cur stack
      | [] => buildTree ts' cur stack
      end
  end.

Definition simpleParser : DOMParser :=
  λ source, Element [] (buildTree (tokenize source false []) [] []).

(** ** The comparison table ([renderComparisonTable]) *)

Definition categories : list jsstring :=
  str <$> ["General"; "Display"; "Hardware"; "Camera"; "Software";
           "Connectivity"; "Sensors"; "Battery"]%string.

(** [deviceSpecMap[category] || []] *)
Definition categorySpecs (deviceSpecMap : specMap) (category : jsstring)
  : list spec :=
  default [] (deviceSpecMap !! category).

(** [Set.prototype.add]: a [Set] keeps its members in insertion order. *)
Definition setAdd (members : list jsstring) (x : jsstring) : list jsstring :=
  if decide (x ∈ members) then members else members ++ [x].

Definition allSpecs (device1Specs device2Specs : specMap) : list jsstring :=
  fold_left
    (λ allSpecs category,
       fold_left setAdd (specification <$> categorySpecs device2Specs category)
         (fold_left setAdd (specification <$> categorySpecs device1Specs category)
            allSpecs))
    categories [].

(** The default order of [Array.prototype.sort]: [x] may precede [y] unless
    [y < x], strings being compared code unit by code unit. *)
Definition sortCompareLe (x y : jsstring) : Prop := ¬ lexico y x.

Global Instance sortCompareLe_dec x y : Decision (sortCompareLe x y).
Proof. unfold sortCompareLe. apply _. Defined.

Definition sortedAllSpecs (device1Specs device2Specs : specMap) : list jsstring :=
  merge_sort sortCompareLe (allSpecs device1Specs device2Specs).

Definition isSpecNamed (specName : jsstring) (s : spec) : bool :=
  bool_decide (specification s = specName).

Definition getSpecValue (deviceSpecMap : specMap) (category specName : jsstring)
  : jsstring :=
  let categorySpecs := categorySpecs deviceSpecMap category in
  match List.find (isSpecNamed specName) categorySpecs with
  | Some found => value found
  | None => str "N/A"
  end.

(** One row of the table body: the name and the two device columns. *)
Record tableRow := TableRow {
  specName : jsstring;
  device1Value : jsstring;
  device2Value : jsstring
}.

Global Instance tableRow_eq_dec : EqDecision tableRow.
Proof. solve_decision. Defined.

Definition categorySpecsInUse (device1Specs device2Specs : specMap)
    (category : jsstring) : list jsstring :=
  List.filter
    (λ specName,
       existsb (isSpecNamed specName) (categorySpecs device1Specs category)
       || existsb (isSpecNamed specName) (categorySpecs device2Specs category))
    (sortedAllSpecs device1Specs device2Specs).

(** What [categories.map] returns for one category: [null] or a titled
    block of rows. *)
Definition categoryBlock (device1Specs device2Specs : specMap)
    (category : jsstring) : option (jsstring * list tableRow) :=
  let inUse := categorySpecsInUse device1Specs device2Specs category in
  if decide (length inUse = 0) then None
  else Some (category,
             (λ specName,
                TableRow specName
                  (getSpecValue device1Specs category specName)
                  (getSpecValue device2Specs category specName)) <$> inUse).

(** The table body: the blocks that are rendered, in order. *)
Definition tableBody (device1Specs device2Specs : specMap)
  : list (jsstring * list tableRow) :=
  omap (categoryBlock device1Specs device2Specs) categories.

(** A post of the content API.  Search results carry no [content]. *)
Record post := Post {
  id : jsstring;
  title : jsstring;
  slug : jsstring;
  content : option jsstring;
  sourceUrl : option jsstring
}.

Global Instance post_eq_dec : EqDecision post.
Proof. solve_decision. Defined.

(** [arr[index]] on an array whose holes and missing elements read as
    [undefined], here [None]. *)
Definition at_ {A} (arr : list (option A)) (index : nat) : option A :=
  default None (arr !! index).

Inductive rendered :=
| Prompt                       (* "Select devices above to compare ..." *)
| Table (header1 header2 : jsstring) (body : list (jsstring * list tableRow)).

Section Render.
Context `{DOMParser}.

(** [selectedDevices[i] ? extractSpecifications(selectedDevices[i].content || "") : {}] *)
Definition deviceSpecs (selectedDevices : list (option post)) (i : nat)
  : specMap :=
  match at_ selectedDevices i with
  | Some device => extractSpecifications (default [] (content device))
  | None => ∅
  end.

(** [selectedDevices[i]?.title || fallback] *)
Definition headerTitle (selectedDevices : list (option post)) (i : nat)
    (fallback : jsstring) : jsstring :=
  match at_ selectedDevices i with
  | Some device => if decide (title device = []) then fallback else title device
  | None => fallback
  end.

Definition renderComparisonTable (selectedDevices : list (option post))
  : rendered :=
  let device1Specs := deviceSpecs selectedDevices 0 in
  let device2Specs := deviceSpecs selectedDevices 1 in
  let isAnyDeviceSelected :=
    bool_decide (is_Some (at_ selectedDevices 0))
    || bool_decide (is_Some (at_ selectedDevices 1)) in
  if isAnyDeviceSelected then
    Table (headerTitle selectedDevices 0 (str "Device 1"))
          (headerTitle selectedDevices 1 (str "Device 2"))
          (tableBody device1Specs device2Specs)
  else Prompt.
End Render.

(** ** The selection state machine

    The [Compare] component as a transition system.  A state holds the
    component's React state and ref, the navigation parameters, and the
    part of the host the handlers act on: the timer queue, the calls made to
    the content API and the calls whose answer is awaited. *)

Record timer := Timer {
  timerId : nat;
  due : nat;               (* the time at which the callback may run *)
  args : jsstring          (* the callback is [func.apply(context, args)] *)
}.

(** A call of [fetchGraphQL]. *)
Inductive request :=
| SearchPosts (searchQuery : jsstring)       (* SEARCH_POSTS_QUERY *)
| GetPostBySlug (deviceSlug : jsstring).     (* GET_POST_BY_SLUG_QUERY *)

(** A handler suspended at its [await]. *)
Inductive awaited :=
| AwaitSearch (query : jsstring)                       (* searchPosts *)
| AwaitDetails (deviceSlug : jsstring) (index : nat).  (* fetchDeviceDetails *)

Global Instance request_eq_dec : EqDecision request.
Proof. solve_decision. Defined.
Global Instance awaited_eq_dec : EqDecision awaited.
Proof. solve_decision. Defined.

(** The dependencies of the reconciliation effect:
    [[device1SlugParam, device2SlugParam, selectedDevices, fetchDeviceDetails]].
    The array and the callback are compared by identity; [fetchDeviceDetails]
    is renewed exactly when [fetchedDevicesCache] is. *)
Definition deps : Type := option jsstring * option jsstring * nat * nat.

Record state := State {
  fetchedDevicesCache : gmap jsstring post;
  currentSearchResults : list post;
  searchQueries : list jsstring;
  selectedDevices : list (option post);
  fetchingIndividualDetails : list bool;
  debounceTimeoutRefs : gmap jsstring nat;       (* by [func.name] *)
  localSearchParams : gmap jsstring jsstring;
  now : nat;
  nextTimerId : nat;
  timers : list timer;
  network : list request;                        (* calls made, oldest first *)
  inFlight : list awaited;
  selectedDevicesRef : nat;    (* identity of the array in [selectedDevices] *)
  fetchedDevicesCacheRef : nat;(* identity of the object in [fetchedDevicesCache] *)
  effectDeps : option deps     (* dependencies at the last run of the effect *)
}.

Definition setFetchedDevicesCache (v : gmap jsstring post) (st : state) : state :=
  State v (currentSearchResults st) (searchQueries st) (selectedDevices st)
    (fetchingIndividualDetails st) (debounceTimeoutRefs st) (localSearchParams st)
    (now st) (nextTimerId st) (timers st) (network st) (inFlight st)
    (selectedDevicesRef st) (S (fetchedDevicesCacheRef st)) (effectDeps st).

Definition setCurrentSearchResults (v : list post) (st : state) : state :=
  State (fetchedDevicesCache st) v (searchQueries st) (selectedDevices st)
    (fetchingIndividualDetails st) (debounceTimeoutRefs st) (localSearchParams st)
    (now st) (nextTimerId st) (timers st) (network st) (inFlight st)
    (selectedDevicesRef st) (fetchedDevicesCacheRef st) (effectDeps st).

Definition setSearchQueries (v : list jsstring) (st : state) : state :=
  State (fetchedDevicesCache st) (currentSearchResults st) v (selectedDevices st)
    (fetchingIndividualDetails st) (debounceTimeoutRefs st) (localSearchParams st)
    (now st) (nextTimerId st) (timers st) (network st) (inFlight st)
    (selectedDevicesRef st) (fetchedDevicesCacheRef st) (effectDeps st).

(** Every updater passed to [setSelectedDevices] returns a fresh copy
    [[...prev]], so the state holds a new array after each call. *)
Definition setSelectedDevices (v : list (option post)) (st : state) : state :=
  State (fetchedDevicesCache st) (currentSearchResults st) (searchQueries st) v
    (fetchingIndividualDetails st) (debounceTimeoutRefs st) (localSearchParams st)
    (now st) (nextTimerId st) (timers st) (network st) (inFlight st)
    (S (selectedDevicesRef st)) (fetchedDevicesCacheRef st) (effectDeps st).

Definition setFetchingIndividualDetails (v : list bool) (st : state) : state :=
  State (fetchedDevicesCache st) (currentSearchResults st) (searchQueries st)
    (selectedDevices st) v (debounceTimeoutRefs st) (localSearchParams st)
    (now st) (nextTimerId st) (timers st) (network st) (inFlight st)
    (selectedDevicesRef st) (fetchedDevicesCacheRef st) (effectDeps st).

Definition setDebounceTimeoutRefs (v : gmap jsstring nat) (st : state) : state :=
  State (fetchedDevicesCache st) (currentSearchResults st) (searchQueries st)
    (selectedDevices st) (fetchingIndividualDetails st) v (localSearchParams st)
    (now st) (nextTimerId st) (timers st) (network st) (inFlight st)
    (selectedDevicesRef st) (fetchedDevicesCacheRef st) (effectDeps st).

Definition setLocalSearchParams (v : gmap jsstring jsstring) (st : state) : state :=
  State (fetchedDevicesCache st) (currentSearchResults st) (searchQueries st)
    (selectedDevices st) (fetchingIndividualDetails st) (debounceTimeoutRefs st) v
    (now st) (nextTimerId st) (timers st) (network st) (inFlight st)
    (selectedDevicesRef st) (fetchedDevicesCacheRef st) (effectDeps st).

Definition setClock (v : nat) (st : state) : state :=
  State (fetchedDevicesCache st) (currentSearchResults st) (searchQueries st)
    (selectedDevices st) (fetchingIndividualDetails st) (debounceTimeoutRefs st)
    (localSearchParams st) v (nextTimerId st) (timers st) (network st)
    (inFlight st) (selectedDevicesRef st) (fetchedDevicesCacheRef st)
    (effectDeps st).

Definition setTimers (next : nat) (v : list timer) (st : state) : state :=
  State (fetchedDevicesCache st) (currentSearchResults st) (searchQueries st)
    (selectedDevices st) (fetchingIndividualDetails st) (debounceTimeoutRefs st)
    (localSearchParams st) (now st) next v (network st) (inFlight st)
    (selectedDevicesRef st) (fetchedDevicesCacheRef st) (effectDeps st).

Definition setNetwork (calls : list request) (waiting : list awaited)
    (st : state) : state :=
  State (fetchedDevicesCache st) (currentSearchResults st) (searchQueries st)
    (selectedDevices st) (fetchingIndividualDetails st) (debounceTimeoutRefs st)
    (localSearchParams st) (now st) (nextTimerId st) (timers st) calls waiting
    (selectedDevicesRef st) (fetchedDevicesCacheRef st) (effectDeps st).

Definition setEffectDeps (v : option deps) (st : state) : state :=
  State (fetchedDevicesCache st) (currentSearchResults st) (searchQueries st)
    (selectedDevices st) (fetchingIndividualDetails st) (debounceTimeoutRefs st)
    (localSearchParams st) (now st) (nextTimerId st) (timers st) (network st)
    (inFlight st) (selectedDevicesRef st) (fetchedDevicesCacheRef st) v.

(** [copy = [...prev]; copy[index] = x]: a write past the end extends the
    array, the elements in between being holes. *)
Definition arraySet {A} (hole : A) (prev : list A) (index : nat) (x : A) : list A :=
  if decide (index < length prev) then <[index := x]> prev
  else prev ++ replicate (index - length prev) hole ++ [x].

(** *** The content client *)

(** What the HTTP exchange of [fetchGraphQL] comes to. *)
Inductive response (A : Type) :=
| Data (data : A)                        (* a 2xx answer without [errors] *)
| HttpError (status : nat)               (* [!response.ok] *)
| GraphQLErrors (message : jsstring)     (* [jsonResponse.errors] *)
| NetworkFailure.                        (* [fetch] rejects *)
Arguments Data {A} data.
Arguments HttpError {A} status.
Arguments GraphQLErrors {A} message.
Arguments NetworkFailure {A}.

(** [fetchGraphQL] returns [jsonResponse.data]; every error is thrown
    inside its [try], logged and turned into [null]. *)
Definition fetchGraphQL {A} (r : response A) : option A :=
  match r with
  | Data data => Some data
  | _ => None
  end.

(** The start of a call: the request leaves and the caller waits. *)
Definition call (req : request) (k : awaited) (st : state) : state :=
  setNetwork (network st ++ [req]) (inFlight st ++ [k]) st.

(** [searchPosts] up to its [await]. *)
Definition searchPosts (query : jsstring) (st : state) : state :=
  if decide (trim query = []) then setCurrentSearchResults [] st
  else call (SearchPosts query) (AwaitSearch query) st.

(** [searchPosts] after its [await]; [data.posts.nodes] is [None] when the
    data lack it. *)
Definition searchPostsResume (r : response (option (list post))) (st : state)
  : state :=
  match fetchGraphQL r with
  | Some (Some nodes) => setCurrentSearchResults nodes st
  | _ => setCurrentSearchResults [] st
  end.

(** [fetchDeviceDetails] up to its [await].  The cache is the one of the
    render that made the callback, which is the current one when a handler
    or the effect runs.  It is read by own property, which is what the test
    [fetchedDevicesCache[deviceSlug]] comes to for every slug but the names
    an object inherits from [Object.prototype] ([constructor], [toString],
    ...): for those the test of the source is true with nothing cached, and
    the properties that rest on a device not being cached leave them out. *)
Definition fetchDeviceDetails (deviceSlug : jsstring) (index : nat) (st : state)
  : state :=
  match fetchedDevicesCache st !! deviceSlug with
  | Some cached =>
      setSelectedDevices (arraySet None (selectedDevices st) index (Some cached)) st
  | None =>
      call (GetPostBySlug deviceSlug) (AwaitDetails deviceSlug index)
        (setFetchingIndividualDetails
           (arraySet false (fetchingIndividualDetails st) index true) st)
  end.

(** [fetchDeviceDetails] after its [await]: the [if (post)] branches, then
    the [finally] block.  [data?.post] is [None] for a slug without post. *)
Definition fetchDeviceDetailsResume (deviceSlug : jsstring) (index : nat)
    (r : response (option post)) (st : state) : state :=
  let st :=
    match fetchGraphQL r with
    | Some (Some post) =>
        let st := setFetchedDevicesCache
                    (<[deviceSlug := post]> (fetchedDevicesCache st)) st in
        setSelectedDevices (arraySet None (selectedDevices st) index (Some post)) st
    | _ =>
        setSelectedDevices (arraySet None (selectedDevices st) index None) st
    end in
  setFetchingIndividualDetails
    (arraySet false (fetchingIndividualDetails st) index false) st.

(** *** Timers and the debounced search *)

Definition clearTimeout (timeoutId : option nat) (st : state) : state :=
  match timeoutId with
  | Some i =>
      setTimers (nextTimerId st)
        (List.filter (λ t, negb (timerId t =? i)) (timers st)) st
  | None => st
  end.

Definition setTimeout (args : jsstring) (delay : nat) (st : state) : nat * state :=
  (nextTimerId st,
   setTimers (S (nextTimerId st))
     (timers st ++ [Timer (nextTimerId st) (now st + delay) args]) st).

(** The function returned by [customDebounce(func, delay)], for a [func]
    named [name]. *)
Definition debouncedFunc (name : jsstring) (delay : nat) (args : jsstring)
    (st : state) : state :=
  let st := clearTimeout (debounceTimeoutRefs st !! name) st in
  let '(timeoutId, st) := setTimeout args delay st in
  setDebounceTimeoutRefs (<[name := timeoutId]> (debounceTimeoutRefs st)) st.

Definition delay : nat := 500.

(** [customDebounce((query) => searchPosts(query), 500)]: the arrow function
    is anonymous, its [name] is the empty string. *)
Definition debouncedSearchHandler (query : jsstring) (st : state) : state :=
  debouncedFunc [] delay query st.

Definition handleSearchInputChange (text : jsstring) (index : nat) (st : state)
  : state :=
  let st := setSearchQueries (arraySet [] (searchQueries st) index text) st in
  if decide (trim text ≠ []) then debouncedSearchHandler text st
  else setCurrentSearchResults [] st.

(** The clock advances by [ms]; the timers that are due leave the queue and
    their callbacks, [searchPosts(args)], run in queue order. *)
Definition elapse (ms : nat) (st : state) : state :=
  let st := setClock (now st + ms) st in
  let fired := List.filter (λ t, due t <=? now st) (timers st) in
  let st := setTimers (nextTimerId st)
              (List.filter (λ t, negb (due t <=? now st)) (timers st)) st in
  fold_left (λ st t, searchPosts (args t) st) fired st.

(** *** Selection, removal and the navigation parameters *)

(** [`device${index + 1}`] *)
Definition paramKey (index : nat) : jsstring :=
  str ("device" +:+ pretty (index + 1)).

(** A parameter that is present and not the empty string. *)
Definition truthy (v : option jsstring) : option jsstring :=
  match v with
  | Some (c :: s) => Some (c :: s)
  | _ => None
  end.

(** [router.setParams(newQuery)]: the given parameters are merged into the
    location, a parameter given as [undefined] (here [None]) is removed. *)
Definition setParams (newQuery : gmap jsstring (option jsstring)) (st : state)
  : state :=
  setLocalSearchParams
    (omap (λ v, v) (newQuery ∪ (Some <$> localSearchParams st))) st.

(** [if (newQuery.device3) delete newQuery.device3] *)
Definition dropDevice3 (newQuery : gmap jsstring (option jsstring))
  : gmap jsstring (option jsstring) :=
  match newQuery !! str "device3" with
  | Some (Some (_ :: _)) => delete (str "device3") newQuery
  | _ => newQuery
  end.

Definition handleSelectDevice (device : post) (index : nat) (st : state) : state :=
  let st := fetchDeviceDetails (slug device) index st in
  let st := setSearchQueries (arraySet [] (searchQueries st) index []) st in
  let st := setCurrentSearchResults [] st in
  let newQuery := (Some <$> localSearchParams st) in
  let newQuery := <[paramKey index := Some (slug device)]> newQuery in
  setParams (dropDevice3 newQuery) st.

Definition handleRemoveDevice (index : nat) (st : state) : state :=
  let st := setSelectedDevices (arraySet None (selectedDevices st) index None) st in
  let newQuery := (Some <$> localSearchParams st) in
  let newQuery := <[paramKey index := None]> newQuery in
  let st := setParams (dropDevice3 newQuery) st in
  let st := setSearchQueries (arraySet [] (searchQueries st) index []) st in
  setCurrentSearchResults [] st.

(** *** Reconciliation with the navigation parameters *)

(** The callback of [slugs.forEach]; [snapshot] is the [selectedDevices] of
    the render that created the effect. *)
Definition reconcileSlot (snapshot : list (option post)) (st : state)
    (idx : nat) (slugParam : option jsstring) : state :=
  match truthy slugParam with
  | Some wanted =>
      match at_ snapshot idx with
      | Some device =>
          if decide (slug device ≠ wanted) then fetchDeviceDetails wanted idx st
          else st
      | None => fetchDeviceDetails wanted idx st
      end
  | None =>
      match at_ snapshot idx with
      | Some _ =>
          setSelectedDevices (arraySet None (selectedDevices st) idx None) st
      | None => st
      end
  end.

Definition device1SlugParam (st : state) : option jsstring :=
  localSearchParams st !! str "device1".
Definition device2SlugParam (st : state) : option jsstring :=
  localSearchParams st !! str "device2".

(** The body of the effect. *)
Definition reconcile (st : state) : state :=
  let slugs := [device1SlugParam st; device2SlugParam st] in
  let snapshot := selectedDevices st in
  fold_left (λ st '(idx, slugParam), reconcileSlot snapshot st idx slugParam)
    (imap pair slugs) st.

Definition currentDeps (st : state) : deps :=
  (device1SlugParam st, device2SlugParam st,
   selectedDevicesRef st, fetchedDevicesCacheRef st).

(** React runs an effect after the first render and after every render in
    which one of its dependencies has changed. *)
Definition effectDue (st : state) : bool :=
  bool_decide (effectDeps st ≠ Some (currentDeps st)).

Definition runEffect (st : state) : state :=
  if effectDue st then reconcile (setEffectDeps (Some (currentDeps st)) st)
  else st.

(** *** Events *)

Inductive event :=
| ChangeText (text : jsstring) (index : nat)     (* [onChangeText] of a slot *)
| SelectDevice (device : post) (index : nat)     (* a search result is pressed *)
| RemoveDevice (index : nat)                     (* [onRemove] of a card *)
| Navigate (params : gmap jsstring jsstring)     (* the location changes from outside *)
| Elapse (ms : nat)                              (* time passes *)
| SearchResponse (query : jsstring) (r : response (option (list post)))
| DetailsResponse (deviceSlug : jsstring) (index : nat) (r : response (option post))
| Render.                                        (* React commits and runs the effect *)

Fixpoint removeFirst (k : awaited) (l : list awaited) : option (list awaited) :=
  match l with
  | [] => None
  | x :: l' =>
      if decide (x = k) then Some l'
      else cons x <$> removeFirst k l'
  end.

(** An answer resumes the handler that awaits it, if there is one. *)
Definition resume (k : awaited) (continue : state → state) (st : state) : state :=
  match removeFirst k (inFlight st) with
  | Some waiting => continue (setNetwork (network st) waiting st)
  | None => st
  end.

Definition step (st : state) (e : event) : state :=
  match e with
  | ChangeText text index => handleSearchInputChange text index st
  | SelectDevice device index => handleSelectDevice device index st
  | RemoveDevice index => handleRemoveDevice index st
  | Navigate params => setLocalSearchParams params st
  | Elapse ms => elapse ms st
  | SearchResponse query r => resume (AwaitSearch query) (searchPostsResume r) st
  | DetailsResponse deviceSlug index r =>
      resume (AwaitDetails deviceSlug index)
        (fetchDeviceDetailsResume deviceSlug index r) st
  | Render => runEffect st
  end.

Definition runEvents (events : list event) (st : state) : state :=
  fold_left step events st.

(** The component as it mounts: [useState] and [useRef] initial values, the
    given navigation parameters, an idle host. *)
Definition mount (params : gmap jsstring jsstring) : state :=
  State ∅ [] [[]; []] [None; None] [false; false] ∅ params 0 0 [] [] [] 0 0 None.

(** * Vocabulary of the properties *)

(** The table body with its two device columns exchanged. *)
Definition swapColumns (r : tableRow) : tableRow :=
  TableRow (specName r) (device2Value r) (device1Value r).

Definition swapBlock (block : jsstring * list tableRow)
  : jsstring * list tableRow :=
  (block.1, swapColumns <$> block.2).

(** The names of the entries a device has in a category. *)
Definition specNames (deviceSpecMap : specMap) (category : jsstring)
  : list jsstring :=
  specification <$> categorySpecs deviceSpecMap category.

(** The successive results of [regex.exec(content)] in the loop of
    [extractSpecifications], up to the [null] that ends it. *)
Equations? execAll (s : jsstring) : list execResult by wf (length s) lt :=
  execAll s with inspect (exec s) => {
    | exist _ (Some matches) _ => matches :: execAll (afterMatch matches)
    | exist _ None _ => [] }.
Proof. by apply exec_advances. Qed.

(** What the extractor reads from a parsed table: for each [tr], in
    document order, the text of each of its [td] descendants. *)
Definition tableCells (doc : node) : list (list jsstring) :=
  (λ row, textContent <$> getElementsByTagName (str "td") row)
    <$> getElementsByTagName (str "tr") doc.

(** [s] occurs in [content]. *)
Definition occursIn (s content : jsstring) : Prop :=
  ∃ before after, content = before ++ s ++ after.

(** The entry of a row is a function of the texts of its cells. *)
Definition cellsEntry (texts : list jsstring) : list spec :=
  match texts with
  | [text0; text1] => [Spec (cleanHTMLContent text0) (cleanHTMLContent text1)]
  | _ => []
  end.

(** The words a pattern matches, with the input left at each capture
    parenthesis inside the word. *)
Fixpoint lang (r : regex) (w : jsstring) (marks : list jsstring) : Prop :=
  match r with
  | [] => w = [] ∧ marks = []
  | Lit c :: r' => ∃ w', w = c :: w' ∧ lang r' w' marks
  | Cls p :: r' => ∃ x w', w = x :: w' ∧ p x = true ∧ lang r' w' marks
  | Star p :: r' | StarLazy p :: r' =>
      ∃ xs w', w = xs ++ w' ∧ Forall (λ x, p x = true) xs ∧ lang r' w' marks
  | Mark :: r' => ∃ marks', marks = w :: marks' ∧ lang r' w marks'
  end.

(** A heading of level 2 to 4 followed, white space apart, by a [figure]
    that holds a [table]; [heading] and [table] are what lies inside the
    heading and the table. *)
Definition figureTableBlock (matched heading table : jsstring) : Prop :=
  ∃ (d d' : char) (hattrs ws1 fattrs ws2 tattrs ws3 : jsstring),
    matched
    = str "<h" ++ [d] ++ hattrs ++ str ">" ++ heading
      ++ str "</h" ++ [d'] ++ str ">" ++ ws1
      ++ str "<figure" ++ fattrs ++ str ">" ++ ws2
      ++ str "<table" ++ tattrs ++ str ">" ++ table
      ++ str "</table>" ++ ws3 ++ str "</figure>"
    ∧ digit24 d = true ∧ digit24 d' = true
    ∧ Forall (λ c, notGt c = true) hattrs
    ∧ Forall (λ c, isSpace c = true) ws1
    ∧ Forall (λ c, notGt c = true) fattrs
    ∧ Forall (λ c, isSpace c = true) ws2
    ∧ Forall (λ c, notGt c = true) tattrs
    ∧ Forall (λ c, isSpace c = true) ws3
    ∧ table ≠ [].

(** [String.prototype.startsWith] and [String.prototype.includes]. *)
Fixpoint startsWith (s prefix : jsstring) {struct prefix} : bool :=
  match prefix, s with
  | [], _ => true
  | p :: prefix', c :: s' => (c =? p)%N && startsWith s' prefix'
  | _ :: _, [] => false
  end.

Fixpoint includes (s sub : jsstring) : bool :=
  startsWith s sub ||
  match s with
  | [] => false
  | _ :: s' => includes s' sub
  end.

(** A slot agrees with its navigation parameter: the parameter names the
    slug of the selected device, or there is neither. *)
Definition consistentSlot (st : state) (idx : nat) (slugParam : option jsstring)
  : Prop :=
  match truthy slugParam with
  | Some wanted =>
      ∃ device, at_ (selectedDevices st) idx = Some device ∧ slug device = wanted
  | None => at_ (selectedDevices st) idx = None
  end.

Definition consistent (st : state) : Prop :=
  consistentSlot st 0 (device1SlugParam st)
  ∧ consistentSlot st 1 (device2SlugParam st).

(** Two devices, and the state in which the slots hold them after a link
    with [{device1: "phone-a", device2: "phone-b"}] was opened. *)
Definition phoneA : post :=
  Post (str "1") (str "Phone A") (str "phone-a") (Some []) None.

Definition phoneB : post :=
  Post (str "2") (str "Phone B") (str "phone-b") (Some []) None.

Definition comparingAB : state :=
  runEvents
    [Render;
     DetailsResponse (str "phone-a") 0 (Data (Some phoneA)); Render;
     DetailsResponse (str "phone-b") 1 (Data (Some phoneB)); Render;
     DetailsResponse (str "phone-b") 1 (Data (Some phoneB)); Render]
    (mount {[ str "device1" := str "phone-a"; str "device2" := str "phone-b" ]}).

(** The ways a detail fetch fails: no post for the slug, an HTTP status
    that is not 2xx, an error payload, a transport failure. *)
Definition failures : list (response (option post)) :=
  [Data None; HttpError 500; GraphQLErrors (str "Internal server error");
   NetworkFailure].

(** At most one timer is pending, and it is the one the ref points to. *)
Definition atMostOnePending (st : state) : Prop :=
  timers st = []
  ∨ ∃ t, timers st = [t] ∧ debounceTimeoutRefs st !! [] = Some (timerId t).

(** The queries of the search calls among the calls made. *)
Definition searchCalls (calls : list request) : list jsstring :=
  omap (λ req, match req with
               | SearchPosts searchQuery => Some searchQuery
               | GetPostBySlug _ => None
               end) calls.

(** The events that are no keystroke and take no time: renders, answers of
    the content API, selections, removals, navigation. *)
Definition background (e : event) : Prop :=
  match e with
  | ChangeText _ _ | Elapse _ => False
  | _ => True
  end.

(** A rapid burst, seen from a moment at which [elapsed] milliseconds have
    passed since the last keystroke: every text typed is not blank, and the
    time that passes between one keystroke and the next event, whatever
    happens in between, stays below the delay. *)
Fixpoint rapidBurst (elapsed : nat) (events : list event) : Prop :=
  match events with
  | [] => True
  | ChangeText text _ :: events' => trim text ≠ [] ∧ rapidBurst 0 events'
  | Elapse ms :: events' =>
      elapsed + ms < delay ∧ rapidBurst (elapsed + ms) events'
  | _ :: events' => rapidBurst elapsed events'
  end.

(** The text of the last keystroke, [text] being the one before [events]. *)
Fixpoint lastText (text : jsstring) (events : list event) : jsstring :=
  match events with
  | [] => text
  | ChangeText text' _ :: events' => lastText text' events'
  | _ :: events' => lastText text events'
  end.

(** The time that has passed since the last keystroke. *)
Fixpoint sinceLastKey (elapsed : nat) (events : list event) : nat :=
  match events with
  | [] => elapsed
  | ChangeText _ _ :: events' => sinceLastKey 0 events'
  | Elapse ms :: events' => sinceLastKey (elapsed + ms) events'
  | _ :: events' => sinceLastKey elapsed events'
  end.

Definition notSearch (k : awaited) : Prop :=
  match k with
  | AwaitSearch _ => False
  | AwaitDetails _ _ => True
  end.

(** [st'] has the timers and the ref of [st], search results that are those
    of [st] or none, and awaits a search only if [st] does. *)
Definition sameSearchSide (st st' : state) : Prop :=
  timers st' = timers st
  ∧ debounceTimeoutRefs st' = debounceTimeoutRefs st
  ∧ (currentSearchResults st' = currentSearchResults st
     ∨ currentSearchResults st' = [])
  ∧ (Forall notSearch (inFlight st) → Forall notSearch (inFlight st')).

(** The events that are no typing of a text that is not blank. *)
Definition quietEvent (e : event) : Prop :=
  match e with
  | ChangeText text _ => trim text = []
  | _ => True
  end.

(** Nothing is under way on the search side: no result is shown, no timer
    is pending, no search is awaited. *)
Definition searchIdle (st : state) : Prop :=
  currentSearchResults st = [] ∧ timers st = []
  ∧ Forall notSearch (inFlight st).

(** The states the component reaches from its mounting. *)
Definition reachable (st : state) : Prop :=
  ∃ params events, st = runEvents events (mount params).

(** ** Example data *)

(** A search result. *)
Definition iphone : post :=
  Post (str "7") (str "iPhone 15") (str "iphone-15") None None.

Definition displayBody : jsstring :=
  str "<h3>Display</h3><figure><table><tr><td>Size</td><td>6.1 in</td></tr></table></figure>".

(** A table whose only row has one cell. *)
Definition oneCellBody : jsstring :=
  str "<h3>Display</h3><figure><table><tr><td>Size</td></tr></table></figure>".

Definition oneCellRow : node :=
  Element (str "tr") [Element (str "td") [TextNode (str "Size")]].

Definition blankDevice : post :=
  Post (str "1") (str "Phone A") (str "phone-a") (Some []) None.

Definition displayDevice : post :=
  Post (str "2") (str "Phone B") (str "phone-b") (Some displayBody) None.

(** The table of [Display] twice: the second one has a single cell. *)
Definition repeatedBody : jsstring :=
  str "<h3>Display</h3><figure><table><tr><td>Size</td><td>6.1 in</td></tr></table></figure><h3>Display</h3><figure><table><tr><td>Size</td></tr></table></figure>".

(** A heading with a bare table, then a heading with a table in a
    [figure]. *)
Definition mixedBody : jsstring :=
  str "<h3>Display</h3><table><tr><td>Size</td><td>6.1 in</td></tr></table><h3>Camera</h3><figure><table><tr><td>Main</td><td>48 MP</td></tr></table></figure>".

(** Two specification maps: the first has a category outside the fixed
    list, the second lacks an entry of [Display] and has [Battery]. *)
Definition specsA : specMap :=
  {[ str "Display" := [Spec (str "Size") (str "6.1 in");
                       Spec (str "Resolution") (str "1170 x 2532")];
     str "Extras" := [Spec (str "Stylus") (str "Yes")] ]}.

Definition specsB : specMap :=
  {[ str "Display" := [Spec (str "Size") (str "6.7 in")];
     str "Battery" := [Spec (str "Capacity") (str "4000 mAh")] ]}.

Definition displayRowsAB : list tableRow :=
  [TableRow (str "Resolution") (str "1170 x 2532") (str "N/A");
   TableRow (str "Size") (str "6.1 in") (str "6.7 in")].

(** ** Vocabulary of the further properties *)

(** The slot an event acts on, for the events of one slot. *)
Definition eventSlot (e : event) : option nat :=
  match e with
  | ChangeText _ index | SelectDevice _ index | RemoveDevice index
  | DetailsResponse _ index _ => Some index
  | Navigate _ | Elapse _ | SearchResponse _ _ | Render => None
  end.

(** What a slot holds: [selectedDevices[j]], [searchQueries[j]] and
    [fetchingIndividualDetails[j]], a hole or a missing element reading as
    [null], the empty string and [false]. *)
Definition slotState (st : state) (j : nat) : option post * jsstring * bool :=
  (at_ (selectedDevices st) j,
   default [] (searchQueries st !! j),
   default false (fetchingIndividualDetails st !! j)).

(** The events the two inputs and cards of the screen produce: their slot
    is 0 or 1. *)
Definition onSlots (e : event) : Prop :=
  match eventSlot e with
  | Some index => index < 2
  | None => True
  end.

Definition reachableOnSlots (st : state) : Prop :=
  ∃ params events,
    Forall onSlots events ∧ st = runEvents events (mount params).

(** A call the guards of the handlers let through: a search carries a query
    that is not blank. *)
Definition guardedRequest (req : request) : Prop :=
  match req with
  | SearchPosts searchQuery => trim searchQuery ≠ []
  | GetPostBySlug _ => True
  end.

(** The slot a suspended [fetchDeviceDetails] works for. *)
Definition awaitedSlot (k : awaited) : option nat :=
  match k with
  | AwaitDetails _ index => Some index
  | AwaitSearch _ => None
  end.

(** [st'] differs from [st] by searches that were started: the queries
    [qs], none blank, were sent and are awaited; the result list may have
    been emptied, the clock and the timers may have moved. *)
Definition searchesStarted (qs : list jsstring) (st st' : state) : Prop :=
  fetchedDevicesCache st' = fetchedDevicesCache st
  ∧ searchQueries st' = searchQueries st
  ∧ selectedDevices st' = selectedDevices st
  ∧ fetchingIndividualDetails st' = fetchingIndividualDetails st
  ∧ localSearchParams st' = localSearchParams st
  ∧ network st' = network st ++ (SearchPosts <$> qs)
  ∧ inFlight st' = inFlight st ++ (AwaitSearch <$> qs)
  ∧ Forall (λ q, trim q ≠ []) qs.

(** The three arrays have their two elements, and the detail fetches
    awaited are those of slot 0 or 1. *)
Definition twoSlots (st : state) : Prop :=
  length (selectedDevices st) = 2
  ∧ length (searchQueries st) = 2
  ∧ length (fetchingIndividualDetails st) = 2
  ∧ Forall (λ k, ∀ index, awaitedSlot k = Some index → index < 2) (inFlight st).

(** A slot whose loading flag is set has a detail fetch under way. *)
Definition loadingHasFetch (st : state) : Prop :=
  ∀ index, fetchingIndividualDetails st !! index = Some true →
           ∃ deviceSlug, AwaitDetails deviceSlug index ∈ inFlight st.

(** The names every object inherits from [Object.prototype].  The test
    [fetchedDevicesCache[deviceSlug]] of the source is true for them with
    no post cached; the model reads the cache by own property, so a
    property that relies on a device not being cached leaves them out. *)
Definition inheritedNames : list jsstring :=
  str <$> ["constructor"; "hasOwnProperty"; "isPrototypeOf";
           "propertyIsEnumerable"; "toLocaleString"; "toString"; "valueOf";
           "__proto__"; "__defineGetter__"; "__defineSetter__";
           "__lookupGetter__"; "__lookupSetter__"]%string.

(** The input after the first [>], if there is one. *)
Fixpoint afterGt (s : jsstring) : option jsstring :=
  match s with
  | [] => None
  | x :: s' => if notGt x then afterGt s' else Some s'
  end.

(** Every white-space character is a plain space, and the character after
    it, if there is one, is no white space. *)
Fixpoint spaced (s : jsstring) : Prop :=
  match s with
  | [] => True
  | c :: s' =>
      (isSpace c = true →
       c = chr " " ∧ ∀ c' s'', s' = c' :: s'' → isSpace c' = false)
      ∧ spaced s'
  end.

(** After each [<] comes a [>] at once, or no [>] at all. *)
Fixpoint tagFree (s : jsstring) : Prop :=
  match s with
  | [] => True
  | c :: s' =>
      (c = chr "<" →
       (∃ s'', s' = chr ">" :: s'') ∨ Forall (λ x, notGt x = true) s')
      ∧ tagFree s'
  end.

(** No white space at either end. *)
Definition trimmed (s : jsstring) : Prop :=
  (∀ c s', s = c :: s' → isSpace c = false)
  ∧ (∀ s' c, s = s' ++ [c] → isSpace c = false).

(** The form of a text that [cleanHTMLContent] returns. *)
Definition cleaned (s : jsstring) : Prop :=
  tagFree s ∧ spaced s ∧ trimmed s.

(** What a cell of the table shows for a device, in a category, in the row
    of a name: the value of the first entry of that name, or [N/A] when the
    device has no entry of that name in the category. *)
Definition cellValue (deviceSpecMap : specMap) (category name v : jsstring)
  : Prop :=
  (∃ before entry after,
     categorySpecs deviceSpecMap category = before ++ entry :: after
     ∧ specification entry = name ∧ value entry = v
     ∧ Forall (λ earlier, specification earlier ≠ name) before)
  ∨ ((name ∉ specNames deviceSpecMap category) ∧ v = str "N/A").

(** Slot [idx] cannot come to rest: its parameter names [wanted], the cache
    answers [wanted] with a post of another slug, the slot holds a device of
    another slug, and the effect is due. *)
Definition unsettled (st : state) (idx : nat) (wanted : jsstring) : Prop :=
  truthy (localSearchParams st !! paramKey idx) = Some wanted
  ∧ (∃ cached,
       fetchedDevicesCache st !! wanted = Some cached ∧ slug cached ≠ wanted)
  ∧ (∃ device,
       at_ (selectedDevices st) idx = Some device ∧ slug device ≠ wanted)
  ∧ effectDue st = true.

(** ** What a slot of the screen shows

    The element that [[0, 1].map((index) => ...)] builds under the text
    input of a slot, and [renderSearchResults].  [toLowerCase] is
    [String.prototype.toLowerCase], which follows the Unicode case tables:
    it is taken as given.  A title is a string, as the content API sends
    it. *)

Inductive searchResultsView :=
| Spinner                                   (* [ActivityIndicator] *)
| ResultList (filteredResults : list post)  (* one pressable item each *)
| NoResults.                                (* "No results found." *)

Inductive slotView :=
| LoadingCard                         (* "Loading..." *)
| Card (device : post)                (* [CompareCard] *)
| SearchResults (view : searchResultsView)
| NoView.                             (* [null] *)

Section View.
Variable toLowerCase : jsstring → jsstring.

Definition renderSearchResults (query : jsstring) (index : nat) (st : state)
  : option searchResultsView :=
  if decide (query = []) then None
  else
    match at_ (selectedDevices st) index with
    | Some _ => None
    | None =>
        let filteredResults :=
          List.filter
            (λ device,
               includes (toLowerCase (title device)) (toLowerCase query))
            (currentSearchResults st) in
        Some (if default false (fetchingIndividualDetails st !! index)
              then Spinner
              else if decide (0 < length filteredResults)
                   then ResultList filteredResults
                   else NoResults)
    end.

Definition renderSlot (index : nat) (st : state) : slotView :=
  if default false (fetchingIndividualDetails st !! index) then LoadingCard
  else
    match at_ (selectedDevices st) index with
    | Some device => Card device
    | None =>
        let query := default [] (searchQueries st !! index) in
        if decide (query = []) then NoView
        else
          match renderSearchResults query index st with
          | Some view => SearchResults view
          | None => NoView
          end
    end.
End View.

(** Lower case for the letters A to Z, which is how [toLowerCase] acts on
    a text of ASCII characters. *)
Definition asciiLower (s : jsstring) : jsstring :=
  (λ c, if ((65 <=? c) && (c <=? 90))%N then (c + 32)%N else c) <$> s.

(** Slot 1 after "ip" was typed in it and the search was answered with
    one device. *)
Definition offeringIphone : state :=
  runEvents
    [ChangeText (str "ip") 1; Elapse 500;
     SearchResponse (str "ip") (Data (Some [iphone]))]
    (mount ∅).

(** The events of a slot that empty the shared result list at once. *)
Definition clearsResults (e : event) : Prop :=
  match e with
  | SelectDevice _ _ | RemoveDevice _ => True
  | ChangeText text _ => trim text = []
  | _ => False
  end.

(** ** Rows and their cells *)

(** The cells of a row: its [td] and [th] children. *)
Definition cellsOf (row : node) : list node :=
  match row with
  | Element _ childNodes =>
      List.filter
        (λ c, isElementNamed (str "td") c || isElementNamed (str "th") c)
        childNodes
  | TextNode _ => []
  end.

(** A row of plain cells: every child is a text node or a [td] that holds
    no further [td]. *)
Definition plainRow (row : node) : Prop :=
  match row with
  | Element _ childNodes =>
      Forall (λ c, match c with
                   | TextNode _ => True
                   | Element _ _ =>
                       isElementNamed (str "td") c = true
                       ∧ getElementsByTagName (str "td") c = []
                   end) childNodes
  | TextNode _ => True
  end.

(** A row of three cells, the first a [th]; a row of two cells, the first
    holding a table. *)
Definition headedRow : node :=
  Element (str "tr")
    [Element (str "th") [TextNode (str "Display")];
     Element (str "td") [TextNode (str "Size")];
     Element (str "td") [TextNode (str "6.1 in")]].

Definition nestedRow : node :=
  Element (str "tr")
    [Element (str "td")
       [TextNode (str "Size");
        Element (str "table")
          [Element (str "tr")
             [Element (str "td") [TextNode (str "Diagonal")];
              Element (str "td") [TextNode (str "6.1 in")]]]];
     Element (str "td") [TextNode (str "6.1 in")]].

(** The body of the scenario with markup and surplus white space in the
    heading and in the cells, and the table as the extractor hands it to
    the parser. *)
Definition markedBody : jsstring :=
  str "<h3 class=t> <strong>Display</strong>  </h3>" ++ [10%N]
  ++ str "<figure class=wp-block-table><table class=specs><tbody><tr><td><strong>Size</strong></td><td> 6.1"
  ++ [9%N; 10%N] ++ str "in </td></tr></tbody></table></figure>".

Definition markedTable : jsstring :=
  str "<table><tbody><tr><td><strong>Size</strong></td><td> 6.1"
  ++ [9%N; 10%N] ++ str "in </td></tr></tbody></table>".

(** A table in a [figure] with a caption, a heading with a bare table, and
    a heading with a table in a [figure]. *)
Definition captionedBody : jsstring :=
  str "<h3>Display</h3><figure><table><tr><td>Size</td><td>6.1 in</td></tr></table><figcaption>Screen</figcaption></figure><h3>Camera</h3><table><tr><td>Main</td><td>48 MP</td></tr></table><h3>Battery</h3><figure><table><tr><td>Capacity</td><td>4000 mAh</td></tr></table></figure>".

(** * Properties of the comparison table *)

Section SortOrder.
Implicit Types x y z : jsstring.

Lemma lexico_asym x y : lexico x y → ¬ lexico y x.
Proof.
  intros Hxy Hyx. apply (irreflexivity lexico x). by trans y.
Qed.

Global Instance sortCompareLe_total : Total sortCompareLe.
Proof.
  intros x y. unfold sortCompareLe.
  destruct (trichotomyT lexico x y) as [[Hlt | ->] | Hgt].
  - left. by apply lexico_asym.
  - left. apply (irreflexivity lexico).
  - right. by apply lexico_asym.
Qed.

Global Instance sortCompareLe_trans : Transitive sortCompareLe.
Proof.
  intros x y z Hxy Hyz Hzx. unfold sortCompareLe in *.
  destruct (trichotomyT lexico x y) as [[Hlt | ->] | Hgt]; [|done..].
  apply Hyz. by trans x.
Qed.

Global Instance sortCompareLe_antisym : AntiSymm (=) sortCompareLe.
Proof.
  intros x y Hxy Hyx. unfold sortCompareLe in *.
  by destruct (trichotomyT lexico x y) as [[Hlt | ->] | Hgt].
Qed.

(** A sorted array without duplicates is strictly increasing. *)
Lemma sorted_NoDup_strict (l : list jsstring) :
  StronglySorted sortCompareLe l → NoDup l → StronglySorted lexico l.
Proof.
  induction 1 as [|x l Hl IH Hx]; intros Hnd; [constructor|].
  apply NoDup_cons in Hnd as [Hnotin Hnd].
  constructor; [by apply IH|].
  rewrite Forall_forall in Hx |- *. intros y Hy.
  specialize (Hx y Hy). unfold sortCompareLe in Hx.
  destruct (trichotomyT lexico x y) as [[Hlt | ->] | Hgt]; done.
Qed.
End SortOrder.

Lemma StronglySorted_List_filter {A} (R : relation A) (f : A → bool) l :
  StronglySorted R l → StronglySorted R (List.filter f l).
Proof.
  induction 1 as [|x l Hl IH Hx]; simpl; [constructor|].
  destruct (f x); [|done]. constructor; [done|].
  rewrite Forall_forall in Hx |- *. intros y Hy.
  apply list_elem_of_In, filter_In in Hy as [Hy _]. by apply Hx, list_elem_of_In.
Qed.

Lemma elem_of_List_filter {A} (f : A → bool) l x :
  x ∈ List.filter f l ↔ x ∈ l ∧ f x = true.
Proof. by rewrite !list_elem_of_In, filter_In. Qed.

Lemma existsb_isSpecNamed name specs :
  existsb (isSpecNamed name) specs = true ↔ name ∈ specification <$> specs.
Proof.
  rewrite existsb_exists, list_elem_of_fmap. unfold isSpecNamed. split.
  - intros (s & Hin & Heq). apply bool_decide_eq_true in Heq.
    exists s. by rewrite list_elem_of_In.
  - intros (s & -> & Hin). exists s.
    by rewrite bool_decide_eq_true, <-list_elem_of_In.
Qed.

(** The [Set]: no member twice, and exactly the members added. *)
Lemma setAdd_NoDup members x : NoDup members → NoDup (setAdd members x).
Proof.
  intros Hnd. unfold setAdd. case_decide; [done|].
  apply NoDup_app. split_and!; [done| |apply NoDup_singleton].
  intros y Hy ->%list_elem_of_singleton. done.
Qed.

Lemma elem_of_setAdd members x y : y ∈ setAdd members x ↔ y ∈ members ∨ y = x.
Proof.
  unfold setAdd. case_decide.
  - split; [by left|]. by intros [?| ->].
  - by rewrite elem_of_app, list_elem_of_singleton.
Qed.

Lemma fold_setAdd_NoDup xs members :
  NoDup members → NoDup (fold_left setAdd xs members).
Proof.
  revert members. induction xs as [|x xs IH]; intros members Hnd; simpl; [done|].
  by apply IH, setAdd_NoDup.
Qed.

Lemma elem_of_fold_setAdd xs members y :
  y ∈ fold_left setAdd xs members ↔ y ∈ members ∨ y ∈ xs.
Proof.
  revert members. induction xs as [|x xs IH]; intros members; simpl.
  - rewrite elem_of_nil. naive_solver.
  - rewrite IH, elem_of_setAdd, elem_of_cons. naive_solver.
Qed.

Section AllSpecs.
Context (device1Specs device2Specs : specMap).

(** The loop over the categories, from any list of categories and any
    set collected so far. *)
Let collect (cs : list jsstring) (acc : list jsstring) : list jsstring :=
  fold_left
    (λ allSpecs category,
       fold_left setAdd (specNames device2Specs category)
         (fold_left setAdd (specNames device1Specs category) allSpecs))
    cs acc.

Lemma collect_NoDup cs acc : NoDup acc → NoDup (collect cs acc).
Proof.
  revert acc. induction cs as [|c cs IH]; intros acc Hnd; simpl; [done|].
  by apply IH, fold_setAdd_NoDup, fold_setAdd_NoDup.
Qed.

Lemma elem_of_collect cs acc y :
  y ∈ collect cs acc ↔
  y ∈ acc ∨ ∃ c, c ∈ cs ∧
    (y ∈ specNames device1Specs c ∨ y ∈ specNames device2Specs c).
Proof.
  revert acc. induction cs as [|c cs IH]; intros acc; simpl.
  - split; [by left|]. intros [?|(c & []%elem_of_nil & _)]. done.
  - rewrite IH, !elem_of_fold_setAdd. setoid_rewrite elem_of_cons.
    naive_solver.
Qed.

Lemma allSpecs_NoDup : NoDup (allSpecs device1Specs device2Specs).
Proof. apply (collect_NoDup categories []), NoDup_nil_2. Qed.

Lemma elem_of_allSpecs y :
  y ∈ allSpecs device1Specs device2Specs ↔
  ∃ c, c ∈ categories ∧
    (y ∈ specNames device1Specs c ∨ y ∈ specNames device2Specs c).
Proof.
  etrans; [apply (elem_of_collect categories [])|].
  rewrite elem_of_nil. naive_solver.
Qed.

Lemma sortedAllSpecs_strict :
  StronglySorted lexico (sortedAllSpecs device1Specs device2Specs).
Proof.
  apply sorted_NoDup_strict.
  - apply StronglySorted_merge_sort; apply _.
  - unfold sortedAllSpecs. rewrite merge_sort_Permutation. apply allSpecs_NoDup.
Qed.

Lemma elem_of_sortedAllSpecs y :
  y ∈ sortedAllSpecs device1Specs device2Specs ↔
  y ∈ allSpecs device1Specs device2Specs.
Proof. unfold sortedAllSpecs. by rewrite merge_sort_Permutation. Qed.

Lemma categorySpecsInUse_strict category :
  StronglySorted lexico (categorySpecsInUse device1Specs device2Specs category).
Proof. apply StronglySorted_List_filter, sortedAllSpecs_strict. Qed.

Lemma elem_of_categorySpecsInUse category y :
  category ∈ categories →
  y ∈ categorySpecsInUse device1Specs device2Specs category ↔
  y ∈ specNames device1Specs category ∨ y ∈ specNames device2Specs category.
Proof.
  intros Hc. unfold categorySpecsInUse.
  rewrite elem_of_List_filter, orb_true_iff, !existsb_isSpecNamed.
  rewrite elem_of_sortedAllSpecs, elem_of_allSpecs. unfold specNames.
  naive_solver.
Qed.
End AllSpecs.

Section TableBody.
Context (device1Specs device2Specs : specMap).

Lemma categoryBlock_Some category block :
  categoryBlock device1Specs device2Specs category = Some block →
  block.1 = category
  ∧ specName <$> block.2
    = categorySpecsInUse device1Specs device2Specs category
  ∧ block.2 ≠ [].
Proof.
  unfold categoryBlock. case_decide as Hlen; [done|]. intros [= <-]. simpl.
  split_and!; [done| |].
  - rewrite <-list_fmap_compose. apply list_fmap_id.
  - intros Hnil%fmap_nil_inv. by rewrite Hnil in Hlen.
Qed.

Lemma categoryBlock_is_Some category :
  is_Some (categoryBlock device1Specs device2Specs category) ↔
  categorySpecsInUse device1Specs device2Specs category ≠ [].
Proof.
  unfold categoryBlock. case_decide as Hlen.
  - apply length_zero_iff_nil in Hlen. rewrite Hlen.
    split; [by intros [? [=]]|done].
  - split; [|by eauto]. intros _ Hnil. by rewrite Hnil in Hlen.
Qed.

Lemma elem_of_tableBody category rows :
  (category, rows) ∈ tableBody device1Specs device2Specs ↔
  category ∈ categories
  ∧ categoryBlock device1Specs device2Specs category = Some (category, rows).
Proof.
  unfold tableBody. rewrite list_elem_of_omap. split.
  - intros (c & Hc & Hblock).
    destruct (categoryBlock_Some _ _ Hblock) as (Hfst & _). simpl in Hfst.
    by subst c.
  - intros [Hc Hblock]. eauto.
Qed.

Lemma tableBody_categories_sublist (cs : list jsstring) :
  (omap (categoryBlock device1Specs device2Specs) cs).*1 `sublist_of` cs.
Proof.
  induction cs as [|c cs IH]; simpl; [constructor|].
  destruct (categoryBlock _ _ c) as [block|] eqn:Hblock; simpl.
  - destruct (categoryBlock_Some _ _ Hblock) as (-> & _).
    by apply sublist_skip.
  - by apply sublist_cons.
Qed.

Lemma categorySpecs_nonempty category :
  category ∈ categories →
  categorySpecsInUse device1Specs device2Specs category ≠ [] ↔
  categorySpecs device1Specs category ≠ []
  ∨ categorySpecs device2Specs category ≠ [].
Proof.
  intros Hc. split.
  - intros Hne.
    destruct (categorySpecsInUse _ _ _) as [|y l] eqn:Huse; [done|].
    assert (y ∈ categorySpecsInUse device1Specs device2Specs category) as Hy
      by (rewrite Huse; left).
    apply elem_of_categorySpecsInUse in Hy; [|done]. unfold specNames in Hy.
    destruct Hy as [Hy|Hy]; [left|right]; intros Hnil;
      rewrite Hnil in Hy; by apply elem_of_nil in Hy.
  - intros Hsome Hnil.
    assert (∃ y, y ∈ specNames device1Specs category
                 ∨ y ∈ specNames device2Specs category) as [y Hy].
    { unfold specNames.
      destruct Hsome as [Hsome|Hsome];
        [destruct (categorySpecs device1Specs category) as [|s l]
        |destruct (categorySpecs device2Specs category) as [|s l]];
        try done; exists (specification s); [left|right]; left. }
    apply elem_of_categorySpecsInUse in Hy; [|done].
    rewrite Hnil in Hy. by apply elem_of_nil in Hy.
Qed.
End TableBody.

(** C2.  The table body lists categories in the fixed order General,
    Display, Hardware, Camera, Software, Connectivity, Sensors, Battery and
    no other category; the rows of a listed category are the names found in
    either device's entries for it, strictly increasing in the code unit
    order of strings, hence each once; a category is listed exactly when one
    of the devices has an entry for it. *)
Theorem C2_tableBody_order_and_rows (device1Specs device2Specs : specMap) :
  (tableBody device1Specs device2Specs).*1 `sublist_of` categories
  ∧ (∀ category,
       category ∉ categories →
       category ∉ (tableBody device1Specs device2Specs).*1)
  ∧ (∀ category rows,
       (category, rows) ∈ tableBody device1Specs device2Specs →
       StronglySorted lexico (specName <$> rows)
       ∧ ∀ name,
           name ∈ specName <$> rows ↔
           name ∈ specNames device1Specs category
           ∨ name ∈ specNames device2Specs category)
  ∧ (∀ category,
       category ∈ (tableBody device1Specs device2Specs).*1 ↔
       category ∈ categories
       ∧ (categorySpecs device1Specs category ≠ []
          ∨ categorySpecs device2Specs category ≠ [])).
Proof.
  assert (∀ category,
            category ∈ (tableBody device1Specs device2Specs).*1 ↔
            category ∈ categories
            ∧ (categorySpecs device1Specs category ≠ []
               ∨ categorySpecs device2Specs category ≠ [])) as Hlisted.
  { intros category. rewrite list_elem_of_fmap. split.
    - intros ([c rows] & -> & [Hc Hblock]%elem_of_tableBody). simpl.
      split; [done|]. apply categorySpecs_nonempty; [done|].
      apply categoryBlock_is_Some. eauto.
    - intros [Hc Hsome]. apply categorySpecs_nonempty in Hsome; [|done].
      apply categoryBlock_is_Some in Hsome as [block Hblock].
      destruct (categoryBlock_Some _ _ _ _ Hblock) as (Hfst & _).
      exists block. split; [done|]. destruct block as [c rows]. simpl in Hfst.
      subst c. by apply elem_of_tableBody. }
  split_and!; [apply tableBody_categories_sublist| | |done].
  - intros category Hnot Hin. apply Hlisted in Hin as [Hin _]. done.
  - intros category rows [Hc Hblock]%elem_of_tableBody.
    destruct (categoryBlock_Some _ _ _ _ Hblock) as (_ & Hrows & _).
    simpl in Hrows. rewrite Hrows. split.
    + apply categorySpecsInUse_strict.
    + intros name. by apply elem_of_categorySpecsInUse.
Qed.

(** Exchanging the devices leaves the sorted names as they are: the [Set]
    is filled in another order, sorting makes up for it. *)
Lemma sortedAllSpecs_swap (device1Specs device2Specs : specMap) :
  sortedAllSpecs device2Specs device1Specs
  = sortedAllSpecs device1Specs device2Specs.
Proof.
  apply (StronglySorted_unique sortCompareLe);
    [apply StronglySorted_merge_sort; apply _..|].
  unfold sortedAllSpecs. rewrite !merge_sort_Permutation.
  apply NoDup_Permutation; [apply allSpecs_NoDup..|].
  intros y. rewrite !elem_of_allSpecs. naive_solver.
Qed.

Lemma categoryBlock_swap (device1Specs device2Specs : specMap) category :
  categoryBlock device2Specs device1Specs category
  = swapBlock <$> categoryBlock device1Specs device2Specs category.
Proof.
  assert (categorySpecsInUse device2Specs device1Specs category
          = categorySpecsInUse device1Specs device2Specs category) as Huse.
  { unfold categorySpecsInUse. rewrite sortedAllSpecs_swap.
    apply filter_ext. intros name. apply orb_comm. }
  unfold categoryBlock. rewrite Huse. case_decide; [done|]. simpl.
  unfold swapBlock. simpl. do 2 f_equal. by rewrite <-list_fmap_compose.
Qed.

(** C3.  Exchanging the two specification maps keeps the categories and,
    in each category, the rows in the same order with the same names; only
    the two value columns change places. *)
Theorem C3_tableBody_swap (device1Specs device2Specs : specMap) :
  tableBody device2Specs device1Specs
  = swapBlock <$> tableBody device1Specs device2Specs
  ∧ ∀ i category rows,
      tableBody device1Specs device2Specs !! i = Some (category, rows) →
      ∃ rows',
        tableBody device2Specs device1Specs !! i = Some (category, rows')
        ∧ specName <$> rows' = specName <$> rows.
Proof.
  assert (tableBody device2Specs device1Specs
          = swapBlock <$> tableBody device1Specs device2Specs) as Hswap.
  { unfold tableBody. generalize categories as cs.
    induction cs as [|c cs IH]; simpl; [done|].
    rewrite categoryBlock_swap.
    change (list_omap _ _ ?f cs) with (omap f cs). rewrite IH.
    by destruct (categoryBlock device1Specs device2Specs c). }
  split; [done|]. intros i category rows Hi.
  exists (swapColumns <$> rows). rewrite Hswap, list_lookup_fmap, Hi.
  split; [done|]. by rewrite <-list_fmap_compose.
Qed.

(** * Properties of the extractor *)

(** Induction along the loop: a property of the input holds if it passes
    from the input left after a match to the input before it. *)
Lemma exec_ind (P : jsstring → Prop) :
  (∀ s, (∀ matches, exec s = Some matches → P (afterMatch matches)) → P s) →
  ∀ s, P s.
Proof.
  intros Hstep s. remember (length s) as n eqn:Hn. revert s Hn.
  induction n as [n IH] using lt_wf_ind. intros s ->.
  apply Hstep. intros matches Hm.
  apply (IH (length (afterMatch matches))); [by apply exec_advances|done].
Qed.

Lemma execAll_eq s :
  execAll s =
  match exec s with
  | Some matches => matches :: execAll (afterMatch matches)
  | None => []
  end.
Proof.
  funelim (execAll s);
    match goal with He : exec _ = _ |- _ => by rewrite He end.
Qed.

Lemma rowDetails_not_two_cells row :
  length (getElementsByTagName (str "td") row) ≠ 2 → rowDetails row = [].
Proof. intros Hlen. unfold rowDetails. by case_decide. Qed.

Lemma rowDetails_cellsEntry row :
  rowDetails row
  = cellsEntry (textContent <$> getElementsByTagName (str "td") row).
Proof.
  unfold rowDetails.
  by destruct (getElementsByTagName (str "td") row) as [|c0 [|c1 [|c2 cells]]].
Qed.

Section ExtractorFacts.
Context `{DOMParser}.

Lemma specLoop_eq s specifications :
  specLoop s specifications =
  match exec s with
  | Some matches =>
      specLoop (afterMatch matches) (processMatch matches specifications)
  | None => specifications
  end.
Proof.
  funelim (specLoop s specifications);
    match goal with He : exec _ = _ |- _ => by rewrite He end.
Qed.

(** The loop folds its body over the successive matches. *)
Lemma specLoop_execAll s specifications :
  specLoop s specifications
  = fold_left (λ specifications matches, processMatch matches specifications)
      (execAll s) specifications.
Proof.
  revert specifications. induction s as [s IH] using exec_ind.
  intros specifications. rewrite specLoop_eq, execAll_eq.
  destruct (exec s) as [matches|]; [|done]. simpl. by apply IH.
Qed.

Lemma categoryDetailsOf_tableCells matches :
  categoryDetailsOf matches
  = flat_map cellsEntry
      (tableCells (parseFromString
                     (str "<table>" ++ group2 matches ++ str "</table>"))).
Proof.
  unfold categoryDetailsOf, tableCells.
  induction (getElementsByTagName (str "tr") _) as [|row rows IH]; [done|].
  simpl. by rewrite IH, rowDetails_cellsEntry.
Qed.

(** The body of the loop: the cleaned heading becomes the property, the
    cleaned texts of the two-cell rows its entries. *)
Lemma processMatch_insert matches specifications :
  categoryDetailsOf matches ≠ [] →
  cleanHTMLContent (group1 matches) ≠ str "__proto__" →
  processMatch matches specifications
  = <[cleanHTMLContent (group1 matches) :=
        flat_map cellsEntry
          (tableCells (parseFromString
                         (str "<table>" ++ group2 matches ++ str "</table>")))]>
      specifications.
Proof.
  intros Hrows Hname. unfold processMatch, setProperty.
  rewrite <-categoryDetailsOf_tableCells.
  destruct (categoryDetailsOf matches) as [|entry entries]; [done|].
  case_decide as Hlen; [|simpl in Hlen; lia]. by case_decide.
Qed.

(** A property of the object that holds of [{}] and that the body of the
    loop keeps holds of the result. *)
Lemma extractSpecifications_ind (P : specMap → Prop) content :
  P ∅ →
  (∀ matches specifications,
     matches ∈ execAll content → P specifications →
     P (processMatch matches specifications)) →
  P (extractSpecifications content).
Proof.
  unfold extractSpecifications. rewrite specLoop_execAll.
  generalize (∅ : specMap) as specifications.
  induction (execAll content) as [|matches l IH];
    intros specifications H0 Hstep; simpl; [done|].
  apply IH.
  - apply Hstep; [left|done].
  - intros m sp Hin. apply Hstep. by right.
Qed.
End ExtractorFacts.

(** ** What a match looks like *)

Lemma run_lang r s ms rest :
  run r s = Some (ms, rest) →
  ∃ w marks, s = w ++ rest ∧ ms = (λ m, m ++ rest) <$> marks ∧ lang r w marks.
Proof.
  revert s ms rest. induction r as [|a r IH]; intros s ms rest; simpl.
  - intros [= <- <-]. by exists [], [].
  - destruct a as [c|p|p|p|].
    + destruct s as [|x s]; [done|]. destruct (N.eqb_spec x c) as [->|]; [|done].
      intros (w & marks & -> & -> & Hw)%IH. exists (c :: w), marks. eauto.
    + destruct s as [|x s]; [done|]. destruct (p x) eqn:Hp; [|done].
      intros (w & marks & -> & -> & Hw)%IH. exists (x :: w), marks. eauto 10.
    + assert (∀ s ms rest, run r s = Some (ms, rest) →
                ∃ w marks, s = w ++ rest ∧ ms = (λ m, m ++ rest) <$> marks
                           ∧ lang (Star p :: r) w marks) as Hnone.
      { intros s0 ms0 rest0 (w & marks & -> & -> & Hw)%IH.
        exists w, marks. split_and!; [done..|]. exists [], w. eauto. }
      revert ms rest. induction s as [|x s IHs]; intros ms rest; [by apply Hnone|].
      destruct (p x) eqn:Hp; [|by apply Hnone].
      match goal with |- context [match ?f s with _ => _ end] =>
        destruct (f s) as [[ms' rest']|] eqn:Hs end; [|by apply Hnone].
      intros [= <- <-].
      destruct (IHs _ _ eq_refl) as (w & marks & -> & -> & xs & w' & -> & Hxs & Hw).
      exists (x :: xs ++ w'), marks. split_and!; [done..|].
      exists (x :: xs), w'. eauto.
    + revert ms rest. induction s as [|x s IHs]; intros ms rest.
      * destruct (run r []) as [m|] eqn:Hr; [|done]. intros [= ->].
        apply IH in Hr as (w & marks & -> & -> & Hw).
        exists w, marks. split_and!; [done..|]. exists [], w. eauto.
      * destruct (run r (x :: s)) as [m|] eqn:Hr.
        -- intros [= ->]. apply IH in Hr as (w & marks & Hs & -> & Hw).
           exists w, marks. split_and!; [done..|]. exists [], w. eauto.
        -- destruct (p x) eqn:Hp; [|done].
           intros (w & marks & -> & -> & xs & w' & -> & Hxs & Hw)%IHs.
           exists (x :: xs ++ w'), marks. split_and!; [done..|].
           exists (x :: xs), w'. eauto.
    + destruct (run r s) as [[ms' rest']|] eqn:Hr; [|done].
      intros [= <- <-]. apply IH in Hr as (w & marks & -> & -> & Hw).
      exists w, (w :: marks). eauto.
Qed.

Lemma search_run r s ms rest :
  search r s = Some (ms, rest) →
  ∃ before s', s = before ++ s' ∧ run r s' = Some (ms, rest).
Proof.
  induction s as [|x s IH]; simpl.
  - destruct (run r []) eqn:Hr; [|done]. intros [= ->]. by exists [], [].
  - destruct (run r (x :: s)) eqn:Hr.
    + intros [= ->]. by exists [], (x :: s).
    + intros (before & s' & -> & Hs')%IH. by exists (x :: before), s'.
Qed.

Lemma between_eq from to g : from = g ++ to → between from to = g.
Proof.
  intros ->. unfold between. rewrite length_app.
  replace (length g + length to - length to) with (length g) by lia.
  by rewrite take_app_length.
Qed.

Ltac lang_lit H :=
  let w := fresh "w" in destruct H as (w & -> & H).

Lemma exec_shape s matches :
  exec s = Some matches →
  ∃ before matched,
    s = before ++ matched ++ afterMatch matches
    ∧ figureTableBlock matched (group1 matches) (group2 matches).
Proof.
  unfold exec. destruct (search specRegex s) as [[ms rest]|] eqn:Hs; [|done].
  intros [= <-]. simpl.
  apply search_run in Hs as (before & s' & -> & Hrun).
  apply run_lang in Hrun as (w & marks & -> & -> & Hlang).
  exists before, w. split; [done|].
  unfold specRegex, lits in Hlang. simpl in Hlang.
  do 2 lang_lit Hlang.
  destruct Hlang as (d & ? & -> & Hd & hattrs & ? & -> & Hhattrs & Hlang).
  lang_lit Hlang.
  destruct Hlang as (? & -> & heading & ? & -> & _ & ? & -> & Hlang).
  do 3 lang_lit Hlang.
  destruct Hlang as (d' & ? & -> & Hd' & Hlang). lang_lit Hlang.
  destruct Hlang as (ws1 & ? & -> & Hws1 & Hlang). do 7 lang_lit Hlang.
  destruct Hlang as (fattrs & ? & -> & Hfattrs & Hlang). lang_lit Hlang.
  destruct Hlang as (ws2 & ? & -> & Hws2 & Hlang). do 6 lang_lit Hlang.
  destruct Hlang as (tattrs & ? & -> & Htattrs & Hlang). lang_lit Hlang.
  destruct Hlang as (? & -> & c & ? & -> & _ & table & ? & -> & _ & ? & -> & Hlang).
  do 8 lang_lit Hlang.
  destruct Hlang as (ws3 & ? & -> & Hws3 & Hlang). do 9 lang_lit Hlang.
  destruct Hlang as [-> ->]. cbn [fmap list_fmap lookup_total list_lookup_total].
  match goal with |- figureTableBlock _ (between ?m1 ?m2) (between ?m3 ?m4) =>
    rewrite (between_eq m1 m2 heading), (between_eq m3 m4 (c :: table))
      by (simpl; by rewrite <-app_assoc) end.
  exists d, d', hattrs, ws1, fattrs, ws2, tattrs, ws3.
  split_and!; done.
Qed.

Lemma startsWith_app sub after : startsWith (sub ++ after) sub = true.
Proof. induction sub as [|p sub IH]; simpl; [done|]. by rewrite N.eqb_refl. Qed.

Lemma includes_occursIn s sub : occursIn sub s → includes s sub = true.
Proof.
  intros (before & after & ->).
  induction before as [|c before IH]; simpl.
  - assert (∀ s, startsWith s sub = true → includes s sub = true) as Hstart
      by (by intros [|??]; simpl; intros ->).
    apply Hstart, startsWith_app.
  - rewrite IH. apply orb_true_r.
Qed.

Lemma exec_occursIn_figure s matches :
  exec s = Some matches → occursIn (str "<figure") s.
Proof.
  intros (before & matched & -> & Hshape)%exec_shape.
  destruct Hshape as (d & d' & hattrs & ws1 & fattrs & ws2 & tattrs & ws3 & -> & _).
  eexists (before ++ str "<h" ++ [d] ++ hattrs ++ str ">" ++ group1 matches
           ++ str "</h" ++ [d'] ++ str ">" ++ ws1), _.
  rewrite <-!app_assoc. reflexivity.
Qed.

Lemma exec_None_without_figure s :
  includes s (str "<figure") = false → exec s = None.
Proof.
  intros Hno. destruct (exec s) as [matches|] eqn:He; [|done].
  apply exec_occursIn_figure, includes_occursIn in He. congruence.
Qed.

(** Each match of the loop lies in the content. *)
Lemma elem_of_execAll content matches :
  matches ∈ execAll content →
  ∃ before s, content = before ++ s ∧ exec s = Some matches.
Proof.
  induction content as [s IH] using exec_ind. rewrite execAll_eq.
  destruct (exec s) as [m|] eqn:He; [|by intros ?%elem_of_nil].
  intros [->|Hin]%elem_of_cons; [by exists [], s|].
  destruct (IH m eq_refl Hin) as (before & s' & Hs' & He').
  apply exec_shape in He as (b & matched & -> & _).
  exists (b ++ matched ++ before), s'. rewrite Hs', <-!app_assoc. done.
Qed.

Lemma execAll_length content : length (execAll content) ≤ length content.
Proof.
  induction content as [s IH] using exec_ind. rewrite execAll_eq.
  destruct (exec s) as [m|] eqn:He; simpl; [|lia].
  specialize (IH m eq_refl). apply exec_advances in He. lia.
Qed.

Section ExtractorClaims.
Context `{DOMParser}.

Lemma extractSpecifications_no_match content :
  exec content = None → extractSpecifications content = ∅.
Proof.
  intros He. unfold extractSpecifications. by rewrite specLoop_eq, He.
Qed.

(** C8.  The extractor is a total function: its loop ends after at most
    as many turns as the content has characters.  It returns the empty
    object for the empty string and for any content the pattern does not
    match, and a device whose content is empty or absent shows [N/A] in
    every row of its column. *)
Theorem C8_extract_never_fails :
  extractSpecifications [] = ∅
  ∧ (∀ content, length (execAll content) ≤ length content)
  ∧ (∀ content, exec content = None → extractSpecifications content = ∅)
  ∧ (∀ selectedDevices i device header1 header2 body category rows row,
       at_ selectedDevices i = Some device →
       default [] (content device) = [] →
       renderComparisonTable selectedDevices = Table header1 header2 body →
       (category, rows) ∈ body → row ∈ rows →
       (i = 0 → device1Value row = str "N/A")
       ∧ (i = 1 → device2Value row = str "N/A")).
Proof.
  split_and!; [done|apply execAll_length|apply extractSpecifications_no_match|].
  intros selectedDevices i device header1 header2 body category rows row
    Hat Hcontent Hrender Hrows Hrow.
  assert (deviceSpecs selectedDevices i = ∅) as Hspecs.
  { unfold deviceSpecs. by rewrite Hat, Hcontent. }
  unfold renderComparisonTable in Hrender. case_match; [|done].
  injection Hrender as <- <- <-.
  apply elem_of_tableBody in Hrows as [_ Hblock].
  unfold categoryBlock in Hblock. case_decide; [done|].
  injection Hblock as <-.
  apply list_elem_of_fmap in Hrow as (name & -> & _). simpl.
  split; intros ->; rewrite Hspecs; done.
Qed.

End ExtractorClaims.

(** * Properties of the selection state machine *)

(** ** Arrays *)

Lemma at_arraySet_eq {A} (arr : list (option A)) index x :
  at_ (arraySet None arr index x) index = x.
Proof.
  unfold at_, arraySet. case_decide.
  - by rewrite list_lookup_insert_eq.
  - rewrite lookup_app_r by lia. rewrite lookup_app_r; rewrite length_replicate; [|lia].
    by replace (index - length arr - (index - length arr)) with 0 by lia.
Qed.

Lemma at_arraySet_ne {A} (arr : list (option A)) index x j :
  index ≠ j → at_ (arraySet None arr index x) j = at_ arr j.
Proof.
  intros Hne. unfold at_, arraySet. case_decide.
  - by rewrite list_lookup_insert_ne.
  - destruct (decide (j < length arr)) as [Hj|Hj].
    + by rewrite lookup_app_l.
    + rewrite (lookup_ge_None_2 arr j) by lia. rewrite lookup_app_r by lia.
      destruct (decide (j - length arr < index - length arr)) as [Hlt|Hge].
      * rewrite lookup_app_l by (by rewrite length_replicate).
        by rewrite lookup_replicate_2.
      * rewrite lookup_app_r by (rewrite length_replicate; lia).
        rewrite length_replicate.
        destruct (j - length arr - (index - length arr)) as [|k] eqn:Hk; [lia|].
        done.
Qed.

(** ** Reconciliation *)

Lemma reconcileSlot_consistent snapshot st idx slugParam :
  match truthy slugParam with
  | Some wanted => ∃ device, at_ snapshot idx = Some device ∧ slug device = wanted
  | None => at_ snapshot idx = None
  end →
  reconcileSlot snapshot st idx slugParam = st.
Proof.
  unfold reconcileSlot. destruct (truthy slugParam) as [wanted|].
  - intros (device & -> & <-). by case_decide.
  - by intros ->.
Qed.

Lemma reconcile_consistent st : consistent st → reconcile st = st.
Proof.
  intros [H0 H1]. unfold reconcile. simpl.
  by rewrite !reconcileSlot_consistent.
Qed.

(** C6.  Reconciliation changes nothing, and so calls nothing, in a state
    whose slots agree with the navigation parameters.  When slot 0 agrees
    with its parameter and the parameter of slot 1 is absent, it makes no
    call, leaves slot 0 as it is and empties slot 1, after which the state
    is consistent.  So it goes when the parameters of a comparison of
    [phone-a] and [phone-b] become [{device1: "phone-a"}]. *)
Theorem C6_reconciliation_idempotent :
  (∀ st, consistent st →
         reconcile st = st ∧ network (step st Render) = network st)
  ∧ (∀ st,
       consistentSlot st 0 (device1SlugParam st) →
       truthy (device2SlugParam st) = None →
       network (reconcile st) = network st
       ∧ inFlight (reconcile st) = inFlight st
       ∧ at_ (selectedDevices (reconcile st)) 0 = at_ (selectedDevices st) 0
       ∧ at_ (selectedDevices (reconcile st)) 1 = None
       ∧ consistent (reconcile st))
  ∧ (consistent comparingAB
     ∧ selectedDevices comparingAB = [Some phoneA; Some phoneB]
     ∧ let st := runEvents
                   [Navigate {[ str "device1" := str "phone-a" ]}; Render]
                   comparingAB in
       network st = network comparingAB
       ∧ selectedDevices st = [Some phoneA; None]
       ∧ network (step st Render) = network comparingAB).
Proof.
  split; [|split].
  - intros st Hst. split; [by apply reconcile_consistent|].
    simpl. unfold runEffect. case_match; [|done].
    rewrite reconcile_consistent; [done|]. apply Hst.
  - intros st H0 H1. unfold reconcile. simpl.
    rewrite (reconcileSlot_consistent _ _ 0) by done.
    unfold reconcileSlot. rewrite H1.
    assert (∀ st', selectedDevices st' = selectedDevices st
                   ∨ selectedDevices st'
                     = arraySet None (selectedDevices st) 1 None →
                   localSearchParams st' = localSearchParams st →
                   at_ (selectedDevices st') 1 = None →
                   at_ (selectedDevices st') 0 = at_ (selectedDevices st) 0
                   ∧ at_ (selectedDevices st') 1 = None ∧ consistent st')
      as Hcons.
    { intros st' Hsel Hparams Hnone.
      assert (at_ (selectedDevices st') 0 = at_ (selectedDevices st) 0) as Hsame.
      { destruct Hsel as [->| ->]; [done|]. by apply at_arraySet_ne. }
      split_and!; [done..|]. split.
      - unfold consistentSlot, device1SlugParam in *. rewrite Hparams, Hsame.
        done.
      - unfold consistentSlot, device2SlugParam in *. by rewrite Hparams, H1. }
    destruct (at_ (selectedDevices st) 1) as [device|] eqn:Hat; simpl.
    + split; [done|]. split; [done|].
      apply (Hcons (setSelectedDevices _ st)); simpl;
        eauto using at_arraySet_eq.
    + split; [done|]. split; [done|]. apply Hcons; eauto.
  - split; [|split; [reflexivity|by vm_compute]].
    split; vm_compute; eauto.
Qed.

(** ** A failed detail fetch *)

Lemma lookup_arraySet_eq {A} (hole : A) arr index x :
  arraySet hole arr index x !! index = Some x.
Proof.
  unfold arraySet. case_decide.
  - by rewrite list_lookup_insert_eq.
  - rewrite lookup_app_r by lia. rewrite lookup_app_r; rewrite length_replicate; [|lia].
    by replace (index - length arr - (index - length arr)) with 0 by lia.
Qed.

(** However the fetch fails, the handler empties the slot, clears its
    loading flag, and leaves the cache and the calls made as they are. *)
Lemma fetchDeviceDetailsResume_failure deviceSlug index r st :
  (∀ post, fetchGraphQL r ≠ Some (Some post)) →
  let st' := fetchDeviceDetailsResume deviceSlug index r st in
  at_ (selectedDevices st') index = None
  ∧ fetchingIndividualDetails st' !! index = Some false
  ∧ fetchedDevicesCache st' = fetchedDevicesCache st
  ∧ network st' = network st
  ∧ selectedDevicesRef st' = S (selectedDevicesRef st)
  ∧ fetchedDevicesCacheRef st' = fetchedDevicesCacheRef st
  ∧ localSearchParams st' = localSearchParams st
  ∧ effectDeps st' = effectDeps st.
Proof.
  intros Hfail. unfold fetchDeviceDetailsResume.
  destruct (fetchGraphQL r) as [[post|]|] eqn:Hr; [by destruct (Hfail post)|..];
    simpl; by rewrite at_arraySet_eq, lookup_arraySet_eq.
Qed.

(** C5, on the code.  A link naming [phone-a] is opened and the detail
    fetch fails.  The loading flag of the slot is cleared and the slot is
    empty; but the handler has installed a new [selectedDevices] array, so
    the effect is due again, and its run fetches [phone-a] once more with no
    action of the user in between. *)
Theorem C5_failed_fetch_is_fetched_again :
  Forall
    (λ r,
       let fetching := step (mount {[ str "device1" := str "phone-a" ]}) Render in
       let failed := step fetching (DetailsResponse (str "phone-a") 0 r) in
       network fetching = [GetPostBySlug (str "phone-a")]
       ∧ fetchingIndividualDetails fetching = [true; false]
       ∧ fetchingIndividualDetails failed = [false; false]
       ∧ selectedDevices failed = [None; None]
       ∧ network failed = [GetPostBySlug (str "phone-a")]
       ∧ effectDue failed = true
       ∧ network (step failed Render)
         = [GetPostBySlug (str "phone-a"); GetPostBySlug (str "phone-a")])
    failures.
Proof. repeat constructor. Qed.

Lemma removeFirst_elem_of k l : k ∈ l → is_Some (removeFirst k l).
Proof.
  induction 1 as [k l|k x l Hin IH]; simpl.
  - by case_decide.
  - case_decide; [done|]. destruct IH as [waiting ->]. done.
Qed.

Lemma reconcileSlot_network snapshot st idx slugParam :
  ∃ more, network (reconcileSlot snapshot st idx slugParam) = network st ++ more.
Proof.
  assert (∀ deviceSlug,
            ∃ more, network (fetchDeviceDetails deviceSlug idx st)
                    = network st ++ more) as Hfetch.
  { intros deviceSlug. unfold fetchDeviceDetails.
    case_match; simpl; [exists []; by rewrite app_nil_r|by eexists]. }
  unfold reconcileSlot. repeat case_match; simpl; try apply Hfetch;
    exists []; by rewrite app_nil_r.
Qed.

(** The defect behind C5, from any state: the effect has run for the current
    render, slot 0 awaits the details of the slug its parameter names, and
    the fetch fails.  Then the effect is due again and its run calls the
    content API for the same slug. *)
Lemma failed_fetch_is_fetched_again st deviceSlug r :
  effectDeps st = Some (currentDeps st) →
  AwaitDetails deviceSlug 0 ∈ inFlight st →
  truthy (device1SlugParam st) = Some deviceSlug →
  fetchedDevicesCache st !! deviceSlug = None →
  (∀ post, fetchGraphQL r ≠ Some (Some post)) →
  let failed := step st (DetailsResponse deviceSlug 0 r) in
  effectDue failed = true
  ∧ ∃ more,
      network (step failed Render)
      = network st ++ GetPostBySlug deviceSlug :: more.
Proof.
  intros Hdeps Hin Hparam Hcache Hfail. simpl. unfold resume.
  destruct (removeFirst_elem_of _ _ Hin) as [waiting ->].
  pose proof (fetchDeviceDetailsResume_failure deviceSlug 0 r
                (setNetwork (network st) waiting st) Hfail) as Hfacts.
  cbv zeta in Hfacts.
  remember (fetchDeviceDetailsResume deviceSlug 0 r
              (setNetwork (network st) waiting st)) as failed eqn:Hfailed.
  clear Hfailed. destruct Hfacts as (Hat & _ & Hc & Hnet & Href & Hcr & Hp & Hd).
  simpl in Hc, Hnet, Href, Hcr, Hp, Hd.
  assert (effectDue failed = true) as Hdue.
  { unfold effectDue. apply bool_decide_eq_true. rewrite Hd, Hdeps.
    unfold currentDeps, device1SlugParam, device2SlugParam.
    rewrite Hp, Href, Hcr. intros [= ?]. lia. }
  split; [done|]. unfold runEffect. rewrite Hdue. unfold reconcile.
  cbn [imap fold_left compose].
  match goal with |- context [reconcileSlot ?snap ?st1 1 ?p] =>
    destruct (reconcileSlot_network snap st1 1 p) as [more ->] end.
  exists more. unfold reconcileSlot, device1SlugParam in *. simpl.
  rewrite Hp, Hparam, Hat. unfold fetchDeviceDetails. simpl.
  rewrite Hc, Hcache. simpl. by rewrite Hnet, <-app_assoc.
Qed.

(** ** The debounced search *)

Lemma handleSearchInputChange_text st text index :
  atMostOnePending st → trim text ≠ [] →
  let st' := handleSearchInputChange text index st in
  timers st' = [Timer (nextTimerId st) (now st + delay) text]
  ∧ debounceTimeoutRefs st' !! [] = Some (nextTimerId st)
  ∧ network st' = network st
  ∧ inFlight st' = inFlight st
  ∧ currentSearchResults st' = currentSearchResults st
  ∧ now st' = now st.
Proof.
  intros Hpending Htext. unfold handleSearchInputChange.
  case_decide; [|done].
  unfold debouncedSearchHandler, debouncedFunc, clearTimeout. simpl.
  destruct Hpending as [Hnil|(t & Ht & Href)].
  - destruct (debounceTimeoutRefs st !! []); simpl; rewrite Hnil; simpl;
      by rewrite lookup_insert_eq.
  - rewrite Href. simpl. rewrite Ht. simpl. rewrite Nat.eqb_refl. simpl.
    by rewrite lookup_insert_eq.
Qed.

Lemma elapse_before_due st ms t :
  timers st = [t] → now st + ms < due t →
  timers (elapse ms st) = [t]
  ∧ debounceTimeoutRefs (elapse ms st) = debounceTimeoutRefs st
  ∧ network (elapse ms st) = network st
  ∧ now (elapse ms st) = now st + ms.
Proof.
  intros Ht Hdue. unfold elapse. simpl. rewrite Ht. simpl.
  destruct (Nat.leb_spec (due t) (now st + ms)); [lia|]. done.
Qed.

Lemma elapse_due st ms t :
  timers st = [t] → due t ≤ now st + ms → trim (args t) ≠ [] →
  timers (elapse ms st) = []
  ∧ network (elapse ms st) = network st ++ [SearchPosts (args t)].
Proof.
  intros Ht Hdue Hargs. unfold elapse. simpl. rewrite Ht. simpl.
  destruct (Nat.leb_spec (due t) (now st + ms)); [|lia]. simpl.
  unfold searchPosts. by case_decide.
Qed.

(** ** What the other handlers leave alone *)

Lemma sameSearchSide_refl st : sameSearchSide st st.
Proof. unfold sameSearchSide. eauto. Qed.

Lemma sameSearchSide_trans st1 st2 st3 :
  sameSearchSide st1 st2 → sameSearchSide st2 st3 → sameSearchSide st1 st3.
Proof.
  intros (Ht & Hr & Hs & Hf) (Ht' & Hr' & Hs' & Hf').
  split_and!; [congruence..| |eauto].
  destruct Hs' as [Hs'|Hs']; [rewrite Hs'; done|by right].
Qed.

Lemma fetchDeviceDetails_sameSearchSide deviceSlug index st :
  sameSearchSide st (fetchDeviceDetails deviceSlug index st).
Proof.
  unfold fetchDeviceDetails. case_match; [by split_and!; simpl; eauto|].
  split_and!; simpl; eauto. intros Hf. apply Forall_app. split; [done|].
  by repeat constructor.
Qed.

Lemma reconcileSlot_sameSearchSide snapshot st idx slugParam :
  sameSearchSide st (reconcileSlot snapshot st idx slugParam).
Proof.
  unfold reconcileSlot.
  repeat case_match;
    auto using fetchDeviceDetails_sameSearchSide, sameSearchSide_refl.
  by split_and!; simpl; eauto.
Qed.

Lemma runEffect_sameSearchSide st : sameSearchSide st (runEffect st).
Proof.
  unfold runEffect. case_match; [|apply sameSearchSide_refl].
  unfold reconcile. simpl.
  eapply sameSearchSide_trans; [|apply reconcileSlot_sameSearchSide].
  eapply sameSearchSide_trans; [|apply reconcileSlot_sameSearchSide].
  by split_and!; simpl; eauto.
Qed.

Lemma handleSelectDevice_sameSearchSide device index st :
  sameSearchSide st (handleSelectDevice device index st).
Proof.
  destruct (fetchDeviceDetails_sameSearchSide (slug device) index st)
    as (Ht & Hr & _ & Hf).
  unfold handleSelectDevice. split_and!; simpl; eauto.
Qed.

Lemma handleRemoveDevice_sameSearchSide index st :
  sameSearchSide st (handleRemoveDevice index st).
Proof. unfold handleRemoveDevice. split_and!; simpl; eauto. Qed.

Lemma removeFirst_Forall (P : awaited → Prop) k l waiting :
  removeFirst k l = Some waiting → Forall P l → Forall P waiting.
Proof.
  revert waiting. induction l as [|x l IH]; intros waiting; simpl; [done|].
  case_decide.
  - intros [= <-] [_ Hl]%Forall_cons. done.
  - destruct (removeFirst k l) as [waiting'|]; [|done].
    intros [= <-] [Hx Hl]%Forall_cons. constructor; eauto.
Qed.

Lemma removeFirst_search_None query l :
  Forall notSearch l → removeFirst (AwaitSearch query) l = None.
Proof.
  induction 1 as [|x l Hx Hl IH]; simpl; [done|].
  case_decide; [by subst x|]. by rewrite IH.
Qed.

Lemma detailsResponse_sameSearchSide deviceSlug index r st :
  sameSearchSide st
    (resume (AwaitDetails deviceSlug index)
       (fetchDeviceDetailsResume deviceSlug index r) st).
Proof.
  unfold resume.
  destruct (removeFirst _ (inFlight st)) as [waiting|] eqn:Hrm;
    [|apply sameSearchSide_refl].
  unfold fetchDeviceDetailsResume.
  repeat case_match; split_and!; simpl; eauto using removeFirst_Forall.
Qed.

Lemma sameSearchSide_idle st st' :
  sameSearchSide st st' → searchIdle st → searchIdle st'.
Proof.
  intros (Ht & _ & Hs & Hf) (Hres & Htimers & Hfl).
  split_and!; [|congruence|eauto]. destruct Hs; congruence.
Qed.

Lemma step_quiet_idle st e : quietEvent e → searchIdle st → searchIdle (step st e).
Proof.
  intros He Hidle. destruct e as [text index| | | |ms|query r| |]; simpl in *.
  - destruct Hidle as (_ & Ht & Hf). unfold handleSearchInputChange.
    case_decide; [done|]. by split_and!.
  - eauto using sameSearchSide_idle, handleSelectDevice_sameSearchSide.
  - eauto using sameSearchSide_idle, handleRemoveDevice_sameSearchSide.
  - done.
  - destruct Hidle as (Hres & Ht & Hf). unfold elapse. simpl. rewrite Ht.
    simpl. by split_and!.
  - destruct Hidle as (Hres & Ht & Hf). unfold resume.
    by rewrite removeFirst_search_None.
  - eauto using sameSearchSide_idle, detailsResponse_sameSearchSide.
  - eauto using sameSearchSide_idle, runEffect_sameSearchSide.
Qed.

Lemma runEvents_quiet_idle events st :
  Forall quietEvent events → searchIdle st → searchIdle (runEvents events st).
Proof.
  revert st. induction events as [|e events IH]; intros st; [done|].
  intros [He Hes]%Forall_cons Hidle. simpl.
  apply IH; [done|]. by apply step_quiet_idle.
Qed.

(** An input that is blank empties the result list at once and touches
    neither the timers nor the network. *)
Lemma handleSearchInputChange_blank st text index :
  trim text = [] →
  let st' := handleSearchInputChange text index st in
  currentSearchResults st' = []
  ∧ timers st' = timers st
  ∧ debounceTimeoutRefs st' = debounceTimeoutRefs st
  ∧ network st' = network st
  ∧ inFlight st' = inFlight st.
Proof.
  intros Hblank. unfold handleSearchInputChange. by case_decide.
Qed.

Lemma searchPosts_timers query st :
  timers (searchPosts query st) = timers st
  ∧ debounceTimeoutRefs (searchPosts query st) = debounceTimeoutRefs st.
Proof. unfold searchPosts. by case_decide. Qed.

Lemma fired_timers (fired : list timer) st :
  let st' := fold_left (λ st t, searchPosts (args t) st) fired st in
  timers st' = timers st ∧ debounceTimeoutRefs st' = debounceTimeoutRefs st.
Proof.
  revert st. induction fired as [|t fired IH]; intros st; simpl; [done|].
  destruct (IH (searchPosts (args t) st)) as [-> ->].
  apply searchPosts_timers.
Qed.

(** The timers after [elapse]: those that were not due. *)
Lemma elapse_timers ms st :
  timers (elapse ms st)
  = List.filter (λ t, negb (due t <=? now st + ms)) (timers st)
  ∧ debounceTimeoutRefs (elapse ms st) = debounceTimeoutRefs st.
Proof.
  unfold elapse.
  match goal with |- context [fold_left _ ?fired ?st0] =>
    destruct (fired_timers fired st0) as [-> ->] end.
  done.
Qed.

Lemma step_atMostOnePending st e :
  atMostOnePending st → atMostOnePending (step st e).
Proof.
  assert (∀ st', timers st' = timers st →
                 debounceTimeoutRefs st' = debounceTimeoutRefs st →
                 atMostOnePending st → atMostOnePending st') as Hsame.
  { intros st' Ht Hr. unfold atMostOnePending. by rewrite Ht, Hr. }
  assert (∀ st', sameSearchSide st st' →
                 atMostOnePending st → atMostOnePending st') as Hside.
  { intros st' (Ht & Hr & _). by apply Hsame. }
  intros Hst. destruct e as [text index| | | |ms|query r| |]; simpl.
  - destruct (decide (trim text = [])) as [Hblank|Htext].
    + destruct (handleSearchInputChange_blank st text index Hblank)
        as (_ & Ht & Hr & _). by apply Hsame.
    + destruct (handleSearchInputChange_text st text index Hst Htext)
        as (Ht & Hr & _). right. eexists. by split.
  - eauto using handleSelectDevice_sameSearchSide.
  - eauto using handleRemoveDevice_sameSearchSide.
  - by apply Hsame.
  - destruct (elapse_timers ms st) as [Ht Hr].
    destruct Hst as [Hnil|(t & Hone & Href)].
    + left. by rewrite Ht, Hnil.
    + rewrite Hone in Ht. simpl in Ht.
      destruct (negb _); [right|left]; [|done].
      exists t. by rewrite Ht, Hr.
  - unfold resume. destruct (removeFirst _ _); [|done].
    unfold searchPostsResume. repeat case_match; by apply Hsame.
  - eauto using detailsResponse_sameSearchSide.
  - eauto using runEffect_sameSearchSide.
Qed.

Lemma reachable_atMostOnePending st : reachable st → atMostOnePending st.
Proof.
  intros (params & events & ->).
  assert (atMostOnePending (mount params)) as Hmount by (by left).
  revert Hmount. generalize (mount params) as st.
  induction events as [|e events IH]; intros st Hst; [done|].
  simpl. by apply IH, step_atMostOnePending.
Qed.

(** ** A burst of keystrokes *)

Lemma searchCalls_detail calls deviceSlug :
  searchCalls (calls ++ [GetPostBySlug deviceSlug]) = searchCalls calls.
Proof. unfold searchCalls. rewrite omap_app. simpl. apply app_nil_r. Qed.

Lemma fetchDeviceDetails_background deviceSlug index st :
  timers (fetchDeviceDetails deviceSlug index st) = timers st
  ∧ debounceTimeoutRefs (fetchDeviceDetails deviceSlug index st)
    = debounceTimeoutRefs st
  ∧ now (fetchDeviceDetails deviceSlug index st) = now st
  ∧ searchCalls (network (fetchDeviceDetails deviceSlug index st))
    = searchCalls (network st).
Proof.
  unfold fetchDeviceDetails. case_match; simpl; [done|].
  by rewrite searchCalls_detail.
Qed.

Lemma reconcileSlot_background snapshot st idx slugParam :
  timers (reconcileSlot snapshot st idx slugParam) = timers st
  ∧ debounceTimeoutRefs (reconcileSlot snapshot st idx slugParam)
    = debounceTimeoutRefs st
  ∧ now (reconcileSlot snapshot st idx slugParam) = now st
  ∧ searchCalls (network (reconcileSlot snapshot st idx slugParam))
    = searchCalls (network st).
Proof.
  unfold reconcileSlot.
  repeat case_match; try done; apply fetchDeviceDetails_background.
Qed.

(** An event that is no keystroke and takes no time leaves the timers, the
    ref and the clock as they are, and adds no search call. *)
Lemma step_background st e :
  background e →
  timers (step st e) = timers st
  ∧ debounceTimeoutRefs (step st e) = debounceTimeoutRefs st
  ∧ now (step st e) = now st
  ∧ searchCalls (network (step st e)) = searchCalls (network st).
Proof.
  destruct e as [text index|device index|index|params|ms|query r
                |deviceSlug index r|]; simpl; try done; intros _.
  - unfold handleSelectDevice. simpl.
    apply fetchDeviceDetails_background.
  - unfold resume. destruct (removeFirst _ _); [|done].
    unfold searchPostsResume. by repeat case_match.
  - unfold resume. destruct (removeFirst _ _); [|done].
    unfold fetchDeviceDetailsResume. by repeat case_match.
  - unfold runEffect. case_match; [|done]. unfold reconcile.
    cbn [imap fold_left compose].
    match goal with |- context [reconcileSlot ?snap (reconcileSlot ?snap ?st0 0 ?p0) 1 ?p1] =>
      destruct (reconcileSlot_background snap (reconcileSlot snap st0 0 p0) 1 p1)
        as (-> & -> & -> & ->);
      destruct (reconcileSlot_background snap st0 0 p0) as (-> & -> & -> & ->)
    end.
    done.
Qed.

(** While a burst lasts one timer is pending: that of the last keystroke,
    due when the delay has passed since it. *)
Lemma burst_pending events st elapsed text i :
  timers st = [Timer i (now st + delay - elapsed) text] →
  debounceTimeoutRefs st !! [] = Some i →
  elapsed < delay → trim text ≠ [] →
  rapidBurst elapsed events →
  let st' := runEvents events st in
  searchCalls (network st') = searchCalls (network st)
  ∧ sinceLastKey elapsed events < delay
  ∧ trim (lastText text events) ≠ []
  ∧ ∃ i', timers st'
          = [Timer i' (now st' + delay - sinceLastKey elapsed events)
               (lastText text events)].
Proof.
  revert st elapsed text i.
  induction events as [|e events IH]; intros st elapsed text i Ht Href Hlt Htext;
    [simpl; eauto|].
  assert (background e → rapidBurst elapsed events →
          let st' := runEvents (e :: events) st in
          searchCalls (network st') = searchCalls (network st)
          ∧ sinceLastKey elapsed events < delay
          ∧ trim (lastText text events) ≠ []
          ∧ ∃ i', timers st'
                  = [Timer i' (now st' + delay - sinceLastKey elapsed events)
                       (lastText text events)]) as Hback.
  { intros He Hburst.
    destruct (step_background st e He) as (Ht' & Href' & Hnow' & Hnet').
    destruct (IH (step st e) elapsed text i) as (Hnet & Hrest); try done.
    - by rewrite Ht', Hnow'.
    - by rewrite Href'.
    - simpl. split; [congruence|done]. }
  destruct e as [text' index'|device index'|index'|params|ms|query r
                |deviceSlug index' r|]; try (by apply Hback).
  - intros [Htext' Hburst]. simpl.
    assert (atMostOnePending st) as Hpending.
    { right. eexists. split; [exact Ht|done]. }
    destruct (handleSearchInputChange_text st text' index' Hpending Htext')
      as (Ht' & Href' & Hnet' & _ & _ & Hnow').
    destruct (IH (handleSearchInputChange text' index' st) 0 text'
                (nextTimerId st)) as (Hnet & Hrest); try done.
    + rewrite Ht', Hnow'. do 2 f_equal. lia.
    + unfold delay. lia.
    + split; [congruence|done].
  - intros [Hms Hburst]. simpl.
    destruct (elapse_before_due st ms _ Ht) as (Ht' & Href' & Hnet' & Hnow');
      [simpl; lia|].
    destruct (IH (elapse ms st) (elapsed + ms) text i) as (Hnet & Hrest);
      try done.
    + rewrite Ht', Hnow'. do 2 f_equal. lia.
    + by rewrite Href'.
    + split; [congruence|done].
Qed.

(** C4, amended.  In any state the component reaches, a burst of
    keystrokes, none blank, in which less than the delay passes between a
    keystroke and the next one, whatever renders, answers, selections and
    removals fall in between, adds no search call while it lasts and leaves
    one timer pending, which carries the last text; once the delay has
    passed since the last keystroke exactly one search call has been added,
    for the last text, and no timer is left: the timers of the earlier
    keystrokes were cancelled and call nothing.  A text that is blank is
    handled as a clearing: it starts no timer and no call, cancels none,
    and empties the result list. *)
Theorem C4_debounced_search_once :
  (∀ st text index events wait,
     reachable st → trim text ≠ [] → rapidBurst 0 events →
     delay ≤ sinceLastKey 0 events + wait →
     let typed := runEvents (ChangeText text index :: events) st in
     searchCalls (network typed) = searchCalls (network st)
     ∧ (∃ i, timers typed
             = [Timer i (now typed + delay - sinceLastKey 0 events)
                  (lastText text events)])
     ∧ searchCalls (network (step typed (Elapse wait)))
       = searchCalls (network st) ++ [lastText text events]
     ∧ timers (step typed (Elapse wait)) = [])
  ∧ (∀ st text index,
       trim text = [] →
       let st' := step st (ChangeText text index) in
       timers st' = timers st
       ∧ nextTimerId st' = nextTimerId st
       ∧ debounceTimeoutRefs st' = debounceTimeoutRefs st
       ∧ network st' = network st
       ∧ inFlight st' = inFlight st
       ∧ currentSearchResults st' = []).
Proof.
  split.
  - intros st text index events wait Hst Htext Hburst Hwait. simpl.
    apply reachable_atMostOnePending in Hst.
    destruct (handleSearchInputChange_text st text index Hst Htext)
      as (Ht & Href & Hnet & _ & _ & Hnow).
    destruct (burst_pending events (handleSearchInputChange text index st) 0
                text (nextTimerId st)) as (Hcalls & Hlt & Hlast & i & Htimer);
      try done.
    { rewrite Ht, Hnow. do 2 f_equal. lia. }
    { unfold delay. lia. }
    rewrite Hnet in Hcalls. split; [done|]. split; [by eauto|].
    destruct (elapse_due _ wait _ Htimer) as [Ht' Hnet']; [simpl; lia|done|].
    split; [|done]. fold runEvents in Hnet'. simpl in Hnet'.
    change (step ?x (Elapse wait)) with (elapse wait x).
    rewrite Hnet'. unfold searchCalls at 1. rewrite omap_app. simpl.
    fold (searchCalls (network (runEvents events
                                  (handleSearchInputChange text index st)))).
    by rewrite Hcalls.
  - intros st text index Hblank. simpl. unfold handleSearchInputChange.
    by case_decide.
Qed.

(** ** Clearing the text *)

(** C9, as stated, fails: [ip] is typed and cleared at once; the timer of
    [ip] is still pending, fires, and the answer to its search fills the
    result list though nothing was typed after the clearing. *)
Lemma C9_results_return_after_clearing :
  let typed := step (mount ∅) (ChangeText (str "ip") 0) in
  let cleared := step typed (ChangeText [] 0) in
  let later := [Elapse delay; SearchResponse (str "ip") (Data (Some [iphone]))] in
  currentSearchResults cleared = []
  ∧ Forall quietEvent later
  ∧ network (runEvents later cleared) = [SearchPosts (str "ip")]
  ∧ currentSearchResults (runEvents later cleared) = [iphone].
Proof. repeat constructor. Qed.

(** C9, amended.  An input that is empty, or blank, empties the result
    list at once; it starts no timer and no call, and cancels none.  When no
    timer is pending and no search is awaited at that time, the result list
    stays empty until a text that is not blank is typed. *)
Theorem C9_clearing_empties_results st text index :
  trim text = [] →
  let cleared := handleSearchInputChange text index st in
  (currentSearchResults cleared = []
   ∧ timers cleared = timers st
   ∧ debounceTimeoutRefs cleared = debounceTimeoutRefs st
   ∧ network cleared = network st
   ∧ inFlight cleared = inFlight st)
  ∧ (timers st = [] → Forall notSearch (inFlight st) →
     ∀ events, Forall quietEvent events →
               currentSearchResults (runEvents events cleared) = []).
Proof.
  intros Hblank.
  destruct (handleSearchInputChange_blank st text index Hblank)
    as (Hres & Ht & Hr & Hnet & Hfl).
  split; [done|]. intros Hnil Hidle events Hquiet.
  apply (runEvents_quiet_idle events _ Hquiet).
  split_and!; [done|congruence|]. simpl in *. by rewrite Hfl.
Qed.

(** * Instances

    The hypotheses of the theorems above hold of concrete inputs; the
    tables are parsed by [simpleParser]. *)

(** C4, as stated, fails for a text that is not empty but blank: typing a
    space starts no timer and no search, and typed after [ip] it leaves the
    search to [ip]. *)
Lemma C4_blank_keystroke_makes_no_call :
  let space :=
    runEvents [ChangeText (str " ") 0; Render; Elapse 100] (mount ∅) in
  let ipSpace :=
    runEvents [ChangeText (str "ip") 0; Render; Elapse 100;
               ChangeText (str " ") 0; Render; Elapse 100] (mount ∅) in
  length (str " ") = 1
  ∧ timers space = []
  ∧ network (step space (Elapse 400)) = []
  ∧ network (step ipSpace (Elapse 400)) = [SearchPosts (str "ip")].
Proof. repeat split; vm_compute; reflexivity. Qed.

(** C7, as stated, fails when a heading comes twice: the second table of
    [Display] yields no entry, yet [Display] is a property of the result,
    with the entries of the first table. *)
Lemma C7_category_kept_from_earlier_table :
  (∃ first second,
     execAll repeatedBody = [first; second]
     ∧ cleanHTMLContent (group1 second) = str "Display"
     ∧ @categoryDetailsOf simpleParser second = [])
  ∧ @extractSpecifications simpleParser repeatedBody !! str "Display"
    = Some [Spec (str "Size") (str "6.1 in")].
Proof.
  split; [|by vm_compute].
  eexists _, _. split; [vm_compute; reflexivity|]. split; by vm_compute.
Qed.

Lemma C2_witness :
  tableBody specsA specsB
  = [(str "Display", displayRowsAB);
     (str "Battery", [TableRow (str "Capacity") (str "N/A") (str "4000 mAh")])]
  ∧ ((str "Extras" ∉ categories)
     ∧ (str "Extras" ∉ (tableBody specsA specsB).*1))
  ∧ ((str "Display", displayRowsAB) ∈ tableBody specsA specsB
     ∧ StronglySorted lexico (specName <$> displayRowsAB)).
Proof.
  assert (str "Extras" ∉ categories) as Hnot.
  { apply (bool_decide_unpack _). vm_compute. exact I. }
  assert ((str "Display", displayRowsAB) ∈ tableBody specsA specsB) as Hin.
  { apply (bool_decide_unpack _). vm_compute. exact I. }
  split; [vm_compute; reflexivity|]. split.
  - split; [exact Hnot|].
    exact (proj1 (proj2 (C2_tableBody_order_and_rows specsA specsB)) _ Hnot).
  - split; [exact Hin|].
    exact (proj1 (proj1 (proj2 (proj2 (C2_tableBody_order_and_rows
                                         specsA specsB))) _ _ Hin)).
Defined.

Lemma C3_witness :
  tableBody specsA specsB !! 0 = Some (str "Display", displayRowsAB)
  ∧ ∃ rows',
      tableBody specsB specsA !! 0 = Some (str "Display", rows')
      ∧ specName <$> rows' = specName <$> displayRowsAB.
Proof.
  assert (tableBody specsA specsB !! 0 = Some (str "Display", displayRowsAB))
    as Hrow by (vm_compute; reflexivity).
  split; [exact Hrow|].
  exact (proj2 (C3_tableBody_swap specsA specsB) 0 _ _ Hrow).
Defined.

Lemma C4_witness :
  let st := mount {[ str "device1" := str "phone-a" ]} in
  let events :=
    [Render; Elapse 100; ChangeText (str "iph") 0; Render;
     DetailsResponse (str "phone-a") 0 (Data (Some phoneA)); Render;
     Elapse 100; ChangeText (str "ipho") 0; Render; Elapse 100] in
  let typed := runEvents (ChangeText (str "ip") 0 :: events) st in
  reachable st
  ∧ trim (str "ip") ≠ []
  ∧ rapidBurst 0 events
  ∧ delay ≤ sinceLastKey 0 events + 400
  ∧ network typed = [GetPostBySlug (str "phone-a")]
  ∧ searchCalls (network typed) = searchCalls (network st)
  ∧ (∃ i, timers typed
          = [Timer i (now typed + delay - sinceLastKey 0 events)
               (lastText (str "ip") events)])
  ∧ lastText (str "ip") events = str "ipho"
  ∧ searchCalls (network (step typed (Elapse 400)))
    = searchCalls (network st) ++ [lastText (str "ip") events]
  ∧ timers (step typed (Elapse 400)) = [].
Proof.
  assert (reachable (mount {[ str "device1" := str "phone-a" ]})) as Hst
    by (by eexists _, []).
  assert (trim (str "ip") ≠ []) as Htext by discriminate.
  assert (rapidBurst 0
            [Render; Elapse 100; ChangeText (str "iph") 0; Render;
             DetailsResponse (str "phone-a") 0 (Data (Some phoneA)); Render;
             Elapse 100; ChangeText (str "ipho") 0; Render; Elapse 100])
    as Hburst.
  { simpl. unfold delay. repeat split; try lia; discriminate. }
  assert (delay
          ≤ sinceLastKey 0
              [Render; Elapse 100; ChangeText (str "iph") 0; Render;
               DetailsResponse (str "phone-a") 0 (Data (Some phoneA)); Render;
               Elapse 100; ChangeText (str "ipho") 0; Render; Elapse 100]
            + 400) as Hwait by (unfold delay; simpl; lia).
  split; [exact Hst|]. split; [exact Htext|]. split; [exact Hburst|].
  split; [exact Hwait|]. split; [vm_compute; reflexivity|].
  pose proof (proj1 C4_debounced_search_once
                (mount {[ str "device1" := str "phone-a" ]}) (str "ip") 0 _ 400
                Hst Htext Hburst Hwait) as (Hcalls & Htimer & Hafter & Hnone).
  split; [exact Hcalls|]. split; [exact Htimer|]. split; [reflexivity|].
  split; [exact Hafter|exact Hnone].
Defined.

Lemma C6_witness :
  consistent comparingAB
  ∧ reconcile comparingAB = comparingAB
  ∧ network (step comparingAB Render) = network comparingAB.
Proof.
  assert (consistent comparingAB) as Hst by (split; vm_compute; eauto).
  split; [exact Hst|].
  exact (proj1 C6_reconciliation_idempotent comparingAB Hst).
Defined.

Lemma C8_witness :
  let selected := [Some blankDevice; Some displayDevice] in
  let row := TableRow (str "Size") (str "N/A") (str "6.1 in") in
  exec (str "<h3>Display</h3>") = None
  ∧ @extractSpecifications simpleParser (str "<h3>Display</h3>") = ∅
  ∧ at_ selected 0 = Some blankDevice
  ∧ default [] (content blankDevice) = []
  ∧ @renderComparisonTable simpleParser selected
    = Table (str "Phone A") (str "Phone B") [(str "Display", [row])]
  ∧ device1Value row = str "N/A".
Proof.
  assert (exec (str "<h3>Display</h3>") = None) as Hexec by reflexivity.
  split; [exact Hexec|].
  split;
    [exact (proj1 (proj2 (proj2 (@C8_extract_never_fails simpleParser)))
              (str "<h3>Display</h3>") Hexec)|].
  assert (@renderComparisonTable simpleParser
            [Some blankDevice; Some displayDevice]
          = Table (str "Phone A") (str "Phone B")
              [(str "Display",
                [TableRow (str "Size") (str "N/A") (str "6.1 in")])])
    as Hrender by (vm_compute; reflexivity).
  split; [reflexivity|]. split; [reflexivity|]. split; [exact Hrender|].
  refine (proj1 (proj2 (proj2 (proj2 (@C8_extract_never_fails simpleParser)))
                   [Some blankDevice; Some displayDevice] 0 blankDevice
                   _ _ _ (str "Display") _ _ eq_refl eq_refl Hrender _ _)
                eq_refl); constructor.
Defined.

Lemma C9_witness :
  let cleared := handleSearchInputChange [] 1 offeringIphone in
  let events := [Elapse 1000; ChangeText (str " ") 1; Render] in
  trim [] = []
  ∧ currentSearchResults offeringIphone = [iphone]
  ∧ searchQueries offeringIphone = [[]; str "ip"]
  ∧ timers offeringIphone = []
  ∧ Forall notSearch (inFlight offeringIphone)
  ∧ Forall quietEvent events
  ∧ currentSearchResults cleared = []
  ∧ searchQueries cleared = [[]; []]
  ∧ currentSearchResults (runEvents events cleared) = [].
Proof.
  assert (trim [] = []) as Hblank by reflexivity.
  assert (timers offeringIphone = []) as Htimers by reflexivity.
  assert (Forall notSearch (inFlight offeringIphone)) as Hidle
    by (vm_compute; constructor).
  assert (Forall quietEvent [Elapse 1000; ChangeText (str " ") 1; Render])
    as Hquiet by (repeat constructor).
  split; [exact Hblank|]. split; [vm_compute; reflexivity|].
  split; [vm_compute; reflexivity|]. split; [exact Htimers|].
  split; [exact Hidle|]. split; [exact Hquiet|].
  pose proof (C9_clearing_empties_results offeringIphone [] 1 Hblank)
    as [(Hres & _) Hstays].
  split; [exact Hres|]. split; [vm_compute; reflexivity|].
  exact (Hstays Htimers Hidle _ Hquiet).
Defined.


(** * Further properties of the selection state machine *)

Lemma arraySet_lookup_ne {A} (hole : A) arr index x j :
  index ≠ j →
  default hole (arraySet hole arr index x !! j) = default hole (arr !! j).
Proof.
  intros Hne. unfold arraySet. case_decide.
  - by rewrite list_lookup_insert_ne.
  - destruct (decide (j < length arr)) as [Hj|Hj].
    + by rewrite lookup_app_l.
    + rewrite (lookup_ge_None_2 arr j) by lia. rewrite lookup_app_r by lia.
      destruct (decide (j - length arr < index - length arr)) as [Hlt|Hge].
      * rewrite lookup_app_l by (by rewrite length_replicate).
        by rewrite lookup_replicate_2.
      * rewrite lookup_app_r by (rewrite length_replicate; lia).
        rewrite length_replicate.
        destruct (j - length arr - (index - length arr)) as [|k] eqn:Hk; [lia|].
        done.
Qed.

Lemma arraySet_length {A} (hole : A) arr index x :
  index < length arr → length (arraySet hole arr index x) = length arr.
Proof. intros Hlt. unfold arraySet. case_decide; [|lia]. apply length_insert. Qed.

Lemma slotState_eq st st' j index x y z :
  index ≠ j →
  (selectedDevices st' = selectedDevices st
   ∨ selectedDevices st' = arraySet None (selectedDevices st) index x) →
  (searchQueries st' = searchQueries st
   ∨ searchQueries st' = arraySet [] (searchQueries st) index y) →
  (fetchingIndividualDetails st' = fetchingIndividualDetails st
   ∨ fetchingIndividualDetails st'
     = arraySet false (fetchingIndividualDetails st) index z) →
  slotState st' j = slotState st j.
Proof.
  intros Hne Hsel Hq Hf. unfold slotState, at_.
  destruct Hsel as [-> | ->], Hq as [-> | ->], Hf as [-> | ->];
    by rewrite ?arraySet_lookup_ne.
Qed.

(** X1.  An event of one slot (typing, pressing a result, removing the
    card, the answer to a detail fetch) leaves the other slot as it is: its
    selected device, its query text and its loading flag. *)
Theorem X1_slots_are_independent st e index j :
  eventSlot e = Some index → j ≠ index →
  slotState (step st e) j = slotState st j.
Proof.
  intros He Hne.
  destruct e as [text i|device i|i| | | |deviceSlug i r|];
    simpl in He; try done; injection He as ->; simpl.
  - unfold handleSearchInputChange, debouncedSearchHandler, debouncedFunc,
      clearTimeout, setTimeout, slotState, at_.
    repeat case_match; simpl; by rewrite ?arraySet_lookup_ne.
  - unfold handleSelectDevice, fetchDeviceDetails, slotState, at_.
    repeat case_match; simpl; by rewrite ?arraySet_lookup_ne.
  - unfold handleRemoveDevice, slotState, at_. simpl.
    by rewrite ?arraySet_lookup_ne.
  - unfold resume, fetchDeviceDetailsResume, slotState, at_.
    repeat case_match; simpl; by rewrite ?arraySet_lookup_ne.
Qed.

Lemma runEvents_invariant (P : state → Prop) (ok : event → Prop) events st :
  (∀ st e, ok e → P st → P (step st e)) →
  Forall ok events → P st → P (runEvents events st).
Proof.
  intros Hstep. revert st. induction events as [|e events IH]; intros st; [done|].
  intros [He Hes]%Forall_cons Hst. simpl. apply IH; [done|]. by apply Hstep.
Qed.

Lemma searchesStarted_trans qs1 qs2 st1 st2 st3 :
  searchesStarted qs1 st1 st2 → searchesStarted qs2 st2 st3 →
  searchesStarted (qs1 ++ qs2) st1 st3.
Proof.
  intros (Hc & Hq & Hs & Hf & Hp & Hn & Hi & Hb)
         (Hc' & Hq' & Hs' & Hf' & Hp' & Hn' & Hi' & Hb').
  unfold searchesStarted.
  rewrite Hc', Hq', Hs', Hf', Hp', Hn', Hi', Hc, Hq, Hs, Hf, Hp, Hn, Hi.
  rewrite !fmap_app, <-!app_assoc, Forall_app. done.
Qed.

Lemma searchPosts_started query st :
  ∃ qs, searchesStarted qs st (searchPosts query st).
Proof.
  unfold searchPosts. case_decide as Hblank.
  - exists []. unfold searchesStarted. simpl. by rewrite !app_nil_r.
  - exists [query]. unfold searchesStarted. simpl. split_and!; try done.
    by repeat constructor.
Qed.

Lemma elapse_started ms st : ∃ qs, searchesStarted qs st (elapse ms st).
Proof.
  unfold elapse.
  match goal with |- context [fold_left _ ?fired ?st0] =>
    assert (searchesStarted [] st st0) as Hst0
      by (unfold searchesStarted; simpl; by rewrite !app_nil_r);
    revert Hst0; generalize st0 as st1; generalize fired as ts end.
  generalize (@nil jsstring) as qs.
  intros qs ts. revert qs. induction ts as [|t ts IH]; intros qs st1 Hst1; simpl.
  - by exists qs.
  - destruct (searchPosts_started (args t) st1) as [qs' Hqs'].
    apply (IH (qs ++ qs')). by eapply searchesStarted_trans.
Qed.

Lemma fetchDeviceDetails_twoSlots deviceSlug index st :
  index < 2 → twoSlots st → twoSlots (fetchDeviceDetails deviceSlug index st).
Proof.
  intros Hlt (Hs & Hq & Hf & Hi). unfold fetchDeviceDetails, twoSlots.
  case_match; simpl; rewrite ?arraySet_length by lia; split_and!; try done.
  apply Forall_app. split; [done|]. constructor; [|done].
  by intros i [= <-].
Qed.

Lemma reconcileSlot_twoSlots snapshot st idx slugParam :
  idx < 2 → twoSlots st → twoSlots (reconcileSlot snapshot st idx slugParam).
Proof.
  intros Hlt Hst. unfold reconcileSlot.
  repeat case_match; try done; try by apply fetchDeviceDetails_twoSlots.
  destruct Hst as (Hs & Hq & Hf & Hi). unfold twoSlots. simpl.
  by rewrite arraySet_length by lia.
Qed.

Lemma step_twoSlots st e : onSlots e → twoSlots st → twoSlots (step st e).
Proof.
  intros He Hst.
  destruct e as [text i|device i|i|params|ms|query r|deviceSlug i r|];
    unfold onSlots in He; simpl in *.
  - destruct Hst as (Hs & Hq & Hf & Hi).
    unfold handleSearchInputChange, debouncedSearchHandler, debouncedFunc,
      clearTimeout, setTimeout, twoSlots.
    repeat case_match; simpl; by rewrite ?arraySet_length by lia.
  - destruct (fetchDeviceDetails_twoSlots (slug device) i st He Hst)
      as (Hs & Hq & Hf & Hi).
    unfold handleSelectDevice, twoSlots. simpl.
    by rewrite ?arraySet_length by lia.
  - destruct Hst as (Hs & Hq & Hf & Hi). unfold handleRemoveDevice, twoSlots.
    simpl. by rewrite ?arraySet_length by lia.
  - done.
  - destruct (elapse_started ms st) as (qs & _ & Hq' & Hs' & Hf' & _ & _ & Hi' & _).
    destruct Hst as (Hs & Hq & Hf & Hi). unfold twoSlots.
    rewrite Hq', Hs', Hf', Hi'. split_and!; try done.
    apply Forall_app. split; [done|]. by apply Forall_fmap, Forall_true.
  - destruct Hst as (Hs & Hq & Hf & Hi). unfold resume.
    destruct (removeFirst _ _) as [waiting|] eqn:Hrm; [|done].
    unfold searchPostsResume, twoSlots.
    repeat case_match; simpl; eauto using removeFirst_Forall.
  - destruct Hst as (Hs & Hq & Hf & Hi). unfold resume.
    destruct (removeFirst _ _) as [waiting|] eqn:Hrm; [|done].
    assert (i < 2) as Hlt.
    { assert (AwaitDetails deviceSlug i ∈ inFlight st) as Hin.
      { clear -Hrm. revert waiting Hrm.
        induction (inFlight st) as [|x l IH]; intros waiting; simpl; [done|].
        case_decide; [subst; left|].
        destruct (removeFirst _ l); [|done]. intros _. right. by eapply IH. }
      rewrite Forall_forall in Hi. by apply (Hi _ Hin). }
    unfold fetchDeviceDetailsResume, twoSlots.
    repeat case_match; simpl; rewrite ?arraySet_length by (simpl; lia);
      eauto using removeFirst_Forall.
  - unfold runEffect. case_match; [|done]. unfold reconcile. simpl.
    apply reconcileSlot_twoSlots; [lia|].
    apply reconcileSlot_twoSlots; [lia|]. done.
Qed.

(** X2.  As long as the events come from the two inputs and cards of the
    screen, the three arrays of the component keep exactly two elements:
    no handler and no late answer ever makes a third slot. *)
Theorem X2_two_slots st :
  reachableOnSlots st →
  length (selectedDevices st) = 2
  ∧ length (searchQueries st) = 2
  ∧ length (fetchingIndividualDetails st) = 2.
Proof.
  intros (params & events & Hev & ->).
  assert (twoSlots (runEvents events (mount params))) as (Hs & Hq & Hf & _).
  { apply (runEvents_invariant twoSlots onSlots); [apply step_twoSlots|done|].
    unfold twoSlots. simpl. by split_and!. }
  done.
Qed.

Lemma removeFirst_Some_elem_of k l waiting :
  removeFirst k l = Some waiting → k ∈ l.
Proof.
  revert waiting. induction l as [|x l IH]; intros waiting; simpl; [done|].
  case_decide; [subst; left|].
  destruct (removeFirst k l); [|done]. intros _. right. by eapply IH.
Qed.

Lemma removeFirst_other k l waiting x :
  removeFirst k l = Some waiting → x ∈ l → x ≠ k → x ∈ waiting.
Proof.
  revert waiting. induction l as [|y l IH]; intros waiting; simpl; [done|].
  case_decide as Hy.
  - intros [= <-] [->|Hin]%elem_of_cons Hne; done.
  - destruct (removeFirst k l) as [w|]; [|done].
    intros [= <-] [->|Hin]%elem_of_cons Hne; [left|right]. by eapply IH.
Qed.

Lemma arraySet_lookup_true arr index x j :
  arraySet false arr index x !! j = Some true →
  (j = index ∧ x = true) ∨ (j ≠ index ∧ arr !! j = Some true).
Proof.
  intros Hj. destruct (decide (j = index)) as [->|Hne].
  - left. rewrite lookup_arraySet_eq in Hj. by injection Hj.
  - right. split; [done|].
    pose proof (arraySet_lookup_ne false arr index x j ltac:(done)) as Heq.
    rewrite Hj in Heq. simpl in Heq.
    by destruct (arr !! j) as [[]|].
Qed.

Lemma fetchDeviceDetails_loadingHasFetch deviceSlug index st :
  loadingHasFetch st → loadingHasFetch (fetchDeviceDetails deviceSlug index st).
Proof.
  intros Hst. unfold fetchDeviceDetails. case_match; [done|].
  intros j Hj. simpl in *.
  apply arraySet_lookup_true in Hj as [[-> _]|[_ Hj]].
  - exists deviceSlug. apply elem_of_app. right. left.
  - destruct (Hst j Hj) as [slug' Hin]. exists slug'.
    apply elem_of_app. by left.
Qed.

Lemma reconcileSlot_loadingHasFetch snapshot st idx slugParam :
  loadingHasFetch st → loadingHasFetch (reconcileSlot snapshot st idx slugParam).
Proof.
  intros Hst. unfold reconcileSlot.
  repeat case_match; try done; by apply fetchDeviceDetails_loadingHasFetch.
Qed.

Lemma step_loadingHasFetch st e :
  loadingHasFetch st → loadingHasFetch (step st e).
Proof.
  intros Hst.
  destruct e as [text i|device i|i|params|ms|query r|deviceSlug i r|]; simpl.
  - unfold handleSearchInputChange, debouncedSearchHandler, debouncedFunc,
      clearTimeout, setTimeout.
    repeat case_match; done.
  - pose proof (fetchDeviceDetails_loadingHasFetch (slug device) i st Hst).
    unfold handleSelectDevice. done.
  - done.
  - done.
  - destruct (elapse_started ms st) as (qs & _ & _ & _ & Hf & _ & _ & Hi & _).
    intros j Hj. rewrite Hf in Hj. destruct (Hst j Hj) as [slug' Hin].
    exists slug'. rewrite Hi. apply elem_of_app. by left.
  - unfold resume. destruct (removeFirst _ _) as [waiting|] eqn:Hrm; [|done].
    assert (loadingHasFetch (setNetwork (network st) waiting st)) as Hst'.
    { intros j Hj. destruct (Hst j Hj) as [slug' Hin]. exists slug'.
      simpl. by eapply removeFirst_other. }
    unfold searchPostsResume. by repeat case_match.
  - unfold resume. destruct (removeFirst _ _) as [waiting|] eqn:Hrm; [|done].
    intros j Hj.
    assert (j ≠ i ∧ fetchingIndividualDetails st !! j = Some true) as [Hne Hj'].
    { unfold fetchDeviceDetailsResume in Hj.
      repeat case_match; simpl in Hj;
        by apply arraySet_lookup_true in Hj as [[_ [=]]|?]. }
    destruct (Hst j Hj') as [slug' Hin]. exists slug'.
    assert (AwaitDetails slug' j ∈ waiting) as Hw.
    { eapply removeFirst_other; [done..|]. by intros [= _ ->]. }
    unfold fetchDeviceDetailsResume. by repeat case_match.
  - unfold runEffect. case_match; [|done]. unfold reconcile. simpl.
    by do 2 apply reconcileSlot_loadingHasFetch.
Qed.

(** X3.  In every state the component reaches, a slot whose loading flag
    is set awaits the answer to a detail fetch: the spinner is never shown
    with nothing under way. *)
Theorem X3_loading_flag_has_fetch st index :
  reachable st →
  fetchingIndividualDetails st !! index = Some true →
  ∃ deviceSlug, AwaitDetails deviceSlug index ∈ inFlight st.
Proof.
  intros (params & events & ->).
  apply (runEvents_invariant loadingHasFetch (λ _, True)).
  - intros st e _. apply step_loadingHasFetch.
  - by apply Forall_true.
  - intros j Hj. simpl in Hj. by destruct j as [|[|?]].
Qed.

Lemma fetchDeviceDetails_network deviceSlug index st :
  network (fetchDeviceDetails deviceSlug index st)
  = network st
    ++ match fetchedDevicesCache st !! deviceSlug with
       | Some _ => []
       | None => [GetPostBySlug deviceSlug]
       end.
Proof.
  unfold fetchDeviceDetails. case_match; simpl; by rewrite ?app_nil_r.
Qed.

Lemma step_network st e :
  ∃ more, network (step st e) = network st ++ more
          ∧ Forall guardedRequest more.
Proof.
  assert (∀ snapshot st idx slugParam,
            ∃ more, network (reconcileSlot snapshot st idx slugParam)
                    = network st ++ more ∧ Forall guardedRequest more)
    as Hslot.
  { intros snapshot st0 idx slugParam. unfold reconcileSlot.
    repeat case_match; rewrite ?fetchDeviceDetails_network; simpl;
      try (by exists []; rewrite app_nil_r);
      eexists; split; try done; repeat case_match; by repeat constructor. }
  destruct e as [text i|device i|i|params|ms|query r|deviceSlug i r|]; simpl.
  - exists []. rewrite app_nil_r. split; [|done].
    unfold handleSearchInputChange, debouncedSearchHandler, debouncedFunc,
      clearTimeout, setTimeout.
    by repeat case_match.
  - unfold handleSelectDevice. simpl. rewrite fetchDeviceDetails_network.
    eexists. split; [done|]. case_match; by repeat constructor.
  - exists []. by rewrite app_nil_r.
  - exists []. by rewrite app_nil_r.
  - destruct (elapse_started ms st) as (qs & _ & _ & _ & _ & _ & Hn & _ & Hb).
    exists (SearchPosts <$> qs). split; [done|]. by apply Forall_fmap.
  - exists []. rewrite app_nil_r. split; [|done]. unfold resume.
    destruct (removeFirst _ _); [|done].
    unfold searchPostsResume. by repeat case_match.
  - exists []. rewrite app_nil_r. split; [|done]. unfold resume.
    destruct (removeFirst _ _); [|done].
    unfold fetchDeviceDetailsResume. by repeat case_match.
  - unfold runEffect. case_match; [|by exists []; rewrite app_nil_r].
    unfold reconcile. cbn [imap fold_left compose].
    match goal with |- context [reconcileSlot ?snap (reconcileSlot ?snap ?st0 0 ?p0) 1 ?p1] =>
      destruct (Hslot snap (reconcileSlot snap st0 0 p0) 1 p1) as (m1 & -> & H1);
      destruct (Hslot snap st0 0 p0) as (m0 & -> & H0) end.
    exists (m0 ++ m1). simpl. rewrite app_assoc. split; [done|].
    by apply Forall_app.
Qed.

(** X4.  In every state the component reaches, no search with a blank
    query has been sent to the content API: the text is tested when it is
    typed and again when the timer fires. *)
Theorem X4_no_blank_search_is_sent st :
  reachable st → Forall guardedRequest (network st).
Proof.
  intros (params & events & ->).
  apply (runEvents_invariant (λ st, Forall guardedRequest (network st))
           (λ _, True)); [|by apply Forall_true|by simpl].
  intros st e _ Hst. destruct (step_network st e) as (more & -> & Hmore).
  by apply Forall_app.
Qed.

Lemma step_cached st e deviceSlug :
  is_Some (fetchedDevicesCache st !! deviceSlug) →
  is_Some (fetchedDevicesCache (step st e) !! deviceSlug).
Proof.
  intros Hc.
  assert (∀ snapshot st idx slugParam,
            fetchedDevicesCache (reconcileSlot snapshot st idx slugParam)
            = fetchedDevicesCache st) as Hslot.
  { intros snapshot st0 idx slugParam.
    unfold reconcileSlot, fetchDeviceDetails. by repeat case_match. }
  destruct e as [text i|device i|i|params|ms|query r|slug' i r|]; simpl.
  - unfold handleSearchInputChange, debouncedSearchHandler, debouncedFunc,
      clearTimeout, setTimeout.
    by repeat case_match.
  - unfold handleSelectDevice, fetchDeviceDetails. by repeat case_match.
  - done.
  - done.
  - destruct (elapse_started ms st) as (qs & -> & _). done.
  - unfold resume. destruct (removeFirst _ _); [|done].
    unfold searchPostsResume. by repeat case_match.
  - unfold resume. destruct (removeFirst _ _); [|done].
    unfold fetchDeviceDetailsResume. repeat case_match; simpl; try done.
    rewrite lookup_insert. by case_decide.
  - unfold runEffect. case_match; [|done]. unfold reconcile.
    cbn [imap fold_left compose]. by rewrite !Hslot.
Qed.

(** X5.  Once a detail fetch for a slug has succeeded, the slug stays in the
    cache whatever happens next, and any later [fetchDeviceDetails] for it,
    in either slot, calls nothing, awaits nothing, and puts the cached
    device in the slot at once. *)
Theorem X5_cached_device_is_not_fetched_again
    st deviceSlug index post events index' :
  AwaitDetails deviceSlug index ∈ inFlight st →
  let st' :=
    runEvents events
      (step st (DetailsResponse deviceSlug index (Data (Some post)))) in
  ∃ cached,
    fetchedDevicesCache st' !! deviceSlug = Some cached
    ∧ network (fetchDeviceDetails deviceSlug index' st') = network st'
    ∧ inFlight (fetchDeviceDetails deviceSlug index' st') = inFlight st'
    ∧ at_ (selectedDevices (fetchDeviceDetails deviceSlug index' st')) index'
      = Some cached.
Proof.
  intros Hin.
  set (answered := step st (DetailsResponse deviceSlug index (Data (Some post)))).
  assert (is_Some (fetchedDevicesCache answered !! deviceSlug)) as Hc.
  { unfold answered. simpl. unfold resume.
    destruct (removeFirst_elem_of _ _ Hin) as [waiting ->].
    unfold fetchDeviceDetailsResume. simpl. by rewrite lookup_insert_eq. }
  assert (is_Some (fetchedDevicesCache (runEvents events answered)
                   !! deviceSlug)) as [cached Hcached].
  { apply (runEvents_invariant
             (λ st, is_Some (fetchedDevicesCache st !! deviceSlug))
             (λ _, True)); [|by apply Forall_true|done].
    intros st0 e _. apply step_cached. }
  simpl. exists cached. unfold fetchDeviceDetails. rewrite Hcached. simpl.
  by rewrite at_arraySet_eq.
Qed.

(** X6.  In every state the component reaches at most one debounce timer
    is pending, and it is the one whose id the ref holds under the name of
    the debounced function. *)
Theorem X6_one_timer_at_most st :
  reachable st →
  length (timers st) ≤ 1
  ∧ ∀ t, t ∈ timers st → debounceTimeoutRefs st !! [] = Some (timerId t).
Proof.
  intros [Hnil|(t & Ht & Href)]%reachable_atMostOnePending.
  - rewrite Hnil. split; [simpl; lia|]. by intros t ?%elem_of_nil.
  - rewrite Ht. split; [simpl; lia|]. by intros t' ->%list_elem_of_singleton.
Qed.

(** ** Selection, removal and the effect *)

Lemma paramKey_slots index :
  index < 2 →
  paramKey index ≠ str "device3"
  ∧ (index = 0 ∧ paramKey index = str "device1"
     ∨ index = 1 ∧ paramKey index = str "device2").
Proof.
  intros Hlt. destruct index as [|[|index]]; [| |lia]; split; try done;
    [left|right]; by split.
Qed.

Lemma setParams_lookup st key v k :
  key ≠ str "device3" →
  localSearchParams
    (setParams (dropDevice3 (<[key := v]> (Some <$> localSearchParams st))) st)
  !! k
  = if decide (k = key) then v else localSearchParams st !! k.
Proof.
  intros Hkey. unfold setParams. simpl.
  rewrite lookup_omap, lookup_union.
  assert (dropDevice3 (<[key := v]> (Some <$> localSearchParams st)) !! k
          = (<[key := v]> (Some <$> localSearchParams st)) !! k
          ∨ k = str "device3"
            ∧ dropDevice3 (<[key := v]> (Some <$> localSearchParams st)) !! k
              = None) as [->| [-> ->]].
  { unfold dropDevice3. repeat case_match; try by left.
    destruct (decide (k = str "device3")) as [->|Hne].
    - right. by rewrite lookup_delete_eq.
    - left. by rewrite lookup_delete_ne. }
  - rewrite lookup_insert. case_decide as Hk; case_decide; try congruence.
    + simpl. by destruct (_ !! k).
    + rewrite lookup_fmap. by destruct (localSearchParams st !! k).
  - rewrite decide_False by done. rewrite lookup_fmap.
    by destruct (localSearchParams st !! str "device3").
Qed.

Lemma handleRemoveDevice_lookup st index k :
  paramKey index ≠ str "device3" →
  localSearchParams (handleRemoveDevice index st) !! k
  = if decide (k = paramKey index) then None else localSearchParams st !! k.
Proof.
  intros Hne.
  exact (setParams_lookup
           (setSelectedDevices (arraySet None (selectedDevices st) index None) st)
           (paramKey index) None k Hne).
Qed.

Lemma consistentSlot_selectedDevices st st' idx slugParam :
  at_ (selectedDevices st') idx = at_ (selectedDevices st) idx →
  consistentSlot st idx slugParam → consistentSlot st' idx slugParam.
Proof. unfold consistentSlot. by intros ->. Qed.

Lemma handleRemoveDevice_consistent st index :
  index < 2 → consistent st → consistent (handleRemoveDevice index st).
Proof.
  intros Hlt [H0 H1]. unfold consistent, device1SlugParam, device2SlugParam.
  destruct (paramKey_slots index Hlt) as [Hne Hkey].
  rewrite !handleRemoveDevice_lookup by done.
  destruct Hkey as [[-> ->]|[-> ->]]; simpl; split.
  - unfold consistentSlot, handleRemoveDevice. simpl. by rewrite at_arraySet_eq.
  - eapply consistentSlot_selectedDevices; [|exact H1].
    unfold handleRemoveDevice. simpl. by rewrite at_arraySet_ne.
  - eapply consistentSlot_selectedDevices; [|exact H0].
    unfold handleRemoveDevice. simpl. by rewrite at_arraySet_ne.
  - unfold consistentSlot, handleRemoveDevice. simpl. by rewrite at_arraySet_eq.
Qed.

(** X7.  Removing the device of a slot from a comparison whose slots agree
    with the navigation parameters empties the slot and takes its parameter
    away together, so that the slots still agree with the parameters: the
    effect that runs at the next render changes no slot and calls
    nothing. *)
Theorem X7_removal_needs_no_reconciliation st index :
  consistent st → index < 2 →
  let st' := step st (RemoveDevice index) in
  at_ (selectedDevices st') index = None
  ∧ localSearchParams st' !! paramKey index = None
  ∧ consistent st'
  ∧ selectedDevices (step st' Render) = selectedDevices st'
  ∧ network (step st' Render) = network st
  ∧ inFlight (step st' Render) = inFlight st.
Proof.
  intros Hc Hlt st'. subst st'.
  change (step st (RemoveDevice index)) with (handleRemoveDevice index st).
  change (step (handleRemoveDevice index st) Render)
    with (runEffect (handleRemoveDevice index st)).
  pose proof (handleRemoveDevice_consistent st index Hlt Hc) as Hc'.
  destruct (paramKey_slots index Hlt) as [Hne _].
  assert (∀ d, reconcile (setEffectDeps d (handleRemoveDevice index st))
               = setEffectDeps d (handleRemoveDevice index st)) as Hrec.
  { intros d. by apply reconcile_consistent. }
  split; [|split; [|split; [done|]]].
  - unfold handleRemoveDevice. simpl. by rewrite at_arraySet_eq.
  - rewrite handleRemoveDevice_lookup by done. by rewrite decide_True.
  - unfold runEffect. case_match; [|done]. by rewrite Hrec.
Qed.

Lemma handleSelectDevice_lookup st device index k :
  paramKey index ≠ str "device3" →
  localSearchParams (handleSelectDevice device index st) !! k
  = if decide (k = paramKey index) then Some (slug device)
    else localSearchParams st !! k.
Proof.
  intros Hne. unfold handleSelectDevice. cbv zeta.
  rewrite setParams_lookup by done.
  case_decide; [done|]. simpl. unfold fetchDeviceDetails. by case_match.
Qed.

Lemma handleSelectDevice_miss st device index :
  fetchedDevicesCache st !! slug device = None →
  let st' := handleSelectDevice device index st in
  network st' = network st ++ [GetPostBySlug (slug device)]
  ∧ inFlight st' = inFlight st ++ [AwaitDetails (slug device) index]
  ∧ selectedDevices st' = selectedDevices st
  ∧ fetchedDevicesCache st' = fetchedDevicesCache st
  ∧ effectDeps st' = effectDeps st.
Proof.
  intros Hmiss. unfold handleSelectDevice, fetchDeviceDetails.
  rewrite Hmiss. by simpl.
Qed.

(** X8.  Pressing a search result for a device that is not cached, in an
    empty slot of a comparison whose slots agree with the parameters, sends
    the detail request twice: the handler sends it, and the effect sends it
    again at the next render, because the parameter now names the device
    while the slot is still empty and nothing is cached before an answer
    arrives. *)
Theorem X8_selection_fetches_twice st device index :
  index < 2 →
  slug device ≠ [] →
  slug device ∉ inheritedNames →
  fetchedDevicesCache st !! slug device = None →
  at_ (selectedDevices st) index = None →
  consistent st →
  effectDeps st = Some (currentDeps st) →
  let st' := runEvents [SelectDevice device index; Render] st in
  network st'
  = network st ++ [GetPostBySlug (slug device); GetPostBySlug (slug device)]
  ∧ inFlight st'
    = inFlight st ++ [AwaitDetails (slug device) index;
                      AwaitDetails (slug device) index].
Proof.
  intros Hlt Hslug _ Hmiss Hempty [H0 H1] Hdeps st'. subst st'.
  change (runEvents [SelectDevice device index; Render] st)
    with (runEffect (handleSelectDevice device index st)).
  destruct (handleSelectDevice_miss st device index Hmiss)
    as (Hnet & Hfl & Hsel & Hcache & Heff).
  destruct (paramKey_slots index Hlt) as [Hne Hkey].
  pose proof (λ k, handleSelectDevice_lookup st device index k Hne) as Hpar.
  remember (handleSelectDevice device index st) as selected eqn:Heq.
  clear Heq.
  assert (truthy (Some (slug device)) = Some (slug device)) as Htruthy.
  { by destruct (slug device). }
  assert (truthy (localSearchParams st !! paramKey index) = None) as Hold.
  { destruct Hkey as [[-> ->]|[-> ->]].
    - unfold consistentSlot, device1SlugParam in H0.
      destruct (truthy _); [|done]. destruct H0 as (d & Hd & _). congruence.
    - unfold consistentSlot, device2SlugParam in H1.
      destruct (truthy _); [|done]. destruct H1 as (d & Hd & _). congruence. }
  assert (effectDue selected = true) as Hdue.
  { unfold effectDue. apply bool_decide_eq_true. rewrite Heff, Hdeps.
    intros [= Hp0 Hp1 _ _]. unfold device1SlugParam, device2SlugParam in *.
    rewrite !Hpar in *.
    destruct Hkey as [[-> Hk]|[-> Hk]]; rewrite Hk in *.
    - rewrite decide_True in Hp0 by done. rewrite Hp0, Htruthy in Hold. done.
    - rewrite decide_True in Hp1 by done. rewrite Hp1, Htruthy in Hold. done. }
  unfold runEffect. rewrite Hdue. unfold reconcile.
  cbn [imap fold_left compose]. unfold device1SlugParam, device2SlugParam.
  cbn [localSearchParams selectedDevices setEffectDeps]. rewrite !Hpar, Hsel.
  destruct Hkey as [[-> Hk]|[-> Hk]]; rewrite Hk.
  - rewrite decide_True by done. rewrite decide_False by done.
    rewrite (reconcileSlot_consistent _ _ 1) by exact H1.
    unfold reconcileSlot. rewrite Htruthy, Hempty.
    unfold fetchDeviceDetails. simpl. rewrite Hcache, Hmiss. simpl.
    rewrite Hnet, Hfl, <-!app_assoc. done.
  - rewrite decide_False by done. rewrite decide_True by done.
    rewrite (reconcileSlot_consistent _ _ 0) by exact H0.
    unfold reconcileSlot. rewrite Htruthy, Hempty.
    unfold fetchDeviceDetails. simpl. rewrite Hcache, Hmiss. simpl.
    rewrite Hnet, Hfl, <-!app_assoc. done.
Qed.

(** * Further properties of the extractor *)

Lemma list_snoc_cases {A} (l : list A) : l = [] ∨ ∃ l' x, l = l' ++ [x].
Proof. destruct l as [|x l _] using rev_ind; [by left|right; eauto]. Qed.

Section ExtractorFurther.
Context `{DOMParser}.

Lemma processMatch_lookup matches specifications category :
  processMatch matches specifications !! category
  = if decide (cleanHTMLContent (group1 matches) = category
               ∧ categoryDetailsOf matches ≠ []
               ∧ category ≠ str "__proto__")
    then Some (categoryDetailsOf matches)
    else specifications !! category.
Proof.
  unfold processMatch, setProperty.
  destruct (categoryDetailsOf matches) as [|entry entries] eqn:Hd.
  - case_decide as Hlen; [simpl in Hlen; lia|]. case_decide; naive_solver.
  - case_decide as Hlen; [|simpl in Hlen; lia].
    case_decide as Hp; case_decide as Hs.
    + destruct Hs as (<- & _ & ?). done.
    + done.
    + destruct Hs as (-> & _ & _). by rewrite lookup_insert_eq.
    + rewrite lookup_insert_ne; [done|]. intros Heq. apply Hs.
      split_and!; [done|done|]. by rewrite <-Heq.
Qed.

Lemma fold_processMatch_lookup (l : list execResult) category details :
  fold_left (λ specifications matches, processMatch matches specifications)
    l ∅ !! category = Some details ↔
  category ≠ str "__proto__"
  ∧ ∃ l1 matches l2,
      l = l1 ++ matches :: l2
      ∧ cleanHTMLContent (group1 matches) = category
      ∧ categoryDetailsOf matches = details
      ∧ details ≠ []
      ∧ Forall (λ later,
                  cleanHTMLContent (group1 later) = category →
                  categoryDetailsOf later = []) l2.
Proof.
  induction l as [|x l IH] using rev_ind.
  - simpl. rewrite lookup_empty. split; [done|].
    intros (_ & l1 & m & l2 & Hl & _). by destruct l1.
  - rewrite fold_left_app. simpl. rewrite processMatch_lookup.
    case_decide as Hsets.
    + destruct Hsets as (Hcat & Hne & Hproto). split.
      * intros [= <-]. split; [done|].
        exists l, x, []. split_and!; done.
      * intros (_ & l1 & m & l2 & Hl & Hm & Hd & _ & Hlater).
        destruct (list_snoc_cases l2) as [->|(l2' & y & ->)].
        -- apply app_inj_tail in Hl as [_ <-]. by rewrite Hd.
        -- rewrite app_comm_cons, app_assoc in Hl.
           apply app_inj_tail in Hl as [_ <-].
           apply Forall_app in Hlater as [_ Hx].
           rewrite Forall_singleton in Hx. by specialize (Hx Hcat).
    + rewrite IH. split.
      * intros (Hproto & l1 & m & l2 & -> & Hm & Hd & Hne & Hlater).
        split; [done|]. exists l1, m, (l2 ++ [x]).
        rewrite <-app_assoc. split_and!; try done.
        apply Forall_app. split; [done|]. apply Forall_singleton.
        intros Hcat. destruct (categoryDetailsOf x) eqn:Hdx; [done|].
        exfalso. apply Hsets. split_and!; done.
      * intros (Hproto & l1 & m & l2 & Hl & Hm & Hd & Hne & Hlater).
        split; [done|].
        destruct (list_snoc_cases l2) as [->|(l2' & y & ->)].
        -- apply app_inj_tail in Hl as [_ <-]. exfalso. apply Hsets.
           split_and!; [done| |done]. by rewrite Hd.
        -- rewrite app_comm_cons, app_assoc in Hl.
           apply app_inj_tail in Hl as [-> <-].
           apply Forall_app in Hlater as [Hlater _].
           exists l1, m, l2'. split_and!; done.
Qed.

(** X9.  What the extractor returns for a category: the entries of the
    last matched block that has the category as its cleaned heading and
    yields an entry; blocks without entry are passed over, and an earlier
    block of the same heading is replaced as a whole, not merged.  The
    heading [__proto__] never becomes a property. *)
Theorem X9_last_block_with_entries_wins content category details :
  extractSpecifications content !! category = Some details ↔
  category ≠ str "__proto__"
  ∧ ∃ l1 matches l2,
      execAll content = l1 ++ matches :: l2
      ∧ cleanHTMLContent (group1 matches) = category
      ∧ categoryDetailsOf matches = details
      ∧ details ≠ []
      ∧ Forall (λ later,
                  cleanHTMLContent (group1 later) = category →
                  categoryDetailsOf later = []) l2.
Proof.
  unfold extractSpecifications. rewrite specLoop_execAll.
  apply fold_processMatch_lookup.
Qed.
End ExtractorFurther.

(** ** The pattern finds every block *)

Lemma run_complete r w marks rest :
  lang r w marks → is_Some (run r (w ++ rest)).
Proof.
  revert w marks. induction r as [|a r IH]; intros w marks; simpl.
  - intros [-> _]. by eexists.
  - destruct a as [c|p|p|p|].
    + intros (w' & -> & Hw). simpl. rewrite N.eqb_refl. by eapply IH.
    + intros (x & w' & -> & Hx & Hw). simpl. rewrite Hx. by eapply IH.
    + intros (xs & w' & -> & Hxs & Hw). rewrite <-app_assoc.
      assert (∀ s, is_Some (run r s) →
                is_Some ((fix star (s : jsstring) :=
                            match s with
                            | x :: s' =>
                                if p x then
                                  match star s' with
                                  | Some m => Some m
                                  | None => run r s
                                  end
                                else run r s
                            | [] => run r s
                            end) s)) as Hstar.
      { intros [|x s] Hs; [done|]. destruct (p x); [|done].
        by match goal with |- is_Some (match ?e with _ => _ end) =>
             destruct e end. }
      induction Hxs as [|x xs Hx Hxs IHxs];
        [apply Hstar; simpl; by eapply IH|].
      simpl. rewrite Hx. simpl in IHxs. destruct IHxs as [m ->]. by eexists.
    + intros (xs & w' & -> & Hxs & Hw). rewrite <-app_assoc.
      assert (∀ s, is_Some (run r s) →
                is_Some ((fix lazy (s : jsstring) :=
                            match run r s with
                            | Some m => Some m
                            | None =>
                                match s with
                                | x :: s' => if p x then lazy s' else None
                                | [] => None
                                end
                            end) s)) as Hlazy.
      { intros [|x s] [m Hs]; by rewrite Hs. }
      induction Hxs as [|x xs Hx Hxs IHxs];
        [apply Hlazy; simpl; by eapply IH|].
      simpl.
      match goal with |- is_Some (match ?e with _ => _ end) =>
        destruct e end; [by eexists|].
      rewrite Hx. exact IHxs.
    + intros (marks' & -> & Hw). destruct (IH _ _ Hw) as [[ms rest'] ->].
      by eexists.
Qed.

Lemma search_complete r before s :
  is_Some (run r s) → is_Some (search r (before ++ s)).
Proof.
  intros Hs. induction before as [|x before IH]; simpl.
  - destruct s; simpl; destruct Hs as [m ->]; by eexists.
  - destruct (run r (x :: before ++ s)); [by eexists|done].
Qed.

Lemma lang_lits s r w marks :
  lang r w marks → lang (lits s ++ r) (str s ++ w) marks.
Proof.
  intros Hw. unfold lits. induction (str s) as [|c l IH]; simpl; eauto.
Qed.

Lemma lang_lits_end s : lang (lits s) (str s) [].
Proof.
  rewrite <-(app_nil_r (lits s)), <-(app_nil_r (str s)).
  by apply lang_lits.
Qed.

Lemma lang_Cls (p : char → bool) x r w marks :
  p x = true → lang r w marks → lang (Cls p :: r) (x :: w) marks.
Proof. simpl. eauto. Qed.

Lemma lang_Star (p : char → bool) xs r w marks :
  Forall (λ x, p x = true) xs → lang r w marks →
  lang (Star p :: r) (xs ++ w) marks.
Proof. simpl. eauto. Qed.

Lemma lang_StarLazy (p : char → bool) xs r w marks :
  Forall (λ x, p x = true) xs → lang r w marks →
  lang (StarLazy p :: r) (xs ++ w) marks.
Proof. simpl. eauto. Qed.

Lemma lang_Mark r w marks : lang r w marks → lang (Mark :: r) w (w :: marks).
Proof. simpl. eauto. Qed.

Lemma figureTableBlock_lang matched heading table :
  figureTableBlock matched heading table →
  ∃ marks, lang specRegex matched marks.
Proof.
  intros (d & d' & hattrs & ws1 & fattrs & ws2 & tattrs & ws3 & -> & Hd & Hd'
          & Hhattrs & Hws1 & Hfattrs & Hws2 & Htattrs & Hws3 & Htable).
  destruct table as [|c table]; [done|].
  assert (∀ l, Forall (λ x, anyChar x = true) l) as Hany
    by (intros l; by apply Forall_true).
  change specRegex with
    (lits "<h" ++ Cls digit24 :: Star notGt :: lits ">"
     ++ Mark :: StarLazy anyChar :: Mark
     :: lits "</h" ++ Cls digit24 :: lits ">" ++ Star isSpace
     :: lits "<figure" ++ Star notGt :: lits ">" ++ Star isSpace
     :: lits "<table" ++ Star notGt :: lits ">"
     ++ Mark :: Cls anyChar :: StarLazy anyChar :: Mark
     :: lits "</table>" ++ Star isSpace :: lits "</figure>").
  eexists.
  apply lang_lits, lang_Cls, (lang_Star _ hattrs), lang_lits; [done..|].
  apply lang_Mark, (lang_StarLazy _ heading), lang_Mark; [done|].
  apply lang_lits, lang_Cls, lang_lits, (lang_Star _ ws1); [done..|].
  apply lang_lits, (lang_Star _ fattrs), lang_lits, (lang_Star _ ws2);
    [done..|].
  apply lang_lits, (lang_Star _ tattrs), lang_lits; [done|].
  apply lang_Mark, lang_Cls, (lang_StarLazy _ table), lang_Mark; [done..|].
  apply lang_lits, (lang_Star _ ws3), lang_lits_end. done.
Qed.

(** X10.  The loop of the extractor runs its body at least once exactly
    when the content holds, somewhere, a heading of level 2 to 4 followed,
    white space apart, by a [figure] that holds a [table] with something
    between its tags. *)
Theorem X10_match_iff_block_occurs content :
  execAll content ≠ [] ↔
  ∃ before matched after heading table,
    content = before ++ matched ++ after
    ∧ figureTableBlock matched heading table.
Proof.
  rewrite execAll_eq. split.
  - destruct (exec content) as [matches|] eqn:He; [|done]. intros _.
    apply exec_shape in He as (before & matched & -> & Hshape). eauto 10.
  - intros (before & matched & after & heading & table & -> & Hblock).
    apply figureTableBlock_lang in Hblock as [marks Hlang].
    assert (is_Some (search specRegex (before ++ matched ++ after)))
      as [[ms rest] Hs].
    { apply search_complete. by eapply run_complete. }
    unfold exec. by rewrite Hs.
Qed.

(** * Properties of [cleanHTMLContent] *)

Arguments chr : simpl never.

Lemma length_ind {A} (P : list A → Prop) :
  (∀ l, (∀ l', length l' < length l → P l') → P l) → ∀ l, P l.
Proof.
  intros Hstep l. remember (length l) as n eqn:Hn. revert l Hn.
  induction n as [n IH] using lt_wf_ind. intros l ->.
  apply Hstep. intros l' Hlt. by apply (IH (length l')).
Qed.

Lemma replaceAll_eq r repl s :
  replaceAll r repl s =
  match run r s with
  | Some (_, rest) =>
      if lt_dec (length rest) (length s) then repl ++ replaceAll r repl rest
      else match s with
           | [] => repl
           | c :: s' => repl ++ c :: replaceAll r repl s'
           end
  | None =>
      match s with
      | [] => []
      | c :: s' => c :: replaceAll r repl s'
      end
  end.
Proof.
  funelim (replaceAll r repl s);
    repeat match goal with
      | He : run _ _ = _ |- _ => rewrite He; clear He
      | He : lt_dec _ _ = _ |- _ => rewrite He; clear He
      end; done.
Qed.

(** ** White space *)

Lemma dropSpaces_length s : length (dropSpaces s) ≤ length s.
Proof. induction s as [|c s IH]; simpl; [done|]. case_match; simpl; lia. Qed.

Lemma dropSpaces_head s c s' : dropSpaces s = c :: s' → isSpace c = false.
Proof.
  induction s as [|x s IH]; simpl; [done|].
  destruct (isSpace x) eqn:Hx; [done|]. by intros [= <- _].
Qed.

Lemma dropSpaces_suffix s : ∃ pre, s = pre ++ dropSpaces s.
Proof.
  induction s as [|x s [pre IH]]; simpl; [by exists []|].
  destruct (isSpace x); [|by exists []].
  exists (x :: pre). simpl. by rewrite <-IH.
Qed.

Lemma dropSpaces_fixed s :
  (∀ c s', s = c :: s' → isSpace c = false) → dropSpaces s = s.
Proof.
  destruct s as [|c s]; [done|]. intros Hhead. simpl.
  by rewrite (Hhead c s eq_refl).
Qed.

Lemma run_star_isSpace s : run [Star isSpace] s = Some ([], dropSpaces s).
Proof.
  induction s as [|x s IH]; [done|]. simpl in *.
  destruct (isSpace x); [|done]. by rewrite IH.
Qed.

Lemma run_spacesRegex s :
  run spacesRegex s
  = match s with
    | x :: s' => if isSpace x then Some ([], dropSpaces s') else None
    | [] => None
    end.
Proof.
  destruct s as [|x s]; [done|].
  change (run spacesRegex (x :: s))
    with (if isSpace x then run [Star isSpace] s else None).
  by rewrite run_star_isSpace.
Qed.

Lemma collapse_cons x s :
  replaceAll spacesRegex (str " ") (x :: s)
  = if isSpace x
    then chr " " :: replaceAll spacesRegex (str " ") (dropSpaces s)
    else x :: replaceAll spacesRegex (str " ") s.
Proof.
  rewrite replaceAll_eq, run_spacesRegex. destruct (isSpace x); [|done].
  destruct (lt_dec _ _) as [|Hge]; [done|].
  pose proof (dropSpaces_length s). simpl in Hge. lia.
Qed.

Lemma collapse_nil : replaceAll spacesRegex (str " ") [] = [].
Proof. by rewrite replaceAll_eq. Qed.

Lemma spaced_suffix pre s : spaced (pre ++ s) → spaced s.
Proof. induction pre as [|c pre IH]; simpl; [done|]. intros [_ ?]. eauto. Qed.

Lemma spaced_prefix s post : spaced (s ++ post) → spaced s.
Proof.
  induction s as [|c s IH]; simpl; [done|]. intros [Hc Hs]. split; [|eauto].
  intros Hsp. destruct (Hc Hsp) as [-> Hnext]. split; [done|].
  intros c' s'' ->. by eapply Hnext.
Qed.

Lemma collapse_spaced s : spaced (replaceAll spacesRegex (str " ") s).
Proof.
  induction s as [s IH] using length_ind.
  destruct s as [|x s]; [by rewrite collapse_nil|].
  rewrite collapse_cons. destruct (isSpace x) eqn:Hx; simpl.
  - split.
    + intros _. split; [done|]. intros c' s''.
      destruct (dropSpaces s) as [|y t] eqn:Hd; [by rewrite collapse_nil|].
      rewrite collapse_cons. apply dropSpaces_head in Hd. rewrite Hd.
      by intros [= <- _].
    + apply IH. pose proof (dropSpaces_length s). simpl. lia.
  - split; [congruence|]. apply IH. simpl. lia.
Qed.

Lemma collapse_fixed s :
  spaced s → replaceAll spacesRegex (str " ") s = s.
Proof.
  induction s as [|c s IH]; [by rewrite collapse_nil|].
  intros [Hc Hs]. rewrite collapse_cons.
  destruct (isSpace c) eqn:Hsp; [|by rewrite IH].
  destruct (Hc eq_refl) as [-> Hnext].
  rewrite dropSpaces_fixed by done. by rewrite IH.
Qed.

(** ** [trim] *)

Lemma trim_infix s : ∃ pre post, s = pre ++ trim s ++ post.
Proof.
  unfold trim. destruct (dropSpaces_suffix s) as [pre Hpre].
  destruct (dropSpaces_suffix (reverse (dropSpaces s))) as [post Hpost].
  exists pre, (reverse post). rewrite <-reverse_app, <-Hpost.
  by rewrite reverse_involutive.
Qed.

Lemma trim_trimmed s : trimmed (trim s).
Proof.
  unfold trim. split.
  - intros c s' Heq.
    destruct (dropSpaces_suffix (reverse (dropSpaces s))) as [post Hpost].
    apply (f_equal reverse) in Hpost.
    rewrite reverse_involutive, reverse_app, Heq in Hpost.
    by apply dropSpaces_head in Hpost.
  - intros s' c Heq. apply (f_equal reverse) in Heq.
    rewrite reverse_involutive, reverse_app in Heq.
    by apply dropSpaces_head in Heq.
Qed.

Lemma trim_fixed s : trimmed s → trim s = s.
Proof.
  intros [Hhead Hlast]. unfold trim. rewrite (dropSpaces_fixed s) by done.
  rewrite dropSpaces_fixed; [by rewrite reverse_involutive|].
  intros c s' Heq. apply (f_equal reverse) in Heq.
  rewrite reverse_involutive, reverse_cons in Heq. by eapply Hlast.
Qed.

(** ** Tags *)

Lemma afterGt_None s : afterGt s = None ↔ Forall (λ x, notGt x = true) s.
Proof.
  induction s as [|x s IH]; simpl; [done|].
  rewrite Forall_cons. destruct (notGt x); naive_solver.
Qed.

Lemma run_star_notGt s :
  run [Star notGt; Lit (chr ">")] s = (λ rest, ([], rest)) <$> afterGt s.
Proof.
  induction s as [|x s IH]; [done|]. cbn -[chr N.eqb] in *.
  destruct (notGt x) eqn:Hx.
  - rewrite IH. destruct (afterGt s); cbn -[chr N.eqb]; [done|].
    unfold notGt in Hx. by destruct (x =? chr ">")%N.
  - unfold notGt in Hx. by destruct (x =? chr ">")%N.
Qed.

Lemma run_tagRegex s :
  run tagRegex s
  = match s with
    | x :: y :: s' =>
        if ((x =? chr "<")%N && notGt y)%bool
        then (λ rest, ([], rest)) <$> afterGt s'
        else None
    | _ => None
    end.
Proof.
  destruct s as [|x [|y s]];
    [done|cbn -[chr N.eqb]; by destruct (x =? chr "<")%N|].
  change (run tagRegex (x :: y :: s))
    with (if (x =? chr "<")%N
          then if notGt y then run [Star notGt; Lit (chr ">")] s else None
          else None).
  rewrite run_star_notGt. by destruct (x =? chr "<")%N, (notGt y).
Qed.

Lemma run_tagRegex_None c s :
  run tagRegex (c :: s) = None ↔
  (c = chr "<" →
   (∃ s', s = chr ">" :: s') ∨ Forall (λ x, notGt x = true) s).
Proof.
  rewrite run_tagRegex. destruct s as [|y s].
  - split; [|done]. intros _ _. by right.
  - destruct (N.eqb_spec c (chr "<")) as [->|Hc]; simpl; [|by split].
    destruct (notGt y) eqn:Hy.
    + rewrite fmap_None, afterGt_None. split.
      * intros Hs _. right. by constructor.
      * intros Hs. destruct (Hs eq_refl) as [[s' [= -> _]]|Hall]; [done|].
        by apply Forall_cons in Hall as [_ ?].
    + split; [|done]. intros _ _. left. exists s. f_equal.
      unfold notGt in Hy. by destruct (N.eqb_spec y (chr ">")).
Qed.

Lemma tagFree_search s : tagFree s ↔ search tagRegex s = None.
Proof.
  induction s as [|c s IH].
  - simpl. by split.
  - cbn [tagFree search]. rewrite IH, <-run_tagRegex_None.
    destruct (run tagRegex (c :: s)); naive_solver.
Qed.

Lemma tagFree_suffix pre s : tagFree (pre ++ s) → tagFree s.
Proof. induction pre as [|c pre IH]; simpl; [done|]. intros [_ ?]. eauto. Qed.

Lemma tagFree_prefix s post : tagFree (s ++ post) → tagFree s.
Proof.
  induction s as [|c s IH]; simpl; [done|]. intros [Hc Hs]. split; [|eauto].
  intros Hlt. destruct (Hc Hlt) as [[s'' Heq]|Hall].
  - destruct s as [|y s]; [right; constructor|].
    injection Heq as -> _. left. by eexists.
  - right. by apply Forall_app in Hall as [? _].
Qed.

Lemma Forall_sublist {A} (P : A → Prop) (l k : list A) :
  l `sublist_of` k → Forall P k → Forall P l.
Proof.
  induction 1 as [|x l k _ IH|x l k _ IH]; [done|..];
    intros [? ?]%Forall_cons; [constructor|]; eauto.
Qed.

Lemma replaceAll_nil_sublist r s : replaceAll r [] s `sublist_of` s.
Proof.
  induction s as [s IH] using length_ind. rewrite replaceAll_eq.
  destruct (run r s) as [[ms rest]|] eqn:Hr.
  - destruct (lt_dec _ _) as [Hlt|Hge]; simpl.
    + apply run_lang in Hr as (w & marks & -> & _).
      apply sublist_inserts_l. by apply IH.
    + destruct s as [|c s]; [done|]. apply sublist_skip, IH. simpl. lia.
  - destruct s as [|c s]; [done|]. apply sublist_skip, IH. simpl. lia.
Qed.

Lemma strip_tagFree s : tagFree (replaceAll tagRegex [] s).
Proof.
  induction s as [s IH] using length_ind. rewrite replaceAll_eq.
  destruct (run tagRegex s) as [[ms rest]|] eqn:Hr.
  - destruct (lt_dec _ _) as [Hlt|Hge]; simpl; [by apply IH|].
    exfalso. rewrite run_tagRegex in Hr.
    destruct s as [|c [|y s]]; [done..|]. case_match; [|done].
    destruct (afterGt s) as [rest'|] eqn:Ha; [|done].
    injection Hr as _ <-.
    assert (∀ t u, afterGt t = Some u → length u < length t) as Hshort.
    { induction t as [|x t IHt]; simpl; [done|]. intros u.
      destruct (notGt x); [intros ?%IHt; lia|intros [= <-]; lia]. }
    apply Hshort in Ha. simpl in Hge. lia.
  - destruct s as [|c s]; [done|]. simpl. split; [|apply IH; simpl; lia].
    intros Hc.
    destruct (proj1 (run_tagRegex_None c s) Hr Hc) as [[s' ->]|Hall].
    + left. rewrite replaceAll_eq, run_tagRegex. simpl.
      destruct s'; by eexists.
    + right. eapply Forall_sublist; [|done]. apply replaceAll_nil_sublist.
Qed.

Lemma strip_fixed s : tagFree s → replaceAll tagRegex [] s = s.
Proof.
  induction s as [|c s IH]; [by rewrite replaceAll_eq|].
  intros [Hc Hs]. rewrite replaceAll_eq.
  rewrite (proj2 (run_tagRegex_None c s) Hc). by rewrite IH.
Qed.

Lemma collapse_notGt (s : jsstring) :
  Forall (λ x, notGt x = true) s →
  Forall (λ x, notGt x = true) (replaceAll spacesRegex (str " ") s).
Proof.
  induction s as [s IH] using length_ind. intros Hall.
  destruct s as [|x s]; [by rewrite collapse_nil|].
  apply Forall_cons in Hall as [Hx Hs]. rewrite collapse_cons.
  destruct (isSpace x).
  - constructor; [done|]. apply IH.
    + pose proof (dropSpaces_length s). simpl. lia.
    + destruct (dropSpaces_suffix s) as [pre Hpre]. rewrite Hpre in Hs.
      by apply Forall_app in Hs as [_ ?].
  - constructor; [done|]. apply IH; [simpl; lia|done].
Qed.

Lemma collapse_tagFree s :
  tagFree s → tagFree (replaceAll spacesRegex (str " ") s).
Proof.
  induction s as [s IH] using length_ind. intros Hs.
  destruct s as [|x s]; [by rewrite collapse_nil|].
  destruct Hs as [Hx Hs]. rewrite collapse_cons.
  destruct (isSpace x) eqn:Hsp; simpl.
  - split.
    + intros [=].
    + apply IH; [pose proof (dropSpaces_length s); simpl; lia|].
      destruct (dropSpaces_suffix s) as [pre Hpre]. rewrite Hpre in Hs.
      by apply tagFree_suffix in Hs.
  - split; [|apply IH; [simpl; lia|done]].
    intros Hc. destruct (Hx Hc) as [[s'' ->]|Hall].
    + left. rewrite collapse_cons. simpl. by eexists.
    + right. by apply collapse_notGt.
Qed.

Lemma cleanHTMLContent_cleaned content : cleaned (cleanHTMLContent content).
Proof.
  unfold cleanHTMLContent.
  set (collapsed := replaceAll spacesRegex (str " ")
                      (replaceAll tagRegex [] content)).
  assert (tagFree collapsed) as Htag by apply collapse_tagFree, strip_tagFree.
  assert (spaced collapsed) as Hsp by apply collapse_spaced.
  destruct (trim_infix collapsed) as (pre & post & Heq).
  rewrite Heq in Htag, Hsp. split_and!.
  - by eapply tagFree_prefix, tagFree_suffix.
  - by eapply spaced_prefix, spaced_suffix.
  - apply trim_trimmed.
Qed.

Lemma cleaned_fixed s : cleaned s → cleanHTMLContent s = s.
Proof.
  intros (Htag & Hsp & Htrim). unfold cleanHTMLContent.
  by rewrite strip_fixed, collapse_fixed, trim_fixed.
Qed.

(** X11.  In a text that [cleanHTMLContent] returns every white-space
    character is a plain space that stands between two characters that are
    no white space: runs of white space are single spaces, and there is
    none at either end. *)
Theorem X11_cleaned_text_white_space content before c after :
  cleanHTMLContent content = before ++ c :: after →
  isSpace c = true →
  c = chr " "
  ∧ (∃ before' b, before = before' ++ [b] ∧ isSpace b = false)
  ∧ (∃ a after', after = a :: after' ∧ isSpace a = false).
Proof.
  intros Heq Hc.
  destruct (cleanHTMLContent_cleaned content) as (_ & Hsp & Hhead & Hlast).
  rewrite Heq in Hsp, Hhead, Hlast.
  pose proof (spaced_suffix _ _ Hsp) as [Hnext _].
  destruct (Hnext Hc) as [-> Hafter]. split_and!; [done| |].
  - destruct (list_snoc_cases before) as [->|(before' & b & ->)].
    + specialize (Hhead _ _ eq_refl). congruence.
    + exists before', b. split; [done|].
      rewrite <-app_assoc in Hsp. apply spaced_suffix in Hsp as [Hb _].
      destruct (isSpace b) eqn:Hbsp; [|done].
      destruct (Hb eq_refl) as [_ Hb']. specialize (Hb' _ _ eq_refl).
      congruence.
  - destruct after as [|a after'].
    + specialize (Hlast _ _ eq_refl). congruence.
    + exists a, after'. split; [done|]. by eapply Hafter.
Qed.

(** X12.  A text that [cleanHTMLContent] returns holds no tag: the pattern
    [<[^>]+>] matches nowhere in it. *)
Theorem X12_cleaned_text_has_no_tag content :
  search tagRegex (cleanHTMLContent content) = None.
Proof.
  apply tagFree_search. by destruct (cleanHTMLContent_cleaned content).
Qed.

(** X13.  Cleaning a cleaned text changes nothing. *)
Theorem X13_cleaning_is_idempotent content :
  cleanHTMLContent (cleanHTMLContent content) = cleanHTMLContent content.
Proof. apply cleaned_fixed, cleanHTMLContent_cleaned. Qed.

(** * Further properties of the extractor and the table *)

Section ExtractedTexts.
Context `{DOMParser}.

Lemma rowDetails_cleaned row entry :
  entry ∈ rowDetails row →
  cleanHTMLContent (specification entry) = specification entry
  ∧ cleanHTMLContent (value entry) = value entry.
Proof.
  unfold rowDetails. case_decide; [|by intros ?%elem_of_nil].
  intros ->%list_elem_of_singleton. simpl.
  split; apply cleaned_fixed, cleanHTMLContent_cleaned.
Qed.

(** X14.  What the extractor stores is clean text: the name of every
    property it returns and the name and the value of every entry are texts
    that [cleanHTMLContent] leaves as they are, so without tags, with single
    spaces and nothing to trim; no property is [__proto__], and none holds
    an empty list. *)
Theorem X14_extracted_texts_are_clean content category details :
  extractSpecifications content !! category = Some details →
  cleanHTMLContent category = category
  ∧ category ≠ str "__proto__"
  ∧ details ≠ []
  ∧ Forall (λ entry,
              cleanHTMLContent (specification entry) = specification entry
              ∧ cleanHTMLContent (value entry) = value entry) details.
Proof.
  unfold extractSpecifications. rewrite specLoop_execAll.
  intros (Hproto & l1 & matches & l2 & _ & <- & <- & Hne & _)
    %fold_processMatch_lookup.
  split_and!; [apply cleaned_fixed, cleanHTMLContent_cleaned|done..|].
  apply Forall_forall. intros entry Hin. unfold categoryDetailsOf in Hin.
  apply list_elem_of_In, in_flat_map in Hin as (row & _ & Hin).
  by apply (rowDetails_cleaned row), list_elem_of_In.
Qed.
End ExtractedTexts.

Lemma find_first {A} (f : A → bool) (l : list A) :
  match List.find f l with
  | Some x =>
      ∃ before after,
        l = before ++ x :: after ∧ f x = true
        ∧ Forall (λ y, f y = false) before
  | None => Forall (λ y, f y = false) l
  end.
Proof.
  induction l as [|y l IH]; simpl; [done|].
  destruct (f y) eqn:Hy; [by exists [], l|].
  destruct (List.find f l) as [x|].
  - destruct IH as (before & after & -> & Hx & Hbefore).
    exists (y :: before), after. split_and!; [done..|]. by constructor.
  - by constructor.
Qed.

Lemma getSpecValue_cellValue deviceSpecMap category name :
  cellValue deviceSpecMap category name
    (getSpecValue deviceSpecMap category name).
Proof.
  unfold cellValue, getSpecValue, specNames.
  pose proof (find_first (isSpecNamed name)
                (categorySpecs deviceSpecMap category)) as Hfind.
  destruct (List.find _ _) as [found|].
  - left. destruct Hfind as (before & after & Heq & Hfound & Hbefore).
    exists before, found, after. split_and!; [done| |done|].
    + by apply bool_decide_eq_true in Hfound.
    + eapply Forall_impl; [exact Hbefore|]. intros e He.
      by apply bool_decide_eq_false in He.
  - right. split; [|done]. intros (e & Hname & Hin)%list_elem_of_fmap.
    rewrite Forall_forall in Hfind. specialize (Hfind e Hin).
    apply bool_decide_eq_false in Hfind. done.
Qed.

(** X15.  Each cell of the comparison table shows, for its device, the
    value of the first entry that the device's category has under the name
    of the row; later entries of the same name are not shown.  It shows
    [N/A] when the category has no entry of that name for the device. *)
Theorem X15_table_cells_show_first_entry
    device1Specs device2Specs category rows row :
  (category, rows) ∈ tableBody device1Specs device2Specs →
  row ∈ rows →
  cellValue device1Specs category (specName row) (device1Value row)
  ∧ cellValue device2Specs category (specName row) (device2Value row).
Proof.
  intros [_ Hblock]%elem_of_tableBody Hrow.
  unfold categoryBlock in Hblock. case_decide; [done|].
  injection Hblock as <-.
  apply list_elem_of_fmap in Hrow as (name & -> & _). simpl.
  split; apply getSpecValue_cellValue.
Qed.

(** * A post answered under another slug *)

Lemma reconcileSlot_frame snapshot st j slugParam :
  localSearchParams (reconcileSlot snapshot st j slugParam)
  = localSearchParams st
  ∧ fetchedDevicesCache (reconcileSlot snapshot st j slugParam)
    = fetchedDevicesCache st
  ∧ fetchedDevicesCacheRef (reconcileSlot snapshot st j slugParam)
    = fetchedDevicesCacheRef st
  ∧ effectDeps (reconcileSlot snapshot st j slugParam) = effectDeps st
  ∧ selectedDevicesRef st
    ≤ selectedDevicesRef (reconcileSlot snapshot st j slugParam)
  ∧ ∀ i, i ≠ j →
      at_ (selectedDevices (reconcileSlot snapshot st j slugParam)) i
      = at_ (selectedDevices st) i.
Proof.
  unfold reconcileSlot, fetchDeviceDetails.
  repeat case_match; simpl; split_and!; try done; try lia;
    intros i Hi; by rewrite at_arraySet_ne.
Qed.

Lemma reconcileSlot_unsettled snapshot st idx slugParam wanted cached device :
  truthy slugParam = Some wanted →
  fetchedDevicesCache st !! wanted = Some cached →
  at_ snapshot idx = Some device → slug device ≠ wanted →
  reconcileSlot snapshot st idx slugParam
  = setSelectedDevices
      (arraySet None (selectedDevices st) idx (Some cached)) st.
Proof.
  intros Hp Hc Hd Hne. unfold reconcileSlot. rewrite Hp, Hd.
  rewrite decide_True by done. unfold fetchDeviceDetails. by rewrite Hc.
Qed.

Lemma runEffect_unsettled st idx wanted :
  idx < 2 → unsettled st idx wanted →
  unsettled (runEffect st) idx wanted
  ∧ S (selectedDevicesRef st) ≤ selectedDevicesRef (runEffect st).
Proof.
  intros Hlt (Hp & (cached & Hc & Hcne) & (device & Hd & Hdne) & Hdue).
  unfold runEffect. rewrite Hdue. unfold reconcile.
  cbn [imap fold_left compose].
  remember (setEffectDeps (Some (currentDeps st)) st) as st0 eqn:Hst0.
  assert (localSearchParams st0 = localSearchParams st
          ∧ fetchedDevicesCache st0 = fetchedDevicesCache st
          ∧ selectedDevices st0 = selectedDevices st
          ∧ selectedDevicesRef st0 = selectedDevicesRef st
          ∧ effectDeps st0 = Some (currentDeps st))
    as (Hpar0 & Hcache0 & Hsel0 & Href0 & Heff0) by (by subst st0).
  clear Hst0. unfold device1SlugParam, device2SlugParam.
  assert (∀ st', selectedDevicesRef st < selectedDevicesRef st' →
            effectDeps st' = Some (currentDeps st) →
            effectDue st' = true) as Hdue'.
  { intros st' Href Heff. unfold effectDue. apply bool_decide_eq_true.
    rewrite Heff. intros [= _ _ Heq _]. lia. }
  rewrite <-Hpar0 in Hp. rewrite <-Hcache0 in Hc. rewrite <-Hsel0 in Hd.
  destruct (paramKey_slots idx Hlt) as [_ [[-> Hk]|[-> Hk]]]; rewrite Hk in Hp.
  - rewrite (reconcileSlot_unsettled _ st0 0 _ wanted cached device) by done.
    match goal with |- context [reconcileSlot ?snapshot ?st' 1 ?p1] =>
      destruct (reconcileSlot_frame snapshot st' 1 p1)
        as (Hpar & Hcache & _ & Heff & Href & Hat) end.
    simpl in Href. split; [|lia]. unfold unsettled.
    rewrite Hpar, Hcache, Hat by done. simpl. rewrite Hk, at_arraySet_eq.
    split_and!; [done|by eauto|by eauto|].
    apply Hdue'; [lia|by rewrite Heff].
  - destruct (reconcileSlot_frame (selectedDevices st0) st0 0
                (localSearchParams st0 !! str "device1"))
      as (Hpar & Hcache & _ & Heff & Href & Hat).
    rewrite (reconcileSlot_unsettled _ _ 1 _ wanted cached device);
      [|done|by rewrite Hcache|done..].
    simpl. split; [|lia]. unfold unsettled. simpl.
    rewrite Hpar, Hcache, at_arraySet_eq, Hk.
    split_and!; [done|by eauto|by eauto|].
    apply Hdue'; [simpl; lia|simpl; by rewrite Heff].
Qed.

(** X16.  When the content API answers the detail request of the slug
    that a slot's parameter names with a post that has another slug, the
    effect never comes to rest: it finds the slot's slug different from the
    parameter, fills the slot from the cache, where the post lies under the
    slug asked for, and thereby renews [selectedDevices], which makes the
    effect due again, at every render. *)
Theorem X16_answer_under_another_slug_never_settles
    st idx wanted answered n :
  idx < 2 →
  truthy (localSearchParams st !! paramKey idx) = Some wanted →
  AwaitDetails wanted idx ∈ inFlight st →
  effectDeps st = Some (currentDeps st) →
  slug answered ≠ wanted →
  let st' :=
    runEvents (replicate n Render)
      (step st (DetailsResponse wanted idx (Data (Some answered)))) in
  effectDue st' = true
  ∧ n + selectedDevicesRef st < selectedDevicesRef st'.
Proof.
  intros Hlt Hp Hin Hdeps Hne st'. subst st'.
  set (loaded := step st (DetailsResponse wanted idx (Data (Some answered)))).
  assert (unsettled loaded idx wanted
          ∧ selectedDevicesRef st < selectedDevicesRef loaded) as [Hun Href].
  { unfold loaded. simpl. unfold resume.
    destruct (removeFirst_elem_of _ _ Hin) as [waiting ->].
    unfold fetchDeviceDetailsResume, unsettled. simpl.
    rewrite lookup_insert_eq, at_arraySet_eq.
    split; [|lia]. split_and!; [done|by eauto|by eauto|].
    unfold effectDue. apply bool_decide_eq_true. simpl. rewrite Hdeps.
    intros [= Heq _]. lia. }
  clearbody loaded.
  assert (effectDue (runEvents (replicate n Render) loaded) = true
          ∧ n + selectedDevicesRef loaded
            ≤ selectedDevicesRef (runEvents (replicate n Render) loaded))
    as [Hdue Hcount]; [|split; [done|lia]].
  clear Href. revert loaded Hun.
  induction n as [|n IH]; intros loaded Hun; simpl.
  - split; [by destruct Hun as (_ & _ & _ & ?)|lia].
  - destruct (runEffect_unsettled loaded idx wanted Hlt Hun) as [Hun' Href'].
    destruct (IH (runEffect loaded) Hun') as [Hdue Hcount].
    split; [done|lia].
Qed.

(** * A post answered under the slug asked for *)

Lemma runEffect_consistent st :
  consistent st →
  consistent (runEffect st)
  ∧ selectedDevices (runEffect st) = selectedDevices st
  ∧ network (runEffect st) = network st
  ∧ inFlight (runEffect st) = inFlight st.
Proof.
  intros Hc. unfold runEffect. case_match; [|done].
  assert (consistent (setEffectDeps (Some (currentDeps st)) st)) as Hc'
    by exact Hc.
  by rewrite (reconcile_consistent _ Hc').
Qed.

Lemma renders_consistent st n :
  consistent st →
  consistent (runEvents (replicate n Render) st)
  ∧ selectedDevices (runEvents (replicate n Render) st) = selectedDevices st
  ∧ network (runEvents (replicate n Render) st) = network st
  ∧ inFlight (runEvents (replicate n Render) st) = inFlight st.
Proof.
  revert st. induction n as [|n IH]; intros st Hc; [done|]. simpl.
  destruct (runEffect_consistent st Hc) as (Hc' & <- & <- & <-).
  by apply IH.
Qed.

(** X17.  When the content API answers the detail request of the slug
    that a slot's parameter names with a post of that slug, and the other
    slot agrees with its parameter, the comparison comes to rest: the slot
    holds the post, both slots agree with the parameters, and however often
    the component renders afterwards the effect calls nothing and leaves
    the selection as it is. *)
Theorem X17_answer_under_the_slug_asked_for_settles
    st idx wanted answered n :
  idx < 2 →
  truthy (localSearchParams st !! paramKey idx) = Some wanted →
  AwaitDetails wanted idx ∈ inFlight st →
  slug answered = wanted →
  (∀ j, j < 2 → j ≠ idx →
     consistentSlot st j (localSearchParams st !! paramKey j)) →
  let st' :=
    runEvents (replicate n Render)
      (step st (DetailsResponse wanted idx (Data (Some answered)))) in
  at_ (selectedDevices st') idx = Some answered
  ∧ consistent st'
  ∧ network st' = network st
  ∧ fetchedDevicesCache st' !! wanted = Some answered.
Proof.
  intros Hlt Hp Hin Hslug Hother st'. subst st'.
  set (loaded := step st (DetailsResponse wanted idx (Data (Some answered)))).
  assert (consistent loaded
          ∧ at_ (selectedDevices loaded) idx = Some answered
          ∧ network loaded = network st
          ∧ fetchedDevicesCache loaded !! wanted = Some answered)
    as (Hc & Hat & Hnet & Hcache).
  { unfold loaded. simpl. unfold resume.
    destruct (removeFirst_elem_of _ _ Hin) as [waiting ->].
    unfold fetchDeviceDetailsResume, consistent, consistentSlot,
      device1SlugParam, device2SlugParam. simpl.
    rewrite lookup_insert_eq, at_arraySet_eq. split_and!; try done.
    - destruct idx as [|[|idx]]; [| |lia].
      + rewrite at_arraySet_eq.
        change (str "device1") with (paramKey 0). rewrite Hp. by eauto.
      + rewrite at_arraySet_ne by done.
        assert (consistentSlot st 0 (localSearchParams st !! paramKey 0))
          as H0 by (apply Hother; lia).
        exact H0.
    - destruct idx as [|[|idx]]; [| |lia].
      + rewrite at_arraySet_ne by done.
        assert (consistentSlot st 1 (localSearchParams st !! paramKey 1))
          as H1 by (apply Hother; lia).
        exact H1.
      + rewrite at_arraySet_eq.
        change (str "device2") with (paramKey 1). rewrite Hp. by eauto. }
  clearbody loaded.
  destruct (renders_consistent loaded n Hc) as (Hc' & Hsel & Hnet' & _).
  rewrite Hsel, Hnet'. split_and!; try done.
  clear -Hcache. revert loaded Hcache.
  induction n as [|n IH]; intros loaded Hcache; [done|]. simpl. apply IH.
  unfold runEffect. case_match; [|done]. unfold reconcile.
  cbn [imap fold_left compose].
  repeat match goal with |- context [reconcileSlot ?snap ?st0 ?j ?p] =>
    destruct (reconcileSlot_frame snap st0 j p) as (_ & -> & _)
  end. done.
Qed.

(** * What a slot shows *)

Lemma List_filter_sublist {A} (f : A → bool) (l : list A) :
  List.filter f l `sublist_of` l.
Proof.
  induction l as [|x l IH]; simpl; [done|].
  destruct (f x); [by apply sublist_skip|by apply sublist_cons].
Qed.

Section ViewFacts.
Variable toLowerCase : jsstring → jsstring.

Lemma renderSlot_results_emptied st st' j :
  slotState st' j = slotState st j →
  currentSearchResults st' = [] →
  renderSlot toLowerCase j st'
  = match renderSlot toLowerCase j st with
    | SearchResults _ => SearchResults NoResults
    | view => view
    end.
Proof.
  unfold slotState, renderSlot, renderSearchResults.
  intros [= -> -> ->] ->. simpl.
  destruct (default false (fetchingIndividualDetails st !! j)) eqn:Hf;
    [done|].
  destruct (at_ (selectedDevices st) j); [done|].
  repeat case_decide; done.
Qed.

(** X18.  The result list is shared by the two slots: when a device is
    pressed or removed in one slot, or its text is cleared, the other slot
    keeps what it shows, except that a result list it was offering is
    replaced by "No results found." although its own text is unchanged. *)
Theorem X18_other_slot_loses_its_results st e index j :
  eventSlot e = Some index → clearsResults e → j ≠ index →
  renderSlot toLowerCase j (step st e)
  = match renderSlot toLowerCase j st with
    | SearchResults _ => SearchResults NoResults
    | view => view
    end.
Proof.
  intros He Hclears Hne. apply renderSlot_results_emptied.
  - destruct e as [text i|device i|i| | | | |];
      simpl in He, Hclears; try done; injection He as ->; simpl.
    + unfold handleSearchInputChange. rewrite decide_False by naive_solver.
      unfold slotState, at_. simpl. by rewrite ?arraySet_lookup_ne.
    + unfold handleSelectDevice, fetchDeviceDetails, slotState, at_.
      repeat case_match; simpl; by rewrite ?arraySet_lookup_ne.
    + unfold handleRemoveDevice, slotState, at_. simpl.
      by rewrite ?arraySet_lookup_ne.
  - destruct e as [text i|device i|i| | | | |];
      simpl in He, Hclears; try done; simpl.
    unfold handleSearchInputChange. by rewrite decide_False by naive_solver.
Qed.

(** X19.  Pressing a result closes the result list of its slot at once:
    the slot shows "Loading...", or the card of the cached device when the
    device is cached and nothing is being loaded into the slot.  The slug
    names no property that an object inherits: for such a name the cache
    test of the source is true with nothing cached. *)
Theorem X19_selection_closes_the_result_list st device index :
  slug device ∉ inheritedNames →
  renderSlot toLowerCase index (step st (SelectDevice device index))
  = LoadingCard
  ∨ ∃ cached,
      fetchedDevicesCache st !! slug device = Some cached
      ∧ renderSlot toLowerCase index (step st (SelectDevice device index))
        = Card cached.
Proof.
  intros _. simpl. unfold handleSelectDevice, fetchDeviceDetails, renderSlot.
  destruct (fetchedDevicesCache st !! slug device) as [cached|]; simpl.
  - destruct (default false (fetchingIndividualDetails st !! index));
      [by left|].
    right. exists cached. by rewrite at_arraySet_eq.
  - left. by rewrite lookup_arraySet_eq.
Qed.

(** X20.  The spinner of [renderSearchResults] is never on the screen: a
    slot calls [renderSearchResults] only when its loading flag is false.
    When a slot shows search results it holds no device, its text is not
    empty, and it shows "No results found." or a list that is not empty
    and is drawn, in order, from the shared results. *)
Theorem X20_result_view_of_a_slot st index view :
  renderSlot toLowerCase index st = SearchResults view →
  at_ (selectedDevices st) index = None
  ∧ default [] (searchQueries st !! index) ≠ []
  ∧ default false (fetchingIndividualDetails st !! index) = false
  ∧ (view = NoResults
     ∨ ∃ filteredResults,
         view = ResultList filteredResults
         ∧ filteredResults ≠ []
         ∧ filteredResults `sublist_of` currentSearchResults st).
Proof.
  unfold renderSlot, renderSearchResults.
  destruct (default false (fetchingIndividualDetails st !! index)); [done|].
  destruct (at_ (selectedDevices st) index); [done|].
  case_decide as Hq; [done|].
  intros Hview. split; [done|]. split; [done|]. split; [done|].
  case_decide as Hlen; injection Hview as <-; [|by left].
  right. eexists. split; [done|]. split.
  - intros Hnil. rewrite Hnil in Hlen. simpl in Hlen. lia.
  - apply List_filter_sublist.
Qed.
End ViewFacts.

(** * The scenario, the rows and the pattern of the extractor *)

Lemma plainRow_cells row :
  plainRow row → getElementsByTagName (str "td") row = cellsOf row.
Proof.
  destruct row as [d|t cs]; [done|]. unfold getElementsByTagName. simpl.
  induction 1 as [|c cs Hc Hcs IH]; [done|].
  cbn [List.filter]. rewrite List.filter_app, IH.
  destruct c as [d|t' cs']; [done|]. destruct Hc as [Htd Hnone].
  rewrite Htd. simpl. unfold getElementsByTagName in Hnone. simpl in Hnone.
  by rewrite Hnone.
Qed.

Section ExtractorScenario.
Context `{DOMParser}.

Lemma categoryDetailsOf_length matches :
  length (categoryDetailsOf matches)
  = length
      (List.filter (λ texts, bool_decide (length texts = 2))
         (tableCells (parseFromString
                        (str "<table>" ++ group2 matches ++ str "</table>")))).
Proof.
  rewrite categoryDetailsOf_tableCells.
  induction (tableCells _) as [|texts rows IH]; [done|].
  simpl. rewrite length_app, IH.
  by destruct texts as [|text0 [|text1 [|text2 texts]]].
Qed.

(** C1.  For the body
    [<h3>Display</h3><figure><table><tr><td>Size</td><td>6.1 in</td></tr></table></figure>]
    the extractor returns the object whose only property is [Display],
    holding the one entry of name [Size] and value [6.1 in], whenever the
    DOM parser reads the table as one row of the two cells [Size] and
    [6.1 in]; it returns the same object for the body whose heading and
    cells hold tags, attributes and surplus white space.  In general every
    property of the result is the cleaned heading of a match, and its
    entries are, row by row, the cleaned text of the first cell as name and
    the cleaned text of the second as value.  A cleaned text holds no tag,
    its white space is single spaces with none at either end, and a text
    that is of that form already is kept as it is.  The entry's name is
    held in the field [specification]. *)
Theorem C1_extract_display_scenario :
  (tableCells
     (parseFromString
        (str "<table><tr><td>Size</td><td>6.1 in</td></tr></table>"))
   = [[str "Size"; str "6.1 in"]] →
   extractSpecifications
     (str "<h3>Display</h3><figure><table><tr><td>Size</td><td>6.1 in</td></tr></table></figure>")
   = {[ str "Display" := [Spec (str "Size") (str "6.1 in")] ]})
  ∧ (tableCells (parseFromString markedTable)
     = [[str "Size"; str " 6.1" ++ [9%N; 10%N] ++ str "in "]] →
     extractSpecifications markedBody
     = {[ str "Display" := [Spec (str "Size") (str "6.1 in")] ]})
  ∧ (∀ content category details,
       extractSpecifications content !! category = Some details →
       ∃ matches,
         matches ∈ execAll content
         ∧ category = cleanHTMLContent (group1 matches)
         ∧ details
           = flat_map cellsEntry
               (tableCells
                  (parseFromString
                     (str "<table>" ++ group2 matches ++ str "</table>"))))
  ∧ (∀ text0 text1,
       cellsEntry [text0; text1]
       = [Spec (cleanHTMLContent text0) (cleanHTMLContent text1)])
  ∧ (∀ text,
       search tagRegex (cleanHTMLContent text) = None
       ∧ spaced (cleanHTMLContent text)
       ∧ trimmed (cleanHTMLContent text))
  ∧ (∀ text, cleaned text → cleanHTMLContent text = text).
Proof.
  split_and!.
  - intros Hcells. unfold extractSpecifications. rewrite specLoop_eq.
    assert (exec (str "<h3>Display</h3><figure><table><tr><td>Size</td><td>6.1 in</td></tr></table></figure>")
            = Some (ExecResult (str "Display")
                      (str "<tr><td>Size</td><td>6.1 in</td></tr>") []))
      as -> by (vm_compute; reflexivity).
    cbn [afterMatch]. rewrite specLoop_eq.
    assert (exec [] = None) as -> by reflexivity.
    unfold processMatch. rewrite categoryDetailsOf_tableCells. cbn [group2].
    change (str "<table>" ++ str "<tr><td>Size</td><td>6.1 in</td></tr>"
            ++ str "</table>")
      with (str "<table><tr><td>Size</td><td>6.1 in</td></tr></table>").
    rewrite Hcells. vm_compute. reflexivity.
  - intros Hcells. unfold extractSpecifications. rewrite specLoop_eq.
    assert (exec markedBody
            = Some (ExecResult (str " <strong>Display</strong>  ")
                      (str "<tbody><tr><td><strong>Size</strong></td><td> 6.1"
                       ++ [9%N; 10%N] ++ str "in </td></tr></tbody>") []))
      as -> by (vm_compute; reflexivity).
    cbn [afterMatch]. rewrite specLoop_eq.
    assert (exec [] = None) as -> by reflexivity.
    unfold processMatch. rewrite categoryDetailsOf_tableCells. cbn [group2].
    change (str "<table>"
            ++ (str "<tbody><tr><td><strong>Size</strong></td><td> 6.1"
                ++ [9%N; 10%N] ++ str "in </td></tr></tbody>")
            ++ str "</table>")
      with markedTable.
    rewrite Hcells. vm_compute. reflexivity.
  - intros content category details. unfold extractSpecifications.
    rewrite specLoop_execAll.
    intros (_ & l1 & matches & l2 & Hall & <- & <- & _)%fold_processMatch_lookup.
    exists matches. split_and!; [|done|apply categoryDetailsOf_tableCells].
    rewrite Hall. apply elem_of_app. right. left.
  - done.
  - intros text.
    destruct (cleanHTMLContent_cleaned text) as (Htag & Hspaced & Htrimmed).
    split_and!; [by apply tagFree_search|done..].
  - apply cleaned_fixed.
Qed.

(** C7, amended.  A row yields an entry exactly when it has two [td]
    elements among its descendants; for a row of plain [td] cells that is
    its number of cells, so such a row of one cell, or of three or more,
    yields none, and the entries of a table are as many as its rows with
    two [td].  A [th] is not counted and a [td] of a table inside a cell
    is: the row of [th td td] yields an entry, the row of two cells whose
    first holds a table yields none.  A matched table without entry leaves
    the object as it is: a category none of whose matched tables yields an
    entry is no property of the result, and a category keeps the entries of
    the last block that yielded some, whatever blocks without entry
    follow under the same heading. *)
Theorem C7_rows_without_two_cells_are_skipped :
  (∀ row,
     rowDetails row ≠ [] ↔ length (getElementsByTagName (str "td") row) = 2)
  ∧ (∀ row,
       plainRow row → length (cellsOf row) ≠ 2 → rowDetails row = [])
  ∧ (∀ matches,
       length (categoryDetailsOf matches)
       = length
           (List.filter (λ texts, bool_decide (length texts = 2))
              (tableCells
                 (parseFromString
                    (str "<table>" ++ group2 matches ++ str "</table>")))))
  ∧ (length (cellsOf headedRow) = 3
     ∧ rowDetails headedRow = [Spec (str "Size") (str "6.1 in")]
     ∧ length (cellsOf nestedRow) = 2
     ∧ rowDetails nestedRow = [])
  ∧ (∀ matches specifications,
       categoryDetailsOf matches = [] →
       processMatch matches specifications = specifications)
  ∧ (∀ content category,
       Forall (λ matches,
                 cleanHTMLContent (group1 matches) = category →
                 categoryDetailsOf matches = [])
              (execAll content) →
       extractSpecifications content !! category = None)
  ∧ (∀ content category l1 matches l2,
       execAll content = l1 ++ matches :: l2 →
       cleanHTMLContent (group1 matches) = category →
       category ≠ str "__proto__" →
       categoryDetailsOf matches ≠ [] →
       Forall (λ later,
                 cleanHTMLContent (group1 later) = category →
                 categoryDetailsOf later = []) l2 →
       extractSpecifications content !! category
       = Some (categoryDetailsOf matches)).
Proof.
  split_and!.
  - intros row. unfold rowDetails. case_decide; split; done.
  - intros row Hplain Hlen. apply rowDetails_not_two_cells.
    by rewrite plainRow_cells.
  - apply categoryDetailsOf_length.
  - vm_compute; reflexivity.
  - vm_compute; reflexivity.
  - vm_compute; reflexivity.
  - vm_compute; reflexivity.
  - intros matches specifications Hnone. unfold processMatch.
    rewrite Hnone. case_decide as Hlen; [simpl in Hlen; lia|done].
  - intros content category Hall. rewrite Forall_forall in Hall.
    apply (extractSpecifications_ind (λ m, m !! category = None));
      [apply lookup_empty|].
    intros matches specifications Hin Hnone. unfold processMatch.
    case_decide as Hlen; [|done]. unfold setProperty. case_decide; [done|].
    rewrite lookup_insert_ne; [done|]. intros Heq.
    rewrite (Hall matches Hin Heq) in Hlen. simpl in Hlen. lia.
  - intros content category l1 matches l2 Hall Hcat Hproto Hsome Hlater.
    unfold extractSpecifications. rewrite specLoop_execAll.
    apply fold_processMatch_lookup. split; [done|].
    exists l1, matches, l2. split_and!; done.
Qed.

(** C10.  Where no [figure] occurs the extractor returns the empty
    object, as for the heading with the bare table alone.  When a table in
    a [figure] follows, the bare block is not dropped: the one match starts
    at the heading of the bare table, its heading capture runs over that
    table up to the next heading, and the text of the bare block ends up in
    the name of the category that holds the entries of the later table;
    neither [Display] nor [Camera] is a property of the result.  After a
    [figure] with a caption the table capture runs on to the next table in
    a [figure], over the bare table in between, whose rows are then parsed
    with the others. *)
Theorem C10_bare_table_is_not_dropped :
  (∀ content,
     includes content (str "<figure") = false →
     extractSpecifications content = ∅)
  ∧ extractSpecifications
      (str "<h3>Display</h3><table><tr><td>Size</td><td>6.1 in</td></tr></table>")
    = ∅
  ∧ execAll mixedBody
    = [ExecResult
         (str "Display</h3><table><tr><td>Size</td><td>6.1 in</td></tr></table><h3>Camera")
         (str "<tr><td>Main</td><td>48 MP</td></tr>") []]
  ∧ cleanHTMLContent
      (str "Display</h3><table><tr><td>Size</td><td>6.1 in</td></tr></table><h3>Camera")
    = str "DisplaySize6.1 inCamera"
  ∧ (∀ category,
       category ≠ str "DisplaySize6.1 inCamera" →
       extractSpecifications mixedBody !! category = None)
  ∧ @extractSpecifications simpleParser mixedBody
    = {[ str "DisplaySize6.1 inCamera" := [Spec (str "Main") (str "48 MP")] ]}
  ∧ execAll captionedBody
    = [ExecResult (str "Display")
         (str "<tr><td>Size</td><td>6.1 in</td></tr></table><figcaption>Screen</figcaption></figure><h3>Camera</h3><table><tr><td>Main</td><td>48 MP</td></tr></table><h3>Battery</h3><figure><table><tr><td>Capacity</td><td>4000 mAh</td></tr>")
         []]
  ∧ @extractSpecifications simpleParser captionedBody
    = {[ str "Display" := [Spec (str "Size") (str "6.1 in");
                           Spec (str "Main") (str "48 MP");
                           Spec (str "Capacity") (str "4000 mAh")] ]}.
Proof.
  assert (execAll mixedBody
          = [ExecResult
               (str "Display</h3><table><tr><td>Size</td><td>6.1 in</td></tr></table><h3>Camera")
               (str "<tr><td>Main</td><td>48 MP</td></tr>") []]) as Hall
    by (vm_compute; reflexivity).
  split; [|split; [|split; [|split; [|split; [|split; [|split]]]]]].
  - intros content Hno.
    by apply extractSpecifications_no_match, exec_None_without_figure.
  - by apply extractSpecifications_no_match, exec_None_without_figure.
  - exact Hall.
  - vm_compute. reflexivity.
  - intros category Hne. unfold extractSpecifications.
    rewrite specLoop_execAll, Hall. cbn [fold_left].
    rewrite processMatch_lookup.
    rewrite decide_False; [apply lookup_empty|].
    intros (Hcat & _). apply Hne. rewrite <-Hcat. vm_compute. reflexivity.
  - vm_compute. reflexivity.
  - vm_compute. reflexivity.
  - vm_compute. reflexivity.
Qed.
End ExtractorScenario.

(** * Instances of the further properties *)

Lemma X1_witness :
  let st := step (mount ∅) (ChangeText (str "ip") 1) in
  eventSlot (SelectDevice iphone 0) = Some 0
  ∧ 1 ≠ 0
  ∧ slotState (step st (SelectDevice iphone 0)) 1 = slotState st 1.
Proof.
  assert (1 ≠ 0) as Hne by discriminate.
  split; [reflexivity|]. split; [exact Hne|].
  exact (X1_slots_are_independent
           (step (mount ∅) (ChangeText (str "ip") 1))
           (SelectDevice iphone 0) 0 1 eq_refl Hne).
Defined.

Lemma X2_witness :
  let st := runEvents [SelectDevice iphone 0; ChangeText (str "ip") 1] (mount ∅) in
  reachableOnSlots st
  ∧ length (selectedDevices st) = 2
  ∧ length (searchQueries st) = 2
  ∧ length (fetchingIndividualDetails st) = 2.
Proof.
  assert (reachableOnSlots
            (runEvents [SelectDevice iphone 0; ChangeText (str "ip") 1]
               (mount ∅))) as Hst.
  { exists ∅, [SelectDevice iphone 0; ChangeText (str "ip") 1].
    split; [|reflexivity]. repeat constructor. }
  split; [exact Hst|]. exact (X2_two_slots _ Hst).
Defined.

Lemma X3_witness :
  let st := step (mount ∅) (SelectDevice iphone 0) in
  reachable st
  ∧ fetchingIndividualDetails st !! 0 = Some true
  ∧ ∃ deviceSlug, AwaitDetails deviceSlug 0 ∈ inFlight st.
Proof.
  assert (reachable (step (mount ∅) (SelectDevice iphone 0))) as Hst
    by (by exists ∅, [SelectDevice iphone 0]).
  split; [exact Hst|]. split; [reflexivity|].
  exact (X3_loading_flag_has_fetch _ 0 Hst eq_refl).
Defined.

Lemma X4_witness :
  let st :=
    runEvents [ChangeText (str " ") 0; Elapse 500;
               ChangeText (str "ip") 0; Elapse 500] (mount ∅) in
  reachable st
  ∧ network st = [SearchPosts (str "ip")]
  ∧ Forall guardedRequest (network st).
Proof.
  assert (reachable
            (runEvents [ChangeText (str " ") 0; Elapse 500;
                        ChangeText (str "ip") 0; Elapse 500] (mount ∅)))
    as Hst by (by eexists ∅, _).
  split; [exact Hst|]. split; [vm_compute; reflexivity|].
  exact (X4_no_blank_search_is_sent _ Hst).
Defined.

Lemma X5_witness :
  let st := step (mount ∅) (SelectDevice phoneA 0) in
  let st' :=
    runEvents [RemoveDevice 0; Render]
      (step st (DetailsResponse (str "phone-a") 0 (Data (Some phoneA)))) in
  AwaitDetails (str "phone-a") 0 ∈ inFlight st
  ∧ ∃ cached,
      fetchedDevicesCache st' !! str "phone-a" = Some cached
      ∧ network (fetchDeviceDetails (str "phone-a") 1 st') = network st'
      ∧ inFlight (fetchDeviceDetails (str "phone-a") 1 st') = inFlight st'
      ∧ at_ (selectedDevices (fetchDeviceDetails (str "phone-a") 1 st')) 1
        = Some cached.
Proof.
  assert (AwaitDetails (str "phone-a") 0
          ∈ inFlight (step (mount ∅) (SelectDevice phoneA 0))) as Hin
    by (apply (bool_decide_unpack _); vm_compute; exact I).
  split; [exact Hin|].
  exact (X5_cached_device_is_not_fetched_again
           (step (mount ∅) (SelectDevice phoneA 0)) (str "phone-a") 0 phoneA
           [RemoveDevice 0; Render] 1 Hin).
Defined.

Lemma X6_witness :
  let st := runEvents [ChangeText (str "ip") 0; ChangeText (str "ga") 1] (mount ∅) in
  reachable st
  ∧ length (timers st) ≤ 1
  ∧ ∀ t, t ∈ timers st → debounceTimeoutRefs st !! [] = Some (timerId t).
Proof.
  assert (reachable
            (runEvents [ChangeText (str "ip") 0; ChangeText (str "ga") 1]
               (mount ∅))) as Hst by (by eexists ∅, _).
  split; [exact Hst|]. exact (X6_one_timer_at_most _ Hst).
Defined.

Lemma X7_witness :
  let st' := step comparingAB (RemoveDevice 0) in
  consistent comparingAB
  ∧ 0 < 2
  ∧ at_ (selectedDevices st') 0 = None
  ∧ localSearchParams st' !! paramKey 0 = None
  ∧ consistent st'
  ∧ selectedDevices (step st' Render) = selectedDevices st'
  ∧ network (step st' Render) = network comparingAB
  ∧ inFlight (step st' Render) = inFlight comparingAB.
Proof.
  assert (consistent comparingAB) as Hst by (split; vm_compute; eauto).
  assert (0 < 2) as Hlt by lia.
  split; [exact Hst|]. split; [exact Hlt|].
  exact (X7_removal_needs_no_reconciliation comparingAB 0 Hst Hlt).
Defined.

Lemma X8_witness :
  let st := step (mount ∅) Render in
  let st' := runEvents [SelectDevice iphone 0; Render] st in
  0 < 2
  ∧ slug iphone ≠ []
  ∧ (slug iphone ∉ inheritedNames)
  ∧ fetchedDevicesCache st !! slug iphone = None
  ∧ at_ (selectedDevices st) 0 = None
  ∧ consistent st
  ∧ effectDeps st = Some (currentDeps st)
  ∧ network st'
    = network st ++ [GetPostBySlug (slug iphone); GetPostBySlug (slug iphone)]
  ∧ inFlight st'
    = inFlight st ++ [AwaitDetails (slug iphone) 0;
                      AwaitDetails (slug iphone) 0].
Proof.
  assert (0 < 2) as Hlt by lia.
  assert (slug iphone ≠ []) as Hslug by discriminate.
  assert (slug iphone ∉ inheritedNames) as Hown
    by (apply (bool_decide_unpack _); vm_compute; exact I).
  assert (consistent (step (mount ∅) Render)) as Hst
    by (split; vm_compute; reflexivity).
  split; [exact Hlt|]. split; [exact Hslug|]. split; [exact Hown|].
  split; [reflexivity|]. split; [reflexivity|]. split; [exact Hst|].
  split; [reflexivity|].
  exact (X8_selection_fetches_twice (step (mount ∅) Render) iphone 0
           Hlt Hslug Hown eq_refl eq_refl Hst eq_refl).
Defined.

Lemma C1_witness :
  tableCells
    (@parseFromString simpleParser
       (str "<table><tr><td>Size</td><td>6.1 in</td></tr></table>"))
  = [[str "Size"; str "6.1 in"]]
  ∧ @extractSpecifications simpleParser
      (str "<h3>Display</h3><figure><table><tr><td>Size</td><td>6.1 in</td></tr></table></figure>")
    = {[ str "Display" := [Spec (str "Size") (str "6.1 in")] ]}
  ∧ tableCells (@parseFromString simpleParser markedTable)
    = [[str "Size"; str " 6.1" ++ [9%N; 10%N] ++ str "in "]]
  ∧ @extractSpecifications simpleParser markedBody
    = {[ str "Display" := [Spec (str "Size") (str "6.1 in")] ]}
  ∧ cleanHTMLContent (str " <strong>Display</strong>  ") = str "Display"
  ∧ cleanHTMLContent (str " 6.1" ++ [9%N; 10%N] ++ str "in ") = str "6.1 in".
Proof.
  split; [reflexivity|].
  split;
    [exact (proj1 (@C1_extract_display_scenario simpleParser) eq_refl)|].
  split; [reflexivity|].
  split;
    [exact (proj1 (proj2 (@C1_extract_display_scenario simpleParser)) eq_refl)|].
  split; vm_compute; reflexivity.
Defined.

Lemma C7_witness :
  (plainRow oneCellRow
   ∧ length (cellsOf oneCellRow) ≠ 2
   ∧ rowDetails oneCellRow = [])
  ∧ (Forall (λ matches,
               cleanHTMLContent (group1 matches) = str "Display" →
               @categoryDetailsOf simpleParser matches = [])
            (execAll oneCellBody)
     ∧ @extractSpecifications simpleParser oneCellBody !! str "Display" = None)
  ∧ (∃ first second,
       execAll repeatedBody = [] ++ first :: [second]
       ∧ cleanHTMLContent (group1 first) = str "Display"
       ∧ str "Display" ≠ str "__proto__"
       ∧ @categoryDetailsOf simpleParser first ≠ []
       ∧ Forall (λ later,
                   cleanHTMLContent (group1 later) = str "Display" →
                   @categoryDetailsOf simpleParser later = []) [second]
       ∧ @extractSpecifications simpleParser repeatedBody !! str "Display"
         = Some (@categoryDetailsOf simpleParser first)).
Proof.
  assert (plainRow oneCellRow) as Hplain by (repeat constructor).
  assert (length (cellsOf oneCellRow) ≠ 2) as Hrow
    by (vm_compute; discriminate).
  assert (Forall (λ matches,
                    cleanHTMLContent (group1 matches) = str "Display" →
                    @categoryDetailsOf simpleParser matches = [])
                 (execAll oneCellBody)) as Hall.
  { assert (execAll oneCellBody
            = [ExecResult (str "Display") (str "<tr><td>Size</td></tr>") []])
      as -> by (vm_compute; reflexivity).
    repeat constructor. }
  pose proof (@C7_rows_without_two_cells_are_skipped simpleParser)
    as (_ & Hrows & _ & _ & _ & Habsent & Hkept).
  split; [|split].
  - split; [exact Hplain|]. split; [exact Hrow|].
    exact (Hrows oneCellRow Hplain Hrow).
  - split; [exact Hall|]. exact (Habsent oneCellBody (str "Display") Hall).
  - assert (execAll repeatedBody
            = [] ++ ExecResult (str "Display")
                      (str "<tr><td>Size</td><td>6.1 in</td></tr>")
                      (str "<h3>Display</h3><figure><table><tr><td>Size</td></tr></table></figure>")
                 :: [ExecResult (str "Display") (str "<tr><td>Size</td></tr>") []])
      as Hexec by (vm_compute; reflexivity).
    assert (str "Display" ≠ str "__proto__") as Hproto by discriminate.
    assert (@categoryDetailsOf simpleParser
              (ExecResult (str "Display")
                 (str "<tr><td>Size</td><td>6.1 in</td></tr>")
                 (str "<h3>Display</h3><figure><table><tr><td>Size</td></tr></table></figure>"))
            ≠ []) as Hsome by (vm_compute; discriminate).
    assert (Forall (λ later,
                      cleanHTMLContent (group1 later) = str "Display" →
                      @categoryDetailsOf simpleParser later = [])
                   [ExecResult (str "Display") (str "<tr><td>Size</td></tr>") []])
      as Hlater by (repeat constructor).
    eexists _, _. split; [exact Hexec|]. split; [reflexivity|].
    split; [exact Hproto|]. split; [exact Hsome|]. split; [exact Hlater|].
    exact (Hkept repeatedBody (str "Display") _ _ _ Hexec eq_refl Hproto
             Hsome Hlater).
Defined.

Lemma X19_witness :
  (slug iphone ∉ inheritedNames)
  ∧ (renderSlot asciiLower 1 (step offeringIphone (SelectDevice iphone 1))
     = LoadingCard
     ∨ ∃ cached,
         fetchedDevicesCache offeringIphone !! slug iphone = Some cached
         ∧ renderSlot asciiLower 1 (step offeringIphone (SelectDevice iphone 1))
           = Card cached).
Proof.
  assert (slug iphone ∉ inheritedNames) as Hown
    by (apply (bool_decide_unpack _); vm_compute; exact I).
  split; [exact Hown|].
  exact (X19_selection_closes_the_result_list asciiLower offeringIphone
           iphone 1 Hown).
Defined.

Lemma X18_witness :
  eventSlot (SelectDevice phoneA 0) = Some 0
  ∧ clearsResults (SelectDevice phoneA 0)
  ∧ 1 ≠ 0
  ∧ renderSlot asciiLower 1 offeringIphone = SearchResults (ResultList [iphone])
  ∧ renderSlot asciiLower 1 (step offeringIphone (SelectDevice phoneA 0))
    = SearchResults NoResults.
Proof.
  assert (1 ≠ 0) as Hne by discriminate.
  assert (renderSlot asciiLower 1 offeringIphone
          = SearchResults (ResultList [iphone])) as Hshown
    by (vm_compute; reflexivity).
  split; [reflexivity|]. split; [exact I|]. split; [exact Hne|].
  split; [exact Hshown|].
  pose proof (X18_other_slot_loses_its_results asciiLower offeringIphone
                (SelectDevice phoneA 0) 0 1 eq_refl I Hne) as Hafter.
  rewrite Hshown in Hafter. exact Hafter.
Defined.

Lemma X20_witness :
  renderSlot asciiLower 1 offeringIphone = SearchResults (ResultList [iphone])
  ∧ at_ (selectedDevices offeringIphone) 1 = None
  ∧ default [] (searchQueries offeringIphone !! 1) ≠ []
  ∧ default false (fetchingIndividualDetails offeringIphone !! 1) = false
  ∧ (ResultList [iphone] = NoResults
     ∨ ∃ filteredResults,
         ResultList [iphone] = ResultList filteredResults
         ∧ filteredResults ≠ []
         ∧ filteredResults `sublist_of` currentSearchResults offeringIphone).
Proof.
  assert (renderSlot asciiLower 1 offeringIphone
          = SearchResults (ResultList [iphone])) as Hshown
    by (vm_compute; reflexivity).
  split; [exact Hshown|].
  exact (X20_result_view_of_a_slot asciiLower offeringIphone 1 _ Hshown).
Defined.

Lemma X11_witness :
  cleanHTMLContent (str "<td> 6.1   <b>in</b> </td>")
  = str "6.1" ++ chr " " :: str "in"
  ∧ isSpace (chr " ") = true
  ∧ chr " " = chr " "
  ∧ (∃ before' b, str "6.1" = before' ++ [b] ∧ isSpace b = false)
  ∧ (∃ a after', str "in" = a :: after' ∧ isSpace a = false).
Proof.
  assert (cleanHTMLContent (str "<td> 6.1   <b>in</b> </td>")
          = str "6.1" ++ chr " " :: str "in") as Hclean
    by (vm_compute; reflexivity).
  split; [exact Hclean|]. split; [reflexivity|].
  exact (X11_cleaned_text_white_space _ _ _ _ Hclean eq_refl).
Defined.

Lemma X14_witness :
  @extractSpecifications simpleParser displayBody !! str "Display"
  = Some [Spec (str "Size") (str "6.1 in")]
  ∧ cleanHTMLContent (str "Display") = str "Display"
  ∧ str "Display" ≠ str "__proto__"
  ∧ [Spec (str "Size") (str "6.1 in")] ≠ []
  ∧ Forall (λ entry,
              cleanHTMLContent (specification entry) = specification entry
              ∧ cleanHTMLContent (value entry) = value entry)
      [Spec (str "Size") (str "6.1 in")].
Proof.
  assert (@extractSpecifications simpleParser displayBody !! str "Display"
          = Some [Spec (str "Size") (str "6.1 in")]) as Hlookup
    by (vm_compute; reflexivity).
  split; [exact Hlookup|].
  exact (@X14_extracted_texts_are_clean simpleParser displayBody _ _ Hlookup).
Defined.

Lemma X15_witness :
  let row := TableRow (str "Resolution") (str "1170 x 2532") (str "N/A") in
  (str "Display", displayRowsAB) ∈ tableBody specsA specsB
  ∧ row ∈ displayRowsAB
  ∧ cellValue specsA (str "Display") (str "Resolution") (str "1170 x 2532")
  ∧ cellValue specsB (str "Display") (str "Resolution") (str "N/A").
Proof.
  assert ((str "Display", displayRowsAB) ∈ tableBody specsA specsB) as Hin
    by (apply (bool_decide_unpack _); vm_compute; exact I).
  assert (TableRow (str "Resolution") (str "1170 x 2532") (str "N/A")
          ∈ displayRowsAB) as Hrow by constructor.
  split; [exact Hin|]. split; [exact Hrow|].
  exact (X15_table_cells_show_first_entry specsA specsB _ _ _ Hin Hrow).
Defined.

Lemma X16_witness :
  let st := step (mount {[ str "device1" := str "Phone-A" ]}) Render in
  let st' :=
    runEvents (replicate 3 Render)
      (step st (DetailsResponse (str "Phone-A") 0 (Data (Some phoneA)))) in
  0 < 2
  ∧ truthy (localSearchParams st !! paramKey 0) = Some (str "Phone-A")
  ∧ AwaitDetails (str "Phone-A") 0 ∈ inFlight st
  ∧ effectDeps st = Some (currentDeps st)
  ∧ slug phoneA ≠ str "Phone-A"
  ∧ effectDue st' = true
  ∧ 3 + selectedDevicesRef st < selectedDevicesRef st'.
Proof.
  assert (0 < 2) as Hlt by lia.
  assert (truthy (localSearchParams
                    (step (mount {[ str "device1" := str "Phone-A" ]}) Render)
                  !! paramKey 0) = Some (str "Phone-A")) as Hp
    by (vm_compute; reflexivity).
  assert (AwaitDetails (str "Phone-A") 0
          ∈ inFlight (step (mount {[ str "device1" := str "Phone-A" ]}) Render))
    as Hin by (apply (bool_decide_unpack _); vm_compute; exact I).
  assert (slug phoneA ≠ str "Phone-A") as Hne by discriminate.
  split; [exact Hlt|]. split; [exact Hp|]. split; [exact Hin|].
  split; [reflexivity|]. split; [exact Hne|].
  exact (X16_answer_under_another_slug_never_settles
           (step (mount {[ str "device1" := str "Phone-A" ]}) Render)
           0 (str "Phone-A") phoneA 3 Hlt Hp Hin eq_refl Hne).
Defined.

Lemma X17_witness :
  let st := step (mount {[ str "device1" := str "phone-a" ]}) Render in
  let st' :=
    runEvents (replicate 3 Render)
      (step st (DetailsResponse (str "phone-a") 0 (Data (Some phoneA)))) in
  0 < 2
  ∧ truthy (localSearchParams st !! paramKey 0) = Some (str "phone-a")
  ∧ AwaitDetails (str "phone-a") 0 ∈ inFlight st
  ∧ slug phoneA = str "phone-a"
  ∧ (∀ j, j < 2 → j ≠ 0 →
       consistentSlot st j (localSearchParams st !! paramKey j))
  ∧ at_ (selectedDevices st') 0 = Some phoneA
  ∧ consistent st'
  ∧ network st' = network st
  ∧ fetchedDevicesCache st' !! str "phone-a" = Some phoneA.
Proof.
  assert (0 < 2) as Hlt by lia.
  assert (truthy (localSearchParams
                    (step (mount {[ str "device1" := str "phone-a" ]}) Render)
                  !! paramKey 0) = Some (str "phone-a")) as Hp
    by (vm_compute; reflexivity).
  assert (AwaitDetails (str "phone-a") 0
          ∈ inFlight (step (mount {[ str "device1" := str "phone-a" ]}) Render))
    as Hin by (apply (bool_decide_unpack _); vm_compute; exact I).
  assert (∀ j, j < 2 → j ≠ 0 →
            consistentSlot
              (step (mount {[ str "device1" := str "phone-a" ]}) Render) j
              (localSearchParams
                 (step (mount {[ str "device1" := str "phone-a" ]}) Render)
               !! paramKey j)) as Hother.
  { intros [|[|j]] Hj Hne; [done| |lia]. vm_compute. reflexivity. }
  split; [exact Hlt|]. split; [exact Hp|]. split; [exact Hin|].
  split; [reflexivity|]. split; [exact Hother|].
  exact (X17_answer_under_the_slug_asked_for_settles
           (step (mount {[ str "device1" := str "phone-a" ]}) Render)
           0 (str "phone-a") phoneA 3 Hlt Hp Hin eq_refl Hother).
Defined.
